(** * Spatial interaction analysis (scimap, [tools/spatial_interaction.py])

    A shallow embedding of [spatial_interaction_internal]: the neighbour
    graph builders (knn, radius, delaunay), the phenotype mapper, the two
    permutation trials ([permutation_pval], [permutation_pval_norm]), the
    observed-frequency computations and the significance evaluator.

    Conventions of the embedding.
    - A cell is its position in the per-image table ([nat]); a phenotype label
      is a [string]; the phenotype column is categorical with the category
      list [cats] (the code groups with [observed=False]).
    - A pandas frame with missing slots is a list of rows of [option].
    - A float is an exact rational or one of the IEEE special values
      (+inf, -inf, NaN): rounding is not modelled, the special values and the
      way they arise from division by zero are.
    - numpy's generator, scikit-learn's BallTree (both queries), scipy's
      Delaunay and normal survival function and pandas' row mean and
      deviation are libraries, not code of this repository: they are
      parameters of the definitions that call them. The exact queries and
      statistics defined below stand for them in the worked examples. *)

From Stdlib Require Import ZArith QArith Qabs Lia String.
From stdpp Require Import base option list gmap sets strings sorting.

#[local] Open Scope nat_scope.

(** ** NeighborGraphBuilder *)

Module Delaunay.

(** [neighbours_dict]: cell index to the set of its neighbours. *)
Abbreviation neighbours_dict := (gmap nat (gset nat)).

(** [{i: set() for i in range(len(points))}] *)
Definition init_dict (npoints : nat) : neighbours_dict :=
  list_to_map ((λ i, (i, ∅)) <$> seq 0 npoints).

(** [neighbours_dict[a].add(b)]; a missing key raises [KeyError]. *)
Definition dict_add (d : neighbours_dict) (a b : nat) : option neighbours_dict :=
  s ← d !! a; Some (<[a := s ∪ {[b]}]> d).

(** Body of the inner loop: the two symmetric insertions. *)
Definition add_edge (d : neighbours_dict) (a b : nat) : option neighbours_dict :=
  d1 ← dict_add d a b; dict_add d1 b a.

(** [for j in range(i + 1, len(simplex))] with [x = simplex[i]] and [ys]
    the vertices at the later positions. *)
Fixpoint add_from (d : neighbours_dict) (x : nat) (ys : list nat) : option neighbours_dict :=
  match ys with
  | [] => Some d
  | y :: ys' => d' ← add_edge d x y; add_from d' x ys'
  end.

(** [for i in range(len(simplex))] *)
Fixpoint add_simplex (d : neighbours_dict) (simplex : list nat) : option neighbours_dict :=
  match simplex with
  | [] => Some d
  | x :: rest => d' ← add_from d x rest; add_simplex d' rest
  end.

(** [for simplex in delaunay.simplices] *)
Fixpoint add_simplices (d : neighbours_dict) (simplices : list (list nat)) : option neighbours_dict :=
  match simplices with
  | [] => Some d
  | s :: ss => d' ← add_simplex d s; add_simplices d' ss
  end.

(** [[list(neighbours) for neighbours in neighbours_dict.values()]] *)
Definition neighbours_list (npoints : nat) (d : neighbours_dict) : list (list nat) :=
  (λ i, elements (d !!! i)) <$> seq 0 npoints.

(** [max(len(neigh) for neigh in neighbours_list)]; [max] of an empty
    sequence raises [ValueError]. *)
Definition max_neigh_len (l : list (list nat)) : option nat :=
  match l with
  | [] => None
  | _ => Some (foldr Nat.max 0 (length <$> l))
  end.

(** Padding with [-1] and [replace(-1, None)]: the padded slots end up
    missing. *)
Definition pad (width : nat) (neigh : list nat) : list (option nat) :=
  (Some <$> neigh) ++ replicate (width - length neigh) None.

(** The neighbour frame of the delaunay method, from the simplices that
    [scipy.spatial.Delaunay] returned for [npoints] points. *)
Definition neighbours (npoints : nat) (simplices : list (list nat))
  : option (list (list (option nat))) :=
  d ← add_simplices (init_dict npoints) simplices;
  let nl := neighbours_list npoints d in
  width ← max_neigh_len nl;
  Some (pad width <$> nl).

(** A simplex as Delaunay returns it: distinct vertices, each a point. *)
Definition simplex_ok (npoints : nat) (s : list nat) : Prop :=
  NoDup s ∧ Forall (λ v, v < npoints) s.

#[global] Instance simplex_ok_dec npoints s : Decision (simplex_ok npoints s).
Proof. unfold simplex_ok. apply _. Defined.

(** Adjacency as the dictionary holds it is symmetric. *)
Definition symmetric (d : neighbours_dict) : Prop :=
  ∀ a b, b ∈ d !!! a ↔ a ∈ d !!! b.

(** Invariant of the dictionary: the keys are the points, no set holds
    its own key. *)
Definition irreflexive (npoints : nat) (d : neighbours_dict) : Prop :=
  ∀ k, (k < npoints → ∃ s, d !! k = Some s ∧ k ∉ s) ∧
       (npoints ≤ k → d !! k = None).

End Delaunay.

(** Coordinates: two or three rationals per cell. *)
Definition point : Type := list Q.

(** Squared Euclidean distance. *)
Definition dist2 (p q : point) : Q :=
  foldr Qplus 0%Q (zip_with (λ a b, (a - b) * (a - b))%Q p q).

(** Squared distance from the query point [q] to cell [j] of [pts]. *)
Definition dist_to (pts : list point) (q : point) (j : nat) : Q :=
  dist2 (pts !!! j) q.

#[global] Instance Qle_decision (x y : Q) : Decision (x <= y)%Q.
Proof. unfold Qle. apply _. Defined.

#[global] Instance Qlt_decision (x y : Q) : Decision (x < y)%Q.
Proof. unfold Qlt. apply _. Defined.

Module Knn.

(** What [BallTree(pts).query(q, k)] answers, as scikit-learn documents it:
    [k] distinct cells of [pts], nearest first, none farther from [q] than a
    cell left out. *)
Definition knn_answer (pts : list point) (q : point) (k : nat) (res : list nat) : Prop :=
  length res = k ∧ NoDup res ∧ Forall (λ j, j < length pts) res ∧
  StronglySorted (λ a b, dist_to pts q a <= dist_to pts q b)%Q res ∧
  Forall (λ j, j ∈ res ∨ Forall (λ j', dist_to pts q j' <= dist_to pts q j)%Q res)
         (seq 0 (length pts)).

#[global] Instance knn_answer_dec pts q k res : Decision (knn_answer pts q k res).
Proof. unfold knn_answer. apply _. Defined.

(** [tree.query(data, k=knn)]: one answer per cell. [None] is the
    [ValueError] of the tree, which refuses a table without cells and a [knn]
    above the number of cells. *)
Definition query (tree_query : list point → point → nat → list nat)
    (pts : list point) (knn : nat) : option (list (list nat)) :=
  if decide (pts ≠ [] ∧ knn ≤ length pts)
  then Some ((λ p, tree_query pts p knn) <$> pts)
  else None.

(** [neighbours.drop(0, axis=1)] on the frame of the answers, which has the
    columns [0 .. knn-1]. [None] is the [KeyError] raised when there is no
    column 0 to drop ([knn = 0]). *)
Definition drop_column0 (knn : nat) (ind : list (list nat))
  : option (list (list (option nat))) :=
  if decide (1 ≤ knn) then Some ((λ row : list nat, Some <$> drop 1 row) <$> ind)
  else None.

(** The knn branch as a whole: one tree query per cell, then
    [drop(0, axis=1)]; [None] when either step raises. *)
Definition neighbours (tree_query : list point → point → nat → list nat)
    (pts : list point) (knn : nat) : option (list (list (option nat))) :=
  ind ← query tree_query pts knn; drop_column0 knn ind.

(** An executable tree query: cells ordered by distance, ties by index. *)
Definition sorted_query (pts : list point) (q : point) (k : nat) : list nat :=
  take k (merge_sort (λ a b, dist_to pts q a <= dist_to pts q b)%Q (seq 0 (length pts))).

End Knn.

Module Radius.

(** An executable radius query, exact where the tree rounds: the cells
    within distance [r] of [q], inclusive (squared distance at most [r * r],
    for [r] not negative), listed by index. It stands for the tree in the
    worked examples, whose distances are exact in floating point. *)
Definition query_radius (pts : list point) (q : point) (r : Q) : list nat :=
  filter (λ j, 0 <= r ∧ dist_to pts q j <= r * r)%Q (seq 0 (length pts)).

(** [np.delete(ind[i], np.argwhere(ind[i] == i))] *)
Definition remove_self (i : nat) (ind : list nat) : list nat :=
  filter (λ j, j ≠ i) ind.

(** The frame of the radius branch on the exact query: self removed by
    index, the ragged rows padded with missing slots when the frame is
    built. *)
Definition neighbours (pts : list point) (r : Q) : list (list (option nat)) :=
  let ind := imap (λ i p, remove_self i (query_radius pts p r)) pts in
  Delaunay.pad (foldr Nat.max 0 (length <$> ind)) <$> ind.

(** The radius branch on the answers of the tree, [tree_query_radius pts q r]
    being what [BallTree(pts).query_radius(q, r)] returns for the cell at
    [q]: the tree compares distances as it computes them, in floating
    point. [None] is the [ValueError] of the tree, which refuses a table
    without cells. *)
Definition neighbours_from (tree_query_radius : list point → point → Q → list nat)
    (pts : list point) (r : Q) : option (list (list (option nat))) :=
  if decide (pts = []) then None
  else
    let ind := imap (λ i p, remove_self i (tree_query_radius pts p r)) pts in
    Some (Delaunay.pad (foldr Nat.max 0 (length <$> ind)) <$> ind).

End Radius.

(** ** Floats

    A float is an exact rational kept in lowest terms, or an IEEE special
    value. Every zero divisor of this program is a difference [x - x], a
    count or a standard deviation, hence +0: a non-zero value over zero is
    the infinity of the numerator's sign, zero over zero is NaN. *)

Inductive fval : Type := Fin (q : Q) | PInf | NInf | NaN.

#[global] Instance Qeq_decision (x y : Q) : Decision (x == y)%Q.
Proof. unfold Qeq. apply _. Defined.

#[global] Instance Q_eq_dec : EqDecision Q.
Proof. solve_decision. Defined.

#[global] Instance fval_eq_dec : EqDecision fval.
Proof. solve_decision. Defined.

Definition fin (q : Q) : fval := Fin (Qred q).

(** A count as a float. *)
Definition of_nat (c : nat) : fval := Fin (inject_Z (Z.of_nat c)).

(** The infinity with the sign of [q]; NaN when [q] is zero. *)
Definition inf_of_sign (q : Q) : fval :=
  if decide (0 < q)%Q then PInf else if decide (q < 0)%Q then NInf else NaN.

Definition fopp (x : fval) : fval :=
  match x with Fin q => fin (- q) | PInf => NInf | NInf => PInf | NaN => NaN end.

Definition fadd (x y : fval) : fval :=
  match x, y with
  | NaN, _ | _, NaN => NaN
  | Fin a, Fin b => fin (a + b)
  | PInf, NInf | NInf, PInf => NaN
  | PInf, _ | _, PInf => PInf
  | NInf, _ | _, NInf => NInf
  end.

Definition fsub (x y : fval) : fval := fadd x (fopp y).

Definition fmul (x y : fval) : fval :=
  match x, y with
  | NaN, _ | _, NaN => NaN
  | Fin a, Fin b => fin (a * b)
  | Fin a, PInf | PInf, Fin a => inf_of_sign a
  | Fin a, NInf | NInf, Fin a => inf_of_sign (- a)
  | PInf, PInf | NInf, NInf => PInf
  | PInf, NInf | NInf, PInf => NInf
  end.

Definition fdiv (x y : fval) : fval :=
  match x, y with
  | NaN, _ | _, NaN => NaN
  | Fin a, Fin b => if decide (b == 0)%Q then inf_of_sign a else fin (a / b)
  | Fin _, (PInf | NInf) => Fin 0
  | (PInf | NInf), (PInf | NInf) => NaN
  | PInf, Fin b => if decide (b < 0)%Q then NInf else PInf
  | NInf, Fin b => if decide (b < 0)%Q then PInf else NInf
  end.

Definition fabs (x : fval) : fval :=
  match x with Fin q => fin (Qabs q) | PInf | NInf => PInf | NaN => NaN end.

(** [x <= y]; false as soon as one side is NaN. *)
Definition fle (x y : fval) : bool :=
  match x, y with
  | NaN, _ | _, NaN => false
  | NInf, _ | _, PInf => true
  | Fin a, Fin b => bool_decide (a <= b)%Q
  | _, _ => false
  end.

(** [x >= y] *)
Definition fge (x y : fval) : bool := fle y x.

(** [x < y] *)
Definition flt (x y : fval) : bool :=
  match x, y with
  | NaN, _ | _, NaN => false
  | Fin a, Fin b => bool_decide (a < b)%Q
  | PInf, _ | _, NInf => false
  | _, _ => true
  end.

Definition isnan (x : fval) : bool := match x with NaN => true | _ => false end.

(** [fillna(0)] at one value. *)
Definition fillna0 (x : fval) : fval := if isnan x then Fin 0 else x.

(** The numeric library: the float square root (numpy) and the survival
    function of the standard normal distribution (scipy) on finite values. *)
Class SciFloat : Type := {
  sqrt_fin : Q → Q;
  norm_sf_fin : Q → Q;
}.

Definition fsqrt `{SciFloat} (x : fval) : fval :=
  match x with
  | Fin q => if decide (q < 0)%Q then NaN else fin (sqrt_fin q)
  | PInf => PInf
  | NInf | NaN => NaN
  end.

(** [scipy.stats.norm.sf] *)
Definition norm_sf `{SciFloat} (x : fval) : fval :=
  match x with
  | Fin q => fin (norm_sf_fin q)
  | PInf => Fin 0
  | NInf => Fin 1
  | NaN => NaN
  end.

(** *** Reductions of pandas, which skip NaN *)

Definition notna (l : list fval) : list fval := filter (λ x, isnan x = false) l.

Definition fmin2 (x y : fval) : fval := if fle x y then x else y.
Definition fmax2 (x y : fval) : fval := if fle x y then y else x.

(** [row.min()] *)
Definition nanmin (l : list fval) : fval :=
  match notna l with [] => NaN | x :: xs => foldl fmin2 x xs end.

(** [row.max()] *)
Definition nanmax (l : list fval) : fval :=
  match notna l with [] => NaN | x :: xs => foldl fmax2 x xs end.

Definition fsum (l : list fval) : fval := foldl fadd (Fin 0) l.

(** The mean of the values that are not NaN, in exact arithmetic: what
    [row.mean()] gives where its sum and its division are exact. *)
Definition nanmean (l : list fval) : fval :=
  let v := notna l in fdiv (fsum v) (of_nat (length v)).

(** The sample deviation ([ddof=1], pandas' default) of the values that
    are not NaN, in exact arithmetic: what [row.std()] gives where its sums
    and its division are exact. *)
Definition nanstd `{SciFloat} (l : list fval) : fval :=
  let v := notna l in
  if decide (length v ≤ 1) then NaN
  else
    let avg := nanmean l in
    let sqr := fsum ((λ x, fmul (fsub avg x) (fsub avg x)) <$> v) in
    fsqrt (fdiv sqr (of_nat (length v - 1))).

(** ** PhenotypeMapper *)

(** One row of the edge table [n], as [reset_index()] lays it out. *)
Record InteractionRow : Type := {
  index : nat;
  neighbour_phenotype : string;
  phenotype : string;
}.

#[global] Instance InteractionRow_eq_dec : EqDecision InteractionRow.
Proof. solve_decision. Defined.

(** [neighbours[i].dropna().map(phenomap, na_action='ignore')] on every
    column: a slot holding cell [j] becomes the phenotype of [j]. *)
Definition map_phenotypes (phen : list string) (neighbours : list (list (option nat)))
  : list (list (option string)) :=
  (λ row : list (option nat), (λ slot : option nat, j ← slot; phen !! j) <$> row) <$> neighbours.

(** [dropna(how='all')], [stack()] and the merge with the cell's own
    phenotype: one row per filled slot, cell by cell. *)
Definition stack_rows (phen : list string) (mapped : list (list (option string)))
  : list InteractionRow :=
  concat (imap (λ (i : nat) (row : list (option string)),
    omap (λ slot : option string, np ← slot; own ← phen !! i;
                  Some {| index := i; neighbour_phenotype := np; phenotype := own |})
         row) mapped).

Definition phenotype_mapper (phen : list string) (neighbours : list (list (option nat)))
  : list InteractionRow :=
  stack_rows phen (map_phenotypes phen neighbours).

(** ** Frames of counts *)

Definition string_le (a b : string) : Prop := String.leb a b = true.

#[global] Instance string_le_dec a b : Decision (string_le a b).
Proof. unfold string_le. apply _. Defined.

(** Sorted distinct values, as [np.unique] and the group keys are. *)
Definition np_unique (l : list string) : list string :=
  merge_sort string_le (remove_dups l).

(** [np.setdiff1d(a, b)] *)
Definition setdiff1d (a b : list string) : list string :=
  np_unique (filter (λ x, x ∉ b) a).

(** [drop_duplicates] on the columns [key], first occurrence kept. *)
Fixpoint drop_duplicates_seen {A K : Type} `{EqDecision K}
    (key : A → K) (seen : list K) (l : list A) : list A :=
  match l with
  | [] => []
  | x :: l' =>
      if decide (key x ∈ seen) then drop_duplicates_seen key seen l'
      else x :: drop_duplicates_seen key (key x :: seen) l'
  end.

Definition drop_duplicates {A K : Type} `{EqDecision K} (key : A → K) (l : list A) : list A :=
  drop_duplicates_seen key [] l.

(** [groupby(['phenotype','neighbour_phenotype']).size()] at the key [(i, j)]. *)
Definition pair_count (df : list InteractionRow) (i j : string) : nat :=
  length (filter (λ r, phenotype r = i ∧ neighbour_phenotype r = j) df).

(** The values of the (non-categorical) neighbour column: the columns that
    [unstack()] produces. *)
Definition neighbour_levels (df : list InteractionRow) : list string :=
  np_unique (neighbour_phenotype <$> df).

(** The row labels of [groupby([...], observed=False).size().unstack()]:
    every category of the phenotype column; a table without rows gives a
    frame without rows and without columns. *)
Definition frame_index (cats : list string) (df : list InteractionRow) : list string :=
  match df with
  | [] => []
  | _ :: _ => cats
  end.

(** [groupby([...], observed=False).size().unstack()]: one row per label of
    [frame_index], one column per neighbour level. *)
Definition size_unstack (cats : list string) (df : list InteractionRow) : list (list nat) :=
  (λ i : string, (λ j : string, pair_count df i j) <$> neighbour_levels df)
    <$> frame_index cats df.

(** [columns_to_add = dict.fromkeys(np.setdiff1d(k.index, k.columns), 0)] *)
Definition columns_to_add (cats : list string) (df : list InteractionRow) : list string :=
  setdiff1d (frame_index cats df) (neighbour_levels df).

(** Column labels of [k] after the columns of [columns_to_add] are assigned. *)
Definition square_columns (cats : list string) (df : list InteractionRow) : list string :=
  neighbour_levels df ++ columns_to_add cats df.

(** [k] after the zero columns are appended. *)
Definition k_square (cats : list string) (df : list InteractionRow) : list (list nat) :=
  (λ row : list nat, row ++ replicate (length (columns_to_add cats df)) 0) <$> size_unstack cats df.

(** [k.div(total_cell_count, axis=0)]: row [i] over the count of category [i]. *)
Definition div_rows (k : list (list nat)) (totals : list nat) : list (list fval) :=
  zip_with (λ (row : list nat) (t : nat), (λ c : nat, fdiv (of_nat c) (of_nat t)) <$> row) k totals.

(** [data_freq / normalization_factor], cell by cell (both frames carry the
    same labels). *)
Definition div_cells (num den : list (list nat)) : list (list fval) :=
  zip_with (zip_with (λ c d, fdiv (of_nat c) (of_nat d))) num den.

(** [.fillna(0).stack().values] *)
Definition flatten (m : list (list fval)) : list fval :=
  concat ((λ row : list fval, fillna0 <$> row) <$> m).

(** The index of a stacked frame: the (row, column) labels, row-major. *)
Definition stack_index (idx cols : list string) : list (string * string) :=
  concat ((λ i : string, (λ j : string, (i, j)) <$> cols) <$> idx).

(** [reset_index().drop_duplicates(subset=['index','phenotype'])
      .groupby('phenotype').size().reindex(k.index, fill_value=0)] at [i]:
    the cells of phenotype [i] that own at least one row of the table. *)
Definition cells_with_rows (df : list InteractionRow) (i : string) : nat :=
  length (filter (λ r, phenotype r = i)
            (drop_duplicates (λ r, (index r, phenotype r)) df)).

(** [data['phenotype'].value_counts()] at [i]: all cells of phenotype [i]. *)
Definition value_counts (phen : list string) (i : string) : nat :=
  length (filter (λ p, p = i) phen).

(** [data.assign(neighbour_phenotype=col)] *)
Definition assign_neighbour (df : list InteractionRow) (col : list string) : list InteractionRow :=
  zip_with (λ r p, {| index := index r; neighbour_phenotype := p; phenotype := phenotype r |})
           df col.

(** ** The random generator

    numpy's global generator: [np.random.seed] overwrites its state,
    [randint] and [permutation] read and advance it. *)
Class NumpyRandom : Type := {
  rng_state : Type;
  rng_seed : Z → rng_state;
  rng_randint : rng_state → Z → Z → nat → list Z * rng_state;
  rng_permutation : rng_state → list string → list string * rng_state;
}.

(** Computations over the generator's state. *)
Definition Rand `{NumpyRandom} (A : Type) : Type := rng_state → A * rng_state.

Definition rand_ret `{NumpyRandom} {A : Type} (a : A) : Rand A := λ st, (a, st).

Definition rand_bind `{NumpyRandom} {A B : Type} (m : Rand A) (f : A → Rand B) : Rand B :=
  λ st, let '(a, st') := m st in f a st'.

Notation "x ←ᵣ m ;; k" := (rand_bind m (λ x, k))
  (at level 20, m at level 99, k at level 200, only parsing).

Definition np_random_seed `{NumpyRandom} (seed : Z) : Rand unit :=
  λ _, (tt, rng_seed seed).

Definition np_random_randint `{NumpyRandom} (low high : Z) (size : nat) : Rand (list Z) :=
  λ st, rng_randint st low high size.

Definition np_random_permutation `{NumpyRandom} (x : list string) : Rand (list string) :=
  λ st, rng_permutation st x.

(** ** PermutationEngine *)

(** [permutation_pval(data, seed)] *)
Definition permutation_pval `{NumpyRandom} (cats : list string)
    (data : list InteractionRow) (seed : Z) : Rand (list fval) :=
  _ ←ᵣ np_random_seed seed ;;
  col ←ᵣ np_random_permutation (neighbour_phenotype <$> data) ;;
  let data := assign_neighbour data col in
  let k := k_square cats data in
  let total_cell_count := cells_with_rows data <$> frame_index cats data in
  let data_freq := div_rows k total_cell_count in
  rand_ret (flatten data_freq).

(** [permutation_pval_norm(data, seed)] *)
Definition permutation_pval_norm `{NumpyRandom} (cats : list string)
    (data : list InteractionRow) (seed : Z) : Rand (list fval) :=
  _ ←ᵣ np_random_seed seed ;;
  col ←ᵣ np_random_permutation (neighbour_phenotype <$> data) ;;
  let data := assign_neighbour data col in
  let data_freq := size_unstack cats data in
  let data := drop_duplicates (λ r, r) data in
  let normalization_factor := size_unstack cats data in
  let data_freq := div_cells data_freq normalization_factor in
  rand_ret (flatten data_freq).

(** ** FrequencyNormalizer: the observed frequencies *)

(** Lines 296-307: [n_freq] under total normalization. *)
Definition observed_total (cats phen : list string) (n : list InteractionRow) : list fval :=
  let k := k_square cats n in
  let total_cell_count := value_counts phen <$> cats in
  flatten (div_rows k total_cell_count).

(** [data_freq[mask] = np.nan] with [mask = normalization_factor < threshold]. *)
Definition mask_below (threshold : Z) (freq : list (list fval)) (factor : list (list nat))
  : list (list fval) :=
  zip_with (zip_with (λ x d, if decide (Z.of_nat d < threshold)%Z then NaN else x)) freq factor.

(** Lines 310-334: [n_freq] under conditional normalization. *)
Definition observed_conditional (cats : list string) (cond_counts_threshold : Z)
    (n : list InteractionRow) : list fval :=
  let data_freq := size_unstack cats n in
  let data := drop_duplicates (λ r, r) n in
  let normalization_factor := size_unstack cats data in
  let data_freq := div_cells data_freq normalization_factor in
  flatten (mask_below cond_counts_threshold data_freq normalization_factor).

(** ** SignificanceEvaluator *)

(** [perm = pd.DataFrame(final_scores).T]: one row per phenotype pair, one
    column per trial. *)
Definition transpose_scores (final_scores : list (list fval)) : list (list fval) :=
  let width := foldr Nat.max 0 (length <$> final_scores) in
  (λ r : nat, (λ t : list fval, default NaN (t !! r)) <$> final_scores) <$> seq 0 width.

(** [2 * (x - row_min) / (row_max - row_min) - 1] *)
Definition scale_value (x row_min row_max : fval) : fval :=
  fsub (fdiv (fmul (Fin 2) (fsub x row_min)) (fsub row_max row_min)) (Fin 1).

(** [perm.apply(lambda row: 2 * (row - row.min()) / (row.max() - row.min()) - 1, axis=1)] *)
Definition perm_scaled (perm : list (list fval)) : list (list fval) :=
  (λ row : list fval, (λ x : fval, scale_value x (nanmin row) (nanmax row)) <$> row) <$> perm.

(** *** The scaling loop of the observed vector (lines 342-349)

    [n_freq] and [n_freq_scaled] are names of Series objects; the loop
    rebinds [n_freq] to the object it is writing into, so the two names
    alias from the first iteration on. The store keeps the objects. *)

Record scale_state : Type := {
  store : gmap nat (list fval);
  n_freq_ref : nat;
  n_freq_scaled_ref : nat;
}.

(** [n_freq_scaled = n_freq.copy()]: a fresh object next to the original. *)
Definition scale_init (n_freq : list fval) : scale_state :=
  {| store := <[1 := n_freq]> {[0 := n_freq]};
     n_freq_ref := 0;
     n_freq_scaled_ref := 1 |}.

(** One iteration; [None] is the [IndexError] of an [iloc] out of range. *)
Definition scale_step (perm : list (list fval)) (s : scale_state) (i : nat)
  : option scale_state :=
  row ← perm !! i;
  let row_min := nanmin row in
  let row_max := nanmax row in
  src ← store s !! n_freq_ref s;
  x ← src !! i;
  dst ← store s !! n_freq_scaled_ref s;
  if decide (i < length dst) then
    Some {| store := <[n_freq_scaled_ref s := <[i := scale_value x row_min row_max]> dst]> (store s);
            n_freq_ref := n_freq_scaled_ref s;
            n_freq_scaled_ref := n_freq_scaled_ref s |}
  else None.

Fixpoint scale_loop (perm : list (list fval)) (s : scale_state) (range : list nat)
  : option scale_state :=
  match range with
  | [] => Some s
  | i :: rest => s' ← scale_step perm s i; scale_loop perm s' rest
  end.

(** The value of [n_freq] after the loop. *)
Definition scale_observed (perm : list (list fval)) (n_freq : list fval) : option (list fval) :=
  let s0 := scale_init n_freq in
  len ← length <$> (store s0 !! n_freq_scaled_ref s0);
  s ← scale_loop perm s0 (seq 0 len);
  store s !! n_freq_ref s.

(** The vector the scaling formula gives, pair by pair, from the original
    observed values and the rows of [perm]. *)
Definition scaled_by_formula (perm : list (list fval)) (n_freq : list fval) : list fval :=
  zip_with (λ (x : fval) (row : list fval), scale_value x (nanmin row) (nanmax row)) n_freq perm.

(** After [k] iterations the object behind [n_freq_scaled] holds the
    formula's value at the positions below [k] and the original value at
    the others; [n_freq] names the original object before the first
    iteration and the same object as [n_freq_scaled] afterwards. *)
Definition scale_inv (perm : list (list fval)) (n_freq : list fval)
    (k : nat) (s : scale_state) : Prop :=
  n_freq_scaled_ref s = 1 ∧
  store s !! 1 = Some (take k (scaled_by_formula perm n_freq) ++ drop k n_freq) ∧
  ((n_freq_ref s = 0 ∧ store s !! 0 = Some n_freq ∧ k = 0) ∨ n_freq_ref s = 1).

(** An operation between two vectors; [None] is the error numpy and pandas
    raise when the lengths differ. *)
Definition elementwise {A B C : Type} (f : A → B → C) (x : list A) (y : list B)
  : option (list C) :=
  if decide (length x = length y) then Some (zip_with f x y) else None.

(** Lines 355-358, [pval_method == 'abs']. *)
Definition p_values_abs (perm : list (list fval)) (n_freq : list fval) (permutation : nat)
  : option (list fval) :=
  exceed ← elementwise (λ (row : list fval) (x : fval),
                          length (filter (λ v, fge v x = true) row)) perm n_freq;
  Some (notna ((λ c : nat, fdiv (of_nat c) (of_nat (permutation + 1))) <$> exceed)).

(** Lines 361-362: the z-scores, NaN replaced by 0. *)
Definition z_scores_of (n_freq mean std : list fval) : option (list fval) :=
  d ← elementwise fsub n_freq mean;
  elementwise fdiv d std ≫= λ z : list fval, Some (fillna0 <$> z).

(** Lines 363-364. *)
Definition p_values_zscore `{SciFloat} (z_scores : list fval) : list fval :=
  notna ((λ z : fval, fmul (norm_sf (fabs z)) (Fin 2)) <$> z_scores).

(** Line 367. *)
Definition direction_of (n_freq mean : list fval) : option (list fval) :=
  elementwise fsub n_freq mean ≫= λ d : list fval,
  Some ((λ x : fval, if isnan (fdiv x (fabs x)) then Fin 1 else fdiv x (fabs x)) <$> d).

(** ** The per-image function *)

Inductive exn : Type :=
| NameError (name : string)
| KeyError
| ValueError
| IndexError.

(** The work the function has started, in order. *)
Inductive event : Type :=
| NeighbourGraph (method : string)
| SeedsDrawn
| Trial (i : nat)
| Observed.

Record world `{NumpyRandom} : Type := {
  global_rng : rng_state;
  trace : list event;
}.

Definition Run `{NumpyRandom} (A : Type) : Type := world → world * (exn + A).

Definition run_ret `{NumpyRandom} {A : Type} (a : A) : Run A := λ w, (w, inr a).

Definition run_bind `{NumpyRandom} {A B : Type} (m : Run A) (f : A → Run B) : Run B :=
  λ w, match m w with
       | (w', inl e) => (w', inl e)
       | (w', inr a) => f a w'
       end.

Notation "x ←ᵤ m ;; k" := (run_bind m (λ x, k))
  (at level 20, m at level 99, k at level 200, only parsing).

Notation "' pat ←ᵤ m ;; k" := (run_bind m (λ pat : _, k))
  (at level 20, pat pattern, m at level 99, k at level 200, only parsing).

Definition raise `{NumpyRandom} {A : Type} (e : exn) : Run A := λ w, (w, inl e).

Definition log `{NumpyRandom} (ev : event) : Run unit :=
  λ w, ({| global_rng := global_rng w; trace := trace w ++ [ev] |}, inr tt).

(** A library call that may raise. *)
Definition try_opt `{NumpyRandom} {A : Type} (e : exn) (o : option A) : Run A :=
  match o with Some a => run_ret a | None => raise e end.

(** A computation on the global generator of this process. *)
Definition on_global `{NumpyRandom} {A : Type} (m : Rand A) : Run A :=
  λ w, let '(a, st) := m (global_rng w) in
       ({| global_rng := st; trace := trace w |}, inr a).

(** Reading a local variable that no branch has bound. *)
Definition read_var `{NumpyRandom} {A : Type} (name : string) (v : option A) : Run A :=
  try_opt (NameError name) v.

Fixpoint run_for `{NumpyRandom} {A : Type} (range : list nat) (body : nat → Run A)
  : Run (list A) :=
  match range with
  | [] => run_ret []
  | i :: rest => a ←ᵤ body i ;; l ←ᵤ run_for rest body ;; run_ret (a :: l)
  end.

(** The libraries behind the per-image function: the tree queries of
    scikit-learn, the triangulation of scipy, and the row statistics of
    pandas ([perm.mean(axis=1)], [perm.std(axis=1)]), which sum and divide
    in floating point. *)
Class SpatialLibs : Type := {
  tree_query : list point → point → nat → list nat;
  delaunay_simplices : list point → option (list (list nat));
  tree_query_radius : list point → point → Q → list nat;
  row_mean : list fval → fval;
  row_std : list fval → fval;
}.

Record config : Type := {
  method : string;
  radius : Q;
  knn : nat;
  permutation : nat;
  cond_counts_threshold : Z;
  pval_method : string;
  normalization : string;
  scaling : bool;
}.

(** What the function returns. With a [pval_method] that is neither 'abs'
    nor 'zscore' the name [neighbours] still holds the mapped neighbour
    frame, and that is returned. *)
Inductive result : Type :=
| AbsTable (rows : list (string * string * fval * fval))
| ZscoreTable (rows : list (string * string * fval * fval * fval))
| NeighbourFrame (rows : list (nat * list (option string))).

(** [Parallel(n_jobs=-1)(delayed(trial)(data=n, seed=seeds[i]) for i in
    range(permutation))]: trial [i] runs on the generator of the worker it
    is sent to, whose state on arrival is [workers i]; the results come back
    in the order of [i]. *)
Definition parallel_trials `{NumpyRandom}
    (trial : list InteractionRow → Z → Rand (list fval))
    (workers : nat → rng_state) (n : list InteractionRow) (seeds : list Z)
    (permutation : nat) : Run (list (list fval)) :=
  run_for (seq 0 permutation) (λ i,
    seed ←ᵤ try_opt IndexError (seeds !! i) ;;
    _ ←ᵤ log (Trial i) ;;
    run_ret (trial n seed (workers i)).1).

(** Lines 239-242: [np.random.seed(42)] and
    [seeds = np.random.randint(0, 1e6, size=permutation)], on the generator
    of the calling process. *)
Definition draw_seeds `{NumpyRandom} (permutation : nat) : Run (list Z) :=
  _ ←ᵤ on_global (np_random_seed 42) ;;
  _ ←ᵤ log SeedsDrawn ;;
  on_global (np_random_randint 0 1000000 permutation).

(** [neighbours.dropna(how='all')], rows kept with their label. *)
Definition dropna_all (mapped : list (list (option string)))
  : list (nat * list (option string)) :=
  filter (λ r, ¬ Forall (λ slot, slot = None) r.2) (imap (λ i row, (i, row)) mapped).

Definition spatial_interaction_internal `{NumpyRandom} `{SciFloat} `{SpatialLibs}
    (cfg : config) (workers : nat → rng_state)
    (cats : list string) (coords : list point) (phen : list string) : Run result :=
  (* a) KNN method *)
  ind ←ᵤ (if decide (method cfg = "knn"%string) then
            _ ←ᵤ log (NeighbourGraph "knn") ;;
            ind ←ᵤ try_opt ValueError (Knn.query tree_query coords (knn cfg)) ;;
            nb ←ᵤ try_opt KeyError (Knn.drop_column0 (knn cfg) ind) ;;
            run_ret (Some nb)
          else run_ret None) ;;
  (* b) Local radius method *)
  ind ←ᵤ (if decide (method cfg = "radius"%string) then
            _ ←ᵤ log (NeighbourGraph "radius") ;;
            nb ←ᵤ try_opt ValueError
                    (Radius.neighbours_from tree_query_radius coords (radius cfg)) ;;
            run_ret (Some nb)
          else run_ret ind) ;;
  (* c) Delaunay triangulation method *)
  ind ←ᵤ (if decide (method cfg = "delaunay"%string) then
            _ ←ᵤ log (NeighbourGraph "delaunay") ;;
            simplices ←ᵤ try_opt ValueError (delaunay_simplices coords) ;;
            nb ←ᵤ try_opt KeyError (Delaunay.neighbours (length coords) simplices) ;;
            run_ret (Some nb)
          else run_ret ind) ;;
  (* Map Phenotypes to Neighbours *)
  neighbours ←ᵤ read_var "ind" ind ;;
  let mapped := map_phenotypes phen neighbours in
  let n := stack_rows phen mapped in
  (* Permutation *)
  seeds ←ᵤ draw_seeds (permutation cfg) ;;
  final_scores ←ᵤ (if decide (normalization cfg = "total"%string) then
                     fs ←ᵤ parallel_trials (permutation_pval cats) workers n seeds
                             (permutation cfg) ;;
                     run_ret (Some fs)
                   else run_ret None) ;;
  final_scores ←ᵤ (if decide (normalization cfg = "conditional"%string) then
                     fs ←ᵤ parallel_trials (permutation_pval_norm cats) workers n seeds
                             (permutation cfg) ;;
                     run_ret (Some fs)
                   else run_ret final_scores) ;;
  final_scores ←ᵤ read_var "final_scores" final_scores ;;
  let perm := transpose_scores final_scores in
  (* observed frequencies *)
  n_freq ←ᵤ (if decide (normalization cfg = "total"%string) then
               _ ←ᵤ log Observed ;;
               run_ret (Some (observed_total cats phen n,
                              stack_index cats (square_columns cats n)))
             else run_ret None) ;;
  n_freq ←ᵤ (if decide (normalization cfg = "conditional"%string) then
               _ ←ᵤ log Observed ;;
               run_ret (Some (observed_conditional cats (cond_counts_threshold cfg) n,
                              stack_index cats (neighbour_levels n)))
             else run_ret n_freq) ;;
  (* permutation with scaling *)
  '(mean, std, n_freq) ←ᵤ
     (if scaling cfg then
        let scaled := perm_scaled perm in
        '(values, labels) ←ᵤ read_var "n_freq" n_freq ;;
        values ←ᵤ try_opt IndexError (scale_observed perm values) ;;
        run_ret (row_mean <$> scaled, row_std <$> scaled, Some (values, labels))
      else run_ret (row_mean <$> perm, row_std <$> perm, n_freq)) ;;
  (* P-value calculation *)
  p_abs ←ᵤ (if decide (pval_method cfg = "abs"%string) then
              '(values, _) ←ᵤ read_var "n_freq" n_freq ;;
              p ←ᵤ try_opt ValueError (p_values_abs perm values (permutation cfg)) ;;
              run_ret (Some p)
            else run_ret None) ;;
  z_p ←ᵤ (if decide (pval_method cfg = "zscore"%string) then
            '(values, _) ←ᵤ read_var "n_freq" n_freq ;;
            z ←ᵤ try_opt ValueError (z_scores_of values mean std) ;;
            run_ret (Some (z, p_values_zscore z))
          else run_ret None) ;;
  (* Direction of interaction *)
  '(values, labels) ←ᵤ read_var "n_freq" n_freq ;;
  direction ←ᵤ try_opt ValueError (direction_of values mean) ;;
  (* the result frame *)
  if decide (pval_method cfg = "abs"%string) then
    p_values ←ᵤ read_var "p_values" p_abs ;;
    count ←ᵤ try_opt ValueError (elementwise fmul values direction) ;;
    rows ←ᵤ try_opt ValueError
      (r ← elementwise (λ c p, (c, p)) count p_values;
       elementwise (λ '(i, j) '(c, p), (i, j, c, p)) labels r) ;;
    run_ret (AbsTable rows)
  else if decide (pval_method cfg = "zscore"%string) then
    '(z_scores, p_values) ←ᵤ read_var "z_scores" z_p ;;
    rows ←ᵤ try_opt ValueError
      (r ← elementwise (λ z p, (z, p)) z_scores p_values;
       r ← elementwise (λ '(z, p) c, (z, p, c)) r values;
       elementwise (λ '(i, j) '(z, p, c), (i, j, z, p, c)) labels r) ;;
    run_ret (ZscoreTable rows)
  else run_ret (NeighbourFrame (dropna_all mapped)).

(** ** Instances for the worked examples *)

(** A generator whose state is a counter: seeding sets the counter,
    [permutation] rotates its argument by the counter. *)
Definition rotate_rng : NumpyRandom := {|
  rng_state := Z;
  rng_seed := λ seed, seed;
  rng_randint := λ st low high size,
    ((λ i : nat, (low + (st + Z.of_nat i) `mod` (high - low))%Z) <$> seq 0 size,
     (st + Z.of_nat size)%Z);
  rng_permutation := λ st x, (rotate (Z.to_nat st) x, (st + 1)%Z);
|}.

(** A generator whose [permutation] returns its argument unchanged. *)
Definition identity_rng : NumpyRandom := {|
  rng_state := Z;
  rng_seed := λ seed, seed;
  rng_randint := λ st low high size, (replicate size low, (st + 1)%Z);
  rng_permutation := λ st x, (x, (st + 1)%Z);
|}.

(** Stand-ins for the numeric functions, exact on the values used. *)
Definition toy_float : SciFloat := {|
  sqrt_fin := λ q, q;
  norm_sf_fin := λ q, (1 / (2 + q))%Q;
|}.

(** A tree that breaks ties by index and measures exactly; no
    triangulation; exact row statistics. *)
Definition toy_libs : SpatialLibs := {|
  tree_query := Knn.sorted_query;
  delaunay_simplices := λ _, None;
  tree_query_radius := Radius.query_radius;
  row_mean := nanmean;
  row_std := @nanstd toy_float;
|}.

(** ** Readings of the claims, for comparison with the code *)

(** The table a trial works on: the neighbour column shuffled under the
    trial's seed, the other columns as they are. *)
Definition shuffled `{NumpyRandom} (data : list InteractionRow) (seed : Z)
  : list InteractionRow :=
  assign_neighbour data (rng_permutation (rng_seed seed) (neighbour_phenotype <$> data)).1.

(** The distinct cells of phenotype [i] that own a row with neighbour
    phenotype [j]. *)
Definition distinct_cells (df : list InteractionRow) (i j : string) : nat :=
  length (remove_dups
            (index <$> filter (λ r, phenotype r = i ∧ neighbour_phenotype r = j) df)).

(** The conditional trial as C1 words it: counts of the shuffled table over
    the deduplicated counts of the unshuffled table. *)
Definition trial_over_unshuffled_factor `{NumpyRandom} (cats : list string)
    (data : list InteractionRow) (seed : Z) : list fval :=
  flatten (div_cells (size_unstack cats (shuffled data seed))
                     (size_unstack cats (drop_duplicates (λ r, r) data))).

(** ** Properties of runs *)

(** Whatever [m] returns satisfies [Q]. *)
Definition returns_only `{NumpyRandom} {A : Type} (m : Run A) (Q : A → Prop) : Prop :=
  ∀ w w' a, m w = (w', inr a) → Q a.

(** [m] adds to the trace only events of [allowed]. *)
Definition logs_only `{NumpyRandom} {A : Type} (allowed : event → Prop) (m : Run A) : Prop :=
  ∀ w, ∃ tr, trace (m w).1 = trace w ++ tr ∧ Forall allowed tr.

(** [m] raises, and has started no work but that of [allowed]. *)
Definition fails_after `{NumpyRandom} {A : Type} (allowed : event → Prop) (m : Run A) : Prop :=
  ∀ w, (∃ e, (m w).2 = inl e) ∧ ∃ tr, trace (m w).1 = trace w ++ tr ∧ Forall allowed tr.

(** The work an invalid [normalization] still allows. *)
Definition before_trials (cfg : config) (ev : event) : Prop :=
  ev = NeighbourGraph (method cfg) ∨ ev = SeedsDrawn.

(** ** Agreement of two runs *)

Definition any_world `{NumpyRandom} : world → world → Prop := λ _ _, True.

Definition same_rng `{NumpyRandom} : world → world → Prop :=
  λ w w', global_rng w = global_rng w'.

(** From worlds related by [pre], [m] and [m'] raise the same exception or
    return the same value, in worlds related by [post]. *)
Definition agree `{NumpyRandom} {A : Type} (pre post : world → world → Prop)
    (m m' : Run A) : Prop :=
  ∀ w w', pre w w' →
    match (m w).2, (m' w').2 with
    | inl e, inl e' => e = e'
    | inr a, inr a' => a = a' ∧ post (m w).1 (m' w').1
    | _, _ => False
    end.

(** The observed conditional frequency of the pair [(i, j)], read off lines
    313-334: the rows of the pair over the cells behind them, 0 when the
    cells are fewer than the threshold or when there is none. *)
Definition cond_value (threshold : Z) (df : list InteractionRow) (i j : string) : fval :=
  let cells := distinct_cells df i j in
  if decide (Z.of_nat cells < threshold)%Z then Fin 0
  else if decide (cells = 0) then Fin 0
  else Fin (Qred (inject_Z (Z.of_nat (pair_count df i j)) / inject_Z (Z.of_nat cells))).

(** Two positions of one simplex hold the vertices [x] and [y]. *)
Definition in_simplex (s : list nat) (x y : nat) : Prop :=
  ∃ p q, p ≠ q ∧ s !! p = Some x ∧ s !! q = Some y.

(** Some simplex of the triangulation holds [x] and [y] at two positions. *)
Definition share_simplex (simplices : list (list nat)) (x y : nat) : Prop :=
  ∃ s, s ∈ simplices ∧ in_simplex s x y.


(** From the world [w], [m] returns: a value [a] in a world [w'], with
    [Q w' a]. *)
Definition returns_with `{NumpyRandom} {A : Type} (m : Run A) (w : world)
    (Q : world → A → Prop) : Prop :=
  ∃ w' a, m w = (w', inr a) ∧ Q w' a.

(** Lines 150-212 bind [neighbours] to the frame [nb]: the configured
    method is one of the three, and the library calls behind it answer. *)
Definition graph_built `{SpatialLibs} (cfg : config) (coords : list point)
    (nb : list (list (option nat))) : Prop :=
  (method cfg = "knn"%string ∧ Knn.neighbours tree_query coords (knn cfg) = Some nb) ∨
  (method cfg = "radius"%string ∧
   Radius.neighbours_from tree_query_radius coords (radius cfg) = Some nb) ∨
  (method cfg = "delaunay"%string ∧
   ∃ simplices, delaunay_simplices coords = Some simplices ∧
                Delaunay.neighbours (length coords) simplices = Some nb).

(** The columns 'phenotype' and 'neighbour_phenotype' of the returned
    table. *)
Definition result_labels (r : result) : list (string * string) :=
  match r with
  | AbsTable rows => (λ '(i, j, _, _), (i, j)) <$> rows
  | ZscoreTable rows => (λ '(i, j, _, _, _), (i, j)) <$> rows
  | NeighbourFrame _ => []
  end.

(** The p-value column of the returned table. *)
Definition result_pvalues (r : result) : list fval :=
  match r with
  | AbsTable rows => (λ '(_, _, _, p), p) <$> rows
  | ZscoreTable rows => (λ '(_, _, _, p, _), p) <$> rows
  | NeighbourFrame _ => []
  end.

(** What [m] does from the world [w]: the world it ends in and the
    exception or the value it ends with satisfy [Q]. *)
Definition outcome `{NumpyRandom} {A : Type} (m : Run A) (w : world)
    (Q : world → exn + A → Prop) : Prop :=
  Q (m w).1 (m w).2.

(** From the world [w], [m] raises [e], in a world [w'] with [Q w']. *)
Definition raises_with `{NumpyRandom} {A : Type} (m : Run A) (w : world) (e : exn)
    (Q : world → Prop) : Prop :=
  ∃ w', m w = (w', inl e) ∧ Q w'.

(** The index of the table the function works on: the categories of the
    phenotype column against the columns of the count frame. *)
Definition table_index (cfg : config) (cats : list string) (n : list InteractionRow)
  : list (string * string) :=
  stack_index cats (if decide (normalization cfg = "total"%string)
                    then square_columns cats n else neighbour_levels n).

(** The events of a run that got past the observed frequencies. *)
Definition full_trace (cfg : config) : list event :=
  [NeighbourGraph (method cfg); SeedsDrawn] ++
  (Trial <$> seq 0 (permutation cfg)) ++ [Observed].

(** ** ImageOrchestrator: the split into images (lines 391-395)

    [adata.obs[imageid].unique()] lists the images in the order of their
    first cell; [adata[adata.obs[imageid] == i]] keeps the cells of image
    [i], in their order. *)
Definition adata_list {A : Type} (imageid : A → string) (subset : option string)
    (obs : list A) : list (list A) :=
  match subset with
  | Some s => [filter (λ c, imageid c = s) obs]
  | None => (λ i : string, filter (λ c, imageid c = i) obs)
              <$> drop_duplicates (λ x : string, x) (imageid <$> obs)
  end.
(** * Theorems *)


Section DelaunayFacts.
Import Delaunay.

Lemma init_dict_lookup (start len k : nat) :
  (list_to_map ((λ i, (i, ∅)) <$> seq start len) : neighbours_dict) !! k =
  if decide (start ≤ k < start + len) then Some ∅ else None.
Proof.
  revert start; induction len as [|len IH]; intros start; simpl.
  - rewrite lookup_empty. destruct (decide _); [lia | done].
  - destruct (decide (start = k)) as [->|Hne].
    + rewrite lookup_insert_eq. destruct (decide _); [done | lia].
    + rewrite lookup_insert_ne by done. rewrite IH.
      repeat destruct (decide _); (done || lia).
Qed.

Lemma init_dict_irreflexive (npoints : nat) : irreflexive npoints (init_dict npoints).
Proof.
  intros k; unfold init_dict; rewrite init_dict_lookup; split; intros Hk.
  - destruct (decide _); [|lia]. exists ∅. split; [done | set_solver].
  - destruct (decide _); [lia | done].
Qed.

Lemma dict_add_irreflexive (npoints : nat) (d : neighbours_dict) (a b : nat) :
  irreflexive npoints d → a < npoints → a ≠ b →
  ∃ d', dict_add d a b = Some d' ∧ irreflexive npoints d'.
Proof.
  intros Hd Ha Hab. destruct (Hd a) as [Hin _].
  destruct (Hin Ha) as (s & Hs & Hns).
  exists (<[a := s ∪ {[b]}]> d). split.
  - unfold dict_add. rewrite Hs. done.
  - intros k; split; intros Hk.
    + destruct (decide (a = k)) as [->|Hne].
      * rewrite lookup_insert_eq. eexists; split; [done|].
        rewrite elem_of_union, elem_of_singleton. intros [?|?]; [done | lia].
      * rewrite lookup_insert_ne by done. by apply Hd.
    + rewrite lookup_insert_ne by lia. by apply Hd.
Qed.

Lemma add_edge_irreflexive (npoints : nat) (d : neighbours_dict) (a b : nat) :
  irreflexive npoints d → a < npoints → b < npoints → a ≠ b →
  ∃ d', add_edge d a b = Some d' ∧ irreflexive npoints d'.
Proof.
  intros Hd Ha Hb Hab.
  destruct (dict_add_irreflexive npoints d a b Hd Ha Hab) as (d1 & E1 & H1).
  destruct (dict_add_irreflexive npoints d1 b a H1 Hb (not_eq_sym Hab)) as (d2 & E2 & H2).
  exists d2. unfold add_edge. rewrite E1. simpl. done.
Qed.

Lemma add_from_irreflexive (npoints : nat) (ys : list nat) (d : neighbours_dict) (x : nat) :
  irreflexive npoints d → x < npoints → x ∉ ys → Forall (λ v, v < npoints) ys →
  ∃ d', add_from d x ys = Some d' ∧ irreflexive npoints d'.
Proof.
  revert d; induction ys as [|y ys IH]; intros d Hd Hx Hnin Hall; simpl.
  - eauto.
  - apply Forall_cons in Hall as [Hy Hall]. apply not_elem_of_cons in Hnin as [Hxy Hnin].
    destruct (add_edge_irreflexive npoints d x y Hd Hx Hy Hxy) as (d1 & E1 & H1).
    rewrite E1. simpl. by apply IH.
Qed.

Lemma add_simplex_irreflexive (npoints : nat) (s : list nat) (d : neighbours_dict) :
  irreflexive npoints d → simplex_ok npoints s →
  ∃ d', add_simplex d s = Some d' ∧ irreflexive npoints d'.
Proof.
  revert d; induction s as [|x s IH]; intros d Hd [Hnd Hall]; simpl.
  - eauto.
  - apply NoDup_cons in Hnd as [Hx Hnd]. apply Forall_cons in Hall as [Hlt Hall].
    destruct (add_from_irreflexive npoints s d x Hd Hlt Hx Hall) as (d1 & E1 & H1).
    rewrite E1. simpl. apply IH; [done | by split].
Qed.

Lemma add_simplices_irreflexive (npoints : nat) (ss : list (list nat)) (d : neighbours_dict) :
  irreflexive npoints d → Forall (simplex_ok npoints) ss →
  ∃ d', add_simplices d ss = Some d' ∧ irreflexive npoints d'.
Proof.
  revert d; induction ss as [|s ss IH]; intros d Hd Hall; simpl.
  - eauto.
  - apply Forall_cons in Hall as [Hs Hall].
    destruct (add_simplex_irreflexive npoints s d Hd Hs) as (d1 & E1 & H1).
    rewrite E1. simpl. by apply IH.
Qed.

Lemma pad_elem (width : nat) (neigh : list nat) (i : nat) :
  Some i ∈ pad width neigh → i ∈ neigh.
Proof.
  unfold pad. rewrite elem_of_app. intros [H|H].
  - apply list_elem_of_fmap in H as (j & [= ->] & Hj). done.
  - apply elem_of_replicate in H as [? _]. done.
Qed.

(** C10. With the delaunay method, for at least one point and simplices of
    distinct vertices, the neighbour frame is built (no [KeyError]) with one
    row per point, and no row holds its own cell index:
    each insertion pairs two different positions of one simplex, whose
    vertices are distinct. *)
Theorem delaunay_no_self_neighbour (npoints : nat) (simplices : list (list nat)) :
  0 < npoints → Forall (simplex_ok npoints) simplices →
  ∃ nb, neighbours npoints simplices = Some nb ∧
        length nb = npoints ∧
        ∀ i row, nb !! i = Some row → Some i ∉ row.
Proof.
  intros Hpos Hall.
  destruct (add_simplices_irreflexive npoints simplices _
              (init_dict_irreflexive npoints) Hall) as (d & E & Hd).
  unfold neighbours. rewrite E. simpl.
  destruct (max_neigh_len (neighbours_list npoints d)) as [width|] eqn:Ew.
  2:{ unfold max_neigh_len, neighbours_list in Ew.
      destruct npoints; [lia | done]. }
  simpl. eexists; split; [done|]. split.
  - unfold neighbours_list. rewrite !length_fmap. apply length_seq.
  - intros i row Hrow Hin.
    rewrite list_lookup_fmap in Hrow.
    unfold neighbours_list in Hrow. rewrite list_lookup_fmap in Hrow.
    destruct (seq 0 npoints !! i) as [j|] eqn:Hj; [|done].
    apply lookup_seq in Hj as [-> Hlt]. simpl in Hrow.
    injection Hrow as <-. apply pad_elem in Hin.
    apply elem_of_elements in Hin.
    destruct (Hd i) as [Hin' _]. destruct (Hin' Hlt) as (s & Hs & Hns).
    rewrite lookup_total_alt, Hs in Hin. done.
Qed.

End DelaunayFacts.

(** A triangulation of four points into two triangles. *)
Lemma delaunay_no_self_neighbour_witness :
  ∃ nb, Delaunay.neighbours 4 [[0; 1; 2]; [1; 2; 3]] = Some nb ∧
        length nb = 4 ∧ ∀ i row, nb !! i = Some row → Some i ∉ row.
Proof.
  apply (delaunay_no_self_neighbour 4 [[0; 1; 2]; [1; 2; 3]]).
  - lia.
  - by apply (bool_decide_unpack _).
Defined.

Section KnnFacts.
Import Knn.

Lemma dist2_self (p : point) : (dist2 p p == 0)%Q.
Proof.
  unfold dist2. induction p as [|a p IH]; simpl; [reflexivity|].
  rewrite IH. ring.
Qed.

Context (tree_query : list point → point → nat → list nat).

(** A cell at distance 0 of the query which no other cell shares comes
    first in a lawful answer. *)
Lemma knn_answer_head (pts : list point) (p : point) (k i : nat) (res : list nat) :
  1 ≤ k → pts !! i = Some p →
  (∀ j, j < length pts → j ≠ i → (0 < dist_to pts p j)%Q) →
  knn_answer pts p k res →
  ∃ rest, res = (i :: rest) ∧ (i ∉ rest) ∧ length rest = k - 1.
Proof.
  intros Hk Hi Hfar (Hlen & Hnd & Hrange & Hsort & Hnear).
  assert (Hii : (dist_to pts p i == 0)%Q).
  { unfold dist_to. rewrite (list_lookup_total_correct _ _ _ Hi). apply dist2_self. }
  assert (Hilt : i < length pts) by (by eapply lookup_lt_Some).
  destruct res as [|h rest]; [simpl in Hlen; lia|].
  assert (Hh : h = i).
  { destruct (decide (h = i)) as [|Hne]; [done|]. exfalso.
    apply Forall_cons in Hrange as [Hhlt _].
    specialize (Hfar h Hhlt Hne).
    assert (Hle : (dist_to pts p h <= dist_to pts p i)%Q).
    { rewrite Forall_forall in Hnear.
      destruct (Hnear i) as [Hin|Hall].
      - apply elem_of_seq. lia.
      - apply elem_of_cons in Hin as [->|Hin]; [done|].
        apply StronglySorted_inv in Hsort as [_ Hhd].
        rewrite Forall_forall in Hhd. by apply Hhd.
      - apply Forall_cons in Hall as [? _]. done. }
    rewrite Hii in Hle. apply (Qlt_not_le _ _ Hfar Hle). }
  subst h. apply NoDup_cons in Hnd as [Hnin _].
  exists rest. simpl in Hlen. repeat split; [done | lia].
Qed.

(** The knn branch builds its frame exactly when [1 <= knn <= number of
    cells]: the answers of the tree without their first entry. *)
Lemma knn_neighbours_built (pts : list point) (knn : nat) :
  neighbours tree_query pts knn =
  if decide (1 ≤ knn ≤ length pts)
  then Some ((λ p, Some <$> drop 1 (tree_query pts p knn)) <$> pts)
  else None.
Proof.
  unfold neighbours, query, drop_column0.
  destruct (decide (1 ≤ knn ≤ length pts)) as [[H1 H2]|Hn].
  - rewrite decide_True by (split; [intros ->; simpl in H2; lia | done]).
    cbn [mbind option_bind]. rewrite decide_True by done.
    by rewrite <- list_fmap_compose.
  - destruct (decide (pts ≠ [] ∧ knn ≤ length pts)) as [[Hne Hle]|]; [|done].
    cbn [mbind option_bind]. rewrite decide_False; [done | lia].
Qed.

(** X19. Away from ties the knn branch does what its comment says. With
    [1 <= knn <= number of cells] the neighbour frame is built and every row
    has exactly [knn - 1] entries; when the tree answers as documented, the
    row of a cell whose coordinates no other cell shares does not hold the
    cell's own index. *)
Theorem knn_neighbours_exclude_self (pts : list point) (knn i : nat) (p : point) :
  1 ≤ knn ≤ length pts → pts !! i = Some p →
  knn_answer pts p knn (tree_query pts p knn) →
  ∃ rows row, neighbours tree_query pts knn = Some rows ∧
              rows !! i = Some row ∧ length row = knn - 1 ∧
              ((∀ j, j < length pts → j ≠ i → (0 < dist_to pts p j)%Q) → Some i ∉ row).
Proof.
  intros Hk Hi Hans.
  rewrite knn_neighbours_built, decide_True by done.
  eexists _, (Some <$> drop 1 (tree_query pts p knn)). split; [done|]. split; [|split].
  - by rewrite list_lookup_fmap, Hi.
  - destruct Hans as (Hlen & _). rewrite length_fmap, length_drop. lia.
  - intros Hfar.
    destruct (knn_answer_head pts p knn i _ (proj1 Hk) Hi Hfar Hans) as (rest & E & Hnin & _).
    rewrite E. simpl. rewrite drop_0.
    intros Hin. apply list_elem_of_fmap in Hin as (j & [= ->] & Hj). done.
Qed.

End KnnFacts.

(** Three cells at distinct places, [knn = 2]. *)
Lemma knn_neighbours_exclude_self_witness :
  ∃ rows row, Knn.neighbours Knn.sorted_query [[0; 0]; [3; 0]; [0; 1]]%Q 2 = Some rows ∧
              rows !! 0 = Some row ∧ length row = 2 - 1 ∧ Some 0 ∉ row.
Proof.
  destruct (knn_neighbours_exclude_self Knn.sorted_query [[0; 0]; [3; 0]; [0; 1]]%Q 2 0 [0; 0]%Q)
    as (rows & row & Hrows & Hrow & Hlen & Hself).
  - simpl; lia.
  - reflexivity.
  - by apply (bool_decide_unpack _).
  - exists rows, row. repeat split; try done. apply Hself.
    intros j Hj Hne. simpl in Hj.
    destruct j as [|[|[|j]]]; [done | by vm_compute | by vm_compute | lia].
Defined.

(** C8, at an input where the code departs from it and from its own
    comment ('Remove self neighbour'): two cells at the same coordinates and
    a third one elsewhere, [knn = 2]. Line 160 drops column 0 of the tree's
    answer, not the cell's own index as the radius branch does. The two
    cells at one place get the same answer, so whichever of them the tree
    lists first, the other one keeps its own index as its neighbour and
    loses the cell it shares its place with: no tree that answers as
    documented gives a frame without a self neighbour. *)
Lemma knn_self_neighbour_counterexample :
  let pts := [[0; 0]; [0; 0]; [5; 5]]%Q in
  ¬ ∃ tree_query,
      Knn.knn_answer pts [0; 0]%Q 2 (tree_query pts [0; 0]%Q 2) ∧
      ∃ rows, Knn.neighbours tree_query pts 2 = Some rows ∧
              ∀ i row, rows !! i = Some row → Some i ∉ row.
Proof.
  intros pts (tq & (Hlen & Hnd & Hrange & _ & Hnear) & rows & Hrows & Hself).
  rewrite knn_neighbours_built, decide_True in Hrows by (simpl; lia).
  injection Hrows as <-. subst pts. cbn [fmap list_fmap] in Hself.
  destruct (tq _ _ _) as [|a [|b [|c res]]]; try (simpl in Hlen; lia).
  pose proof (Hself 0 _ eq_refl) as H0. pose proof (Hself 1 _ eq_refl) as H1.
  simpl in H0, H1. rewrite list_elem_of_singleton in H0, H1.
  assert (Hb : b ≠ 0 ∧ b ≠ 1) by (split; congruence).
  apply Forall_cons in Hrange as [Ha Hrange]. apply Forall_cons in Hrange as [Hb2 _].
  simpl in Ha, Hb2. assert (b = 2) as -> by lia.
  apply NoDup_cons in Hnd as [Hab _]. rewrite list_elem_of_singleton in Hab.
  assert (Hmiss : ∃ j, j < 2 ∧ j ∉ [a; 2]).
  { destruct (decide (a = 0)) as [->|?].
    - exists 1. split; [lia|]. rewrite !elem_of_cons, elem_of_nil. lia.
    - exists 0. split; [lia|]. rewrite !elem_of_cons, elem_of_nil. lia. }
  destruct Hmiss as (j & Hj & Hnin).
  rewrite Forall_forall in Hnear. destruct (Hnear j) as [?|Hall]; [apply elem_of_seq; simpl; lia | done |].
  apply Forall_cons in Hall as [_ Hall]. apply Forall_cons in Hall as [Hle _].
  destruct j as [|[|j]]; [| |lia]; vm_compute in Hle; by apply Hle.
Qed.

Section ScalingLoop.

Context (perm : list (list fval)) (n_freq : list fval).

Lemma scale_inv_init : scale_inv perm n_freq 0 (scale_init n_freq).
Proof.
  unfold scale_inv, scale_init; simpl. split; [done|]. split.
  - by rewrite lookup_insert_eq.
  - left. split; [done|]. split; [|done].
    rewrite lookup_insert_ne by done. by rewrite lookup_singleton_eq.
Qed.

Hypothesis Hlen : length perm = length n_freq.

Lemma scaled_by_formula_length : length (scaled_by_formula perm n_freq) = length n_freq.
Proof. unfold scaled_by_formula. rewrite length_zip_with. lia. Qed.

Lemma scale_inv_read (k : nat) (s : scale_state) (x : fval) :
  scale_inv perm n_freq k s → n_freq !! k = Some x →
  ∃ src, store s !! n_freq_ref s = Some src ∧ src !! k = Some x.
Proof.
  intros (_ & H1 & [(-> & H0 & ->) | ->]) Hx.
  - eauto.
  - eexists; split; [done|].
    pose proof (lookup_lt_Some _ _ _ Hx) as Hk.
    rewrite lookup_app_r by (rewrite length_take; lia).
    rewrite length_take, scaled_by_formula_length.
    replace (k - k `min` length n_freq) with 0 by lia.
    rewrite lookup_drop. by rewrite Nat.add_0_r.
Qed.

Lemma scale_step_inv (k : nat) (s : scale_state) :
  scale_inv perm n_freq k s → k < length n_freq →
  ∃ s', scale_step perm s k = Some s' ∧ scale_inv perm n_freq (S k) s'.
Proof.
  intros Hinv Hk.
  destruct (lookup_lt_is_Some_2 perm k) as [row Hrow]; [lia|].
  destruct (lookup_lt_is_Some_2 n_freq k) as [x Hx]; [lia|].
  destruct (scale_inv_read k s x Hinv Hx) as (src & Hsrc & Hsx).
  destruct Hinv as (Hsc & H1 & Href).
  assert (Ht : scaled_by_formula perm n_freq !! k = Some (scale_value x (nanmin row) (nanmax row))).
  { unfold scaled_by_formula. rewrite lookup_zip_with, Hx. simpl. by rewrite Hrow. }
  unfold scale_step. rewrite Hrow. simpl. rewrite Hsrc. simpl. rewrite Hsx. simpl.
  rewrite Hsc, H1. simpl.
  rewrite decide_True.
  2:{ rewrite length_app, length_take, length_drop, scaled_by_formula_length. lia. }
  eexists; split; [done|]. unfold scale_inv; simpl. split; [done|]. split; [|by right].
  rewrite lookup_insert_eq. f_equal.
  rewrite insert_app_r_alt by (rewrite length_take; lia).
  rewrite length_take, scaled_by_formula_length.
  replace (k - k `min` length n_freq) with 0 by lia.
  rewrite (drop_S _ _ _ Hx). simpl.
  rewrite (take_S_r _ _ _ Ht). by rewrite <- app_assoc.
Qed.

Lemma scale_loop_inv (m k : nat) (s : scale_state) :
  scale_inv perm n_freq k s → k + m = length n_freq →
  ∃ s', scale_loop perm s (seq k m) = Some s' ∧ scale_inv perm n_freq (k + m) s'.
Proof.
  revert k s; induction m as [|m IH]; intros k s Hinv Hkm; simpl.
  - rewrite Nat.add_0_r. eauto.
  - destruct (scale_step_inv k s Hinv) as (s1 & E1 & H1); [lia|].
    rewrite E1. simpl. replace (k + S m) with (S k + m) by lia.
    apply IH; [done | lia].
Qed.


End ScalingLoop.


Section ZScores.

Context `{SciFloat}.


Lemma fillna0_notnan (x : fval) : isnan (fillna0 x) = false.
Proof. by destruct x. Qed.

Lemma pvalue_of_z_notnan (z : fval) :
  isnan z = false → isnan (fmul (norm_sf (fabs z)) (Fin 2)) = false.
Proof. by destruct z. Qed.

Lemma notna_id (l : list fval) : Forall (λ v, isnan v = false) l → notna l = l.
Proof.
  unfold notna. induction 1 as [|x l Hx _ IH]; [done|].
  rewrite filter_cons_True by done. by rewrite IH.
Qed.


End ZScores.



(** C3, at an input where the code departs from it: cells A, A, B, the
    second one isolated, radius method, total normalization, three trials,
    [pval_method = 'abs'] and scaling enabled. For the pair (A, B) the trials
    give 1, 0, 1 and the observed frequency is 1/2, scaled to 0. The scaled
    trials of the row (1, -1, 1) are never compared: the code counts the
    unscaled trials that reach the scaled observed value (all three, 3/4),
    where trial and observed value scaled alike give two of three (2/4). *)
Lemma abs_pvalue_scaling_mismatch :
  let cfg := {| method := "radius"; radius := 30; knn := 2; permutation := 3;
                cond_counts_threshold := 5; pval_method := "abs";
                normalization := "total"; scaling := true |} in
  let coords := [[0; 0]; [100; 100]; [1; 0]]%Q in
  let phen := ["A"; "A"; "B"]%string in
  let cats := ["A"; "B"]%string in
  let n := phenotype_mapper phen (Radius.neighbours coords 30) in
  let w := @Build_world rotate_rng 0%Z [] in
  let perm := [[Fin 0; Fin 1; Fin 0]; [Fin 1; Fin 0; Fin 1];
               [Fin 1; Fin 0; Fin 1]; [Fin 0; Fin 1; Fin 0]] in
  let observed := [Fin 0; Fin (1 # 2); Fin 1; Fin 0] in
  let scaled := [Fin (-1); Fin 0; Fin 1; Fin (-1)] in
  (@parallel_trials rotate_rng (permutation_pval cats) (λ _, 0%Z) n
     [42; 43; 44]%Z 3 w).2 = inr (transpose_scores perm) ∧
  observed_total cats phen n = observed ∧
  scale_observed perm observed = Some scaled ∧
  (@spatial_interaction_internal rotate_rng toy_float toy_libs cfg (λ _, 0%Z)
     cats coords phen w).2 =
  inr (AbsTable [("A", "A", Fin 1, Fin (3 # 4)); ("A", "B", Fin 0, Fin (3 # 4));
                 ("B", "A", Fin 1, Fin (1 # 2)); ("B", "B", Fin 1, Fin (3 # 4))]%string) ∧
  p_values_abs perm scaled 3 = Some [Fin (3 # 4); Fin (3 # 4); Fin (1 # 2); Fin (3 # 4)] ∧
  p_values_abs (perm_scaled perm) scaled 3 =
    Some [Fin (3 # 4); Fin (1 # 2); Fin (1 # 2); Fin (3 # 4)].
Proof. vm_compute. done. Qed.

(** ** Facts on the frames of counts *)

Section FrameFacts.

Lemma string_compare_le_trans (a b c : string) :
  (a ?= b)%string ≠ Gt → (b ?= c)%string ≠ Gt → (a ?= c)%string ≠ Gt.
Proof.
  revert b c; induction a as [|ca a IH]; intros [|cb b] [|cc c]; simpl; try done.
  unfold Ascii.compare.
  destruct (N.compare_spec (Ascii.N_of_ascii ca) (Ascii.N_of_ascii cb));
    destruct (N.compare_spec (Ascii.N_of_ascii cb) (Ascii.N_of_ascii cc));
    destruct (N.compare_spec (Ascii.N_of_ascii ca) (Ascii.N_of_ascii cc));
    try done; try lia.
  apply IH.
Qed.

#[local] Instance string_le_trans : Transitive string_le.
Proof.
  intros a b c. unfold string_le, String.leb. intros Hab Hbc.
  pose proof (string_compare_le_trans a b c) as Ht.
  destruct (a ?= b)%string, (b ?= c)%string, (a ?= c)%string; try done;
    exfalso; by apply Ht.
Qed.

#[local] Instance string_le_antisym : AntiSymm eq string_le.
Proof. intros a b. apply String.leb_antisym. Qed.

#[local] Instance string_le_total : Total string_le.
Proof. intros a b. apply String.leb_total. Qed.

Lemma np_unique_elem (l : list string) (x : string) : x ∈ np_unique l ↔ x ∈ l.
Proof. unfold np_unique. by rewrite merge_sort_Permutation, elem_of_remove_dups. Qed.

Lemma np_unique_NoDup (l : list string) : NoDup (np_unique l).
Proof. unfold np_unique. rewrite merge_sort_Permutation. apply NoDup_remove_dups. Qed.

(** The sorted distinct values depend on the set of values only. *)
Lemma np_unique_ext (l1 l2 : list string) :
  (∀ x, x ∈ l1 ↔ x ∈ l2) → np_unique l1 = np_unique l2.
Proof.
  intros Hext. unfold np_unique.
  apply (Sorted_unique string_le); try apply Sorted_merge_sort; try apply _.
  rewrite !merge_sort_Permutation.
  apply NoDup_Permutation; try apply NoDup_remove_dups.
  intros x. by rewrite !elem_of_remove_dups.
Qed.

Context {A : Type} `{EqDecision A}.

Lemma drop_duplicates_seen_elem (seen l : list A) (x : A) :
  x ∈ drop_duplicates_seen (λ r, r) seen l ↔ x ∈ l ∧ x ∉ seen.
Proof.
  revert seen; induction l as [|y l IH]; intros seen; simpl.
  - rewrite elem_of_nil. tauto.
  - destruct (decide (y ∈ seen)) as [Hin|Hnin].
    + rewrite IH, elem_of_cons. split; [tauto|].
      intros [[->|?] ?]; tauto.
    + rewrite elem_of_cons, IH, !elem_of_cons. split.
      * intros [->|[? ?]]; tauto.
      * intros [[->|?] ?]; [tauto|].
        destruct (decide (x = y)); tauto.
Qed.

Lemma drop_duplicates_seen_NoDup (seen l : list A) :
  NoDup (drop_duplicates_seen (λ r, r) seen l).
Proof.
  revert seen; induction l as [|y l IH]; intros seen; simpl.
  - constructor.
  - destruct (decide (y ∈ seen)); [apply IH|].
    constructor; [|apply IH].
    rewrite drop_duplicates_seen_elem, elem_of_cons. tauto.
Qed.

Lemma drop_duplicates_elem (l : list A) (x : A) :
  x ∈ drop_duplicates (λ r, r) l ↔ x ∈ l.
Proof.
  unfold drop_duplicates. rewrite drop_duplicates_seen_elem, elem_of_nil. tauto.
Qed.

Lemma drop_duplicates_NoDup (l : list A) : NoDup (drop_duplicates (λ r, r) l).
Proof. apply drop_duplicates_seen_NoDup. Qed.

End FrameFacts.

Section ConditionalTrial.

Context `{NumpyRandom}.

Lemma neighbour_levels_drop_duplicates (df : list InteractionRow) :
  neighbour_levels (drop_duplicates (λ r, r) df) = neighbour_levels df.
Proof.
  unfold neighbour_levels. apply np_unique_ext. intros x.
  rewrite !list_elem_of_fmap.
  split; intros (r & -> & Hr); exists r; (split; [done|]).
  - by rewrite drop_duplicates_elem in Hr.
  - by rewrite drop_duplicates_elem.
Qed.

(** Counting the deduplicated rows of a pair counts the cells behind them. *)
Lemma pair_count_drop_duplicates (df : list InteractionRow) (i j : string) :
  pair_count (drop_duplicates (λ r, r) df) i j = distinct_cells df i j.
Proof.
  unfold pair_count, distinct_cells.
  set (P := λ r : InteractionRow, phenotype r = i ∧ neighbour_phenotype r = j).
  rewrite <- (length_fmap index (filter P (drop_duplicates (λ r, r) df))).
  apply Permutation_length, NoDup_Permutation.
  - apply NoDup_fmap_2_strong.
    + intros [a1 n1 p1] [a2 n2 p2] H1 H2 Heq.
      apply list_elem_of_filter in H1 as [[? ?] _].
      apply list_elem_of_filter in H2 as [[? ?] _].
      simpl in *. congruence.
    + apply NoDup_filter, drop_duplicates_NoDup.
  - apply NoDup_remove_dups.
  - intros a. rewrite elem_of_remove_dups, !list_elem_of_fmap.
    split; intros (r & -> & Hr); exists r; (split; [done|]);
      apply list_elem_of_filter in Hr as [HP Hr]; apply list_elem_of_filter;
      (split; [done|]).
    + by rewrite drop_duplicates_elem in Hr.
    + by rewrite drop_duplicates_elem.
Qed.

(** Dropping duplicates leaves a table with rows a table with rows. *)
Lemma frame_index_drop_duplicates (cats : list string) (df : list InteractionRow) :
  frame_index cats (drop_duplicates (λ r, r) df) = frame_index cats df.
Proof.
  destruct df as [|r df]; [done|]. unfold drop_duplicates. simpl.
  destruct (decide (r ∈ [])) as [Hin|_]; [by apply elem_of_nil in Hin | done].
Qed.

(** A table without rows has no neighbour level, so its frame flattens to
    nothing whatever row labels it is given. *)
Lemma flatten_frame_index (cats : list string) (df : list InteractionRow)
    (f : string → string → fval) :
  flatten ((λ i : string, f i <$> neighbour_levels df) <$> frame_index cats df) =
  flatten ((λ i : string, f i <$> neighbour_levels df) <$> cats).
Proof.
  destruct df as [|r df]; [|done]. simpl.
  change (neighbour_levels []) with (@nil string).
  unfold flatten. induction cats as [|c cats IH]; [done|]. simpl. exact IH.
Qed.

Lemma div_cells_size_unstack (cats : list string) (df : list InteractionRow) :
  div_cells (size_unstack cats df) (size_unstack cats (drop_duplicates (λ r, r) df)) =
  (λ i : string,
     (λ j : string, fdiv (of_nat (pair_count df i j)) (of_nat (distinct_cells df i j)))
       <$> neighbour_levels df) <$> frame_index cats df.
Proof.
  unfold div_cells, size_unstack.
  rewrite neighbour_levels_drop_duplicates, frame_index_drop_duplicates.
  rewrite zip_with_fmap_l, zip_with_fmap_r, zip_with_diag.
  apply list_fmap_ext. intros _ i _.
  rewrite zip_with_fmap_l, zip_with_fmap_r, zip_with_diag.
  apply list_fmap_ext. intros _ j _.
  by rewrite pair_count_drop_duplicates.
Qed.

(** C1 (amended). Under conditional normalization a permutation trial
    recomputes numerator and denominator alike from the shuffled table: the
    value of the pair (i, j) is the number of shuffled rows of the pair over
    the deduplicated count of those same rows, that is over the number of
    distinct cells of phenotype i that own one (0 where there is none). *)
Theorem permutation_pval_norm_shuffled_factor
    (cats : list string) (data : list InteractionRow) (seed : Z) (st : rng_state) :
  (permutation_pval_norm cats data seed st).1 =
  flatten ((λ i : string,
              (λ j : string,
                 fdiv (of_nat (pair_count (shuffled data seed) i j))
                      (of_nat (distinct_cells (shuffled data seed) i j)))
                <$> neighbour_levels (shuffled data seed)) <$> cats).
Proof.
  unfold permutation_pval_norm, rand_bind, np_random_seed, np_random_permutation,
    rand_ret, shuffled.
  destruct (rng_permutation (rng_seed seed) (neighbour_phenotype <$> data)) as [col st'].
  simpl. rewrite div_cells_size_unstack.
  apply (flatten_frame_index cats (assign_neighbour data col)
           (λ i j, fdiv (of_nat (pair_count (assign_neighbour data col) i j))
                        (of_nat (distinct_cells (assign_neighbour data col) i j)))).
Qed.

End ConditionalTrial.

(** C1 as stated fails: cell 0 (A) with the neighbours 1 and 2 (both B),
    shuffled by one rotation. The trial divides by the deduplicated counts of
    the shuffled table, all 1; the deduplicated counts of the unshuffled table
    (0 for (A, A), 1 for (A, B), 2 for (B, A), 0 for (B, B)) would give other
    values. *)
Lemma conditional_factor_counterexample :
  let n := [ {| index := 0; neighbour_phenotype := "B"; phenotype := "A" |};
             {| index := 0; neighbour_phenotype := "B"; phenotype := "A" |};
             {| index := 1; neighbour_phenotype := "A"; phenotype := "B" |};
             {| index := 2; neighbour_phenotype := "A"; phenotype := "B" |} ]%string in
  let cats := ["A"; "B"]%string in
  (@permutation_pval_norm rotate_rng cats n 1 0%Z).1 = [Fin 1; Fin 1; Fin 1; Fin 1] ∧
  size_unstack cats (drop_duplicates (λ r, r) (@shuffled rotate_rng n 1)) = [[1; 1]; [1; 1]] ∧
  size_unstack cats (drop_duplicates (λ r, r) n) = [[0; 1]; [2; 0]] ∧
  @trial_over_unshuffled_factor rotate_rng cats n 1 = [PInf; Fin 1; Fin (1 # 2); PInf] ∧
  (@permutation_pval_norm rotate_rng cats n 1 0%Z).1 ≠
    @trial_over_unshuffled_factor rotate_rng cats n 1.
Proof. vm_compute. repeat split; congruence. Qed.

Section ConfigurationErrors.

Context {R : NumpyRandom} {F : SciFloat} {L : SpatialLibs}.

Lemma run_bind_ret {A B : Type} (a : A) (f : A → Run B) : run_bind (run_ret a) f = f a.
Proof. reflexivity. Qed.

Lemma run_bind_raise {A B : Type} (e : exn) (f : A → Run B) :
  run_bind (raise e) f = raise e.
Proof. reflexivity. Qed.

Lemma returns_only_bind {A B : Type} (m : Run A) (f : A → Run B) (Q : B → Prop) :
  (∀ a, returns_only (f a) Q) → returns_only (run_bind m f) Q.
Proof.
  intros Hf w w' b. unfold run_bind. destruct (m w) as [w1 [e|a]]; [done|].
  apply Hf.
Qed.

Lemma returns_only_ret {A : Type} (a : A) (Q : A → Prop) : Q a → returns_only (run_ret a) Q.
Proof. intros HQ w w' a' [= _ <-]. done. Qed.

Lemma logs_only_bind {A B : Type} (allowed : event → Prop) (m : Run A) (f : A → Run B) :
  logs_only allowed m → (∀ a, logs_only allowed (f a)) → logs_only allowed (run_bind m f).
Proof.
  intros Hm Hf w. unfold run_bind. destruct (Hm w) as (tr & Htr & Hall).
  destruct (m w) as [w1 [e|a]]; simpl in *; [eauto|].
  destruct (Hf a w1) as (tr' & Htr' & Hall').
  exists (tr ++ tr'). rewrite Htr', Htr, app_assoc. split; [done|].
  by apply Forall_app.
Qed.

Lemma fails_after_bind {A B : Type} (allowed : event → Prop) (m : Run A) (f : A → Run B) :
  logs_only allowed m → (∀ a, fails_after allowed (f a)) → fails_after allowed (run_bind m f).
Proof.
  intros Hm Hf w. unfold run_bind. destruct (Hm w) as (tr & Htr & Hall).
  destruct (m w) as [w1 [e|a]]; simpl in *; [eauto|].
  destruct (Hf a w1) as (He & tr' & Htr' & Hall'). split; [done|].
  exists (tr ++ tr'). rewrite Htr', Htr, app_assoc. split; [done|].
  by apply Forall_app.
Qed.

Lemma logs_only_ret {A : Type} (allowed : event → Prop) (a : A) :
  logs_only allowed (run_ret a).
Proof. intros w. exists []. by rewrite app_nil_r. Qed.

Lemma logs_only_raise {A : Type} (allowed : event → Prop) (e : exn) :
  logs_only allowed (raise e : Run A).
Proof. intros w. exists []. by rewrite app_nil_r. Qed.

Lemma logs_only_try_opt {A : Type} (allowed : event → Prop) (e : exn) (o : option A) :
  logs_only allowed (try_opt e o).
Proof. destruct o; [apply logs_only_ret | apply logs_only_raise]. Qed.

Lemma logs_only_on_global {A : Type} (allowed : event → Prop) (m : Rand A) :
  logs_only allowed (on_global m).
Proof.
  intros w. exists []. unfold on_global. destruct (m (global_rng w)).
  simpl. by rewrite app_nil_r.
Qed.

Lemma logs_only_log (allowed : event → Prop) (ev : event) :
  allowed ev → logs_only allowed (log ev).
Proof. intros Hev w. exists [ev]. simpl. split; [done|]. by constructor. Qed.

Lemma fails_after_raise {A : Type} (allowed : event → Prop) (e : exn) :
  fails_after allowed (raise e : Run A).
Proof. intros w. split; [by exists e|]. exists []. by rewrite app_nil_r. Qed.

Ltac logs_step :=
  first [ apply logs_only_ret | apply logs_only_try_opt | apply logs_only_on_global
        | apply logs_only_log; unfold before_trials; ((by right) || (left; congruence)) ].

Lemma invalid_method_raises (cfg : config) (workers : nat → rng_state)
    (cats : list string) (coords : list point) (phen : list string) (w : world) :
  method cfg ≠ "knn"%string → method cfg ≠ "radius"%string →
  method cfg ≠ "delaunay"%string →
  spatial_interaction_internal cfg workers cats coords phen w = (w, inl (NameError "ind")).
Proof.
  intros H1 H2 H3. unfold spatial_interaction_internal.
  rewrite (decide_False (P := method cfg = "knn"%string)) by done.
  rewrite run_bind_ret.
  rewrite (decide_False (P := method cfg = "radius"%string)) by done.
  rewrite run_bind_ret.
  rewrite (decide_False (P := method cfg = "delaunay"%string)) by done.
  reflexivity.
Qed.

Lemma invalid_normalization_fails (cfg : config) (workers : nat → rng_state)
    (cats : list string) (coords : list point) (phen : list string) :
  normalization cfg ≠ "total"%string → normalization cfg ≠ "conditional"%string →
  fails_after (before_trials cfg)
    (spatial_interaction_internal cfg workers cats coords phen).
Proof.
  intros H1 H2. unfold spatial_interaction_internal.
  apply fails_after_bind.
  { destruct (decide (method cfg = "knn"%string)) as [E|]; [|apply logs_only_ret].
    repeat (apply logs_only_bind; [|intros ?]); logs_step. }
  intros ind1. apply fails_after_bind.
  { destruct (decide (method cfg = "radius"%string)) as [E|]; [|apply logs_only_ret].
    repeat (apply logs_only_bind; [|intros ?]); logs_step. }
  intros ind2. apply fails_after_bind.
  { destruct (decide (method cfg = "delaunay"%string)) as [E|]; [|apply logs_only_ret].
    repeat (apply logs_only_bind; [|intros ?]); logs_step. }
  intros ind3. apply fails_after_bind; [apply logs_only_try_opt|]. intros neighbours.
  apply fails_after_bind.
  { unfold draw_seeds. repeat (apply logs_only_bind; [|intros ?]); logs_step. }
  intros seeds.
  rewrite (decide_False (P := normalization cfg = "total"%string)) by done.
  rewrite run_bind_ret.
  rewrite (decide_False (P := normalization cfg = "conditional"%string)) by done.
  rewrite run_bind_ret. unfold read_var, try_opt. rewrite run_bind_raise.
  apply fails_after_raise.
Qed.

Lemma invalid_pval_method_returns_frame (cfg : config) (workers : nat → rng_state)
    (cats : list string) (coords : list point) (phen : list string) :
  pval_method cfg ≠ "abs"%string → pval_method cfg ≠ "zscore"%string →
  returns_only (spatial_interaction_internal cfg workers cats coords phen)
    (λ r, ∃ rows, r = NeighbourFrame rows).
Proof.
  intros H1 H2. unfold spatial_interaction_internal.
  repeat first
    [ apply returns_only_bind; intros ?
    | match goal with |- returns_only (match ?x with _ => _ end) _ => destruct x end ];
    first [ contradiction | apply returns_only_ret; eauto ].
Qed.

End ConfigurationErrors.

Section Reproducibility.

Context {R : NumpyRandom} {F : SciFloat} {L : SpatialLibs}.

Lemma agree_bind {A B : Type} (P Q S : world → world → Prop)
    (m m' : Run A) (f f' : A → Run B) :
  agree P Q m m' → (∀ a, agree Q S (f a) (f' a)) →
  agree P S (run_bind m f) (run_bind m' f').
Proof.
  intros Hm Hf w w' HP. specialize (Hm w w' HP). unfold run_bind.
  destruct (m w) as [w1 [e|a]], (m' w') as [w1' [e'|a']]; simpl in *; try done.
  destruct Hm as [<- HQ]. by apply Hf.
Qed.

Lemma agree_ret {A : Type} (P : world → world → Prop) (a : A) :
  agree P P (run_ret a) (run_ret a).
Proof. intros w w' HP. simpl. done. Qed.

Lemma agree_raise {A : Type} (P Q : world → world → Prop) (e : exn) :
  agree P Q (raise e : Run A) (raise e).
Proof. intros w w' HP. simpl. done. Qed.

Lemma agree_try_opt {A : Type} (P : world → world → Prop) (e : exn) (o : option A) :
  agree P P (try_opt e o) (try_opt e o).
Proof. destruct o; [apply agree_ret | apply agree_raise]. Qed.

Lemma agree_log_any (ev : event) : agree any_world any_world (log ev) (log ev).
Proof. intros w w' _. simpl. done. Qed.

Lemma agree_log_same (ev : event) : agree same_rng same_rng (log ev) (log ev).
Proof. intros w w' HP. simpl. done. Qed.

(** Seeding overwrites the state: whatever the generators held before,
    they hold the same afterwards. *)
Lemma agree_seed (seed : Z) :
  agree any_world same_rng (on_global (np_random_seed seed)) (on_global (np_random_seed seed)).
Proof. intros w w' _. simpl. done. Qed.

Lemma agree_on_global {A : Type} (m : Rand A) :
  agree same_rng same_rng (on_global m) (on_global m).
Proof.
  intros w w' HP. unfold on_global. rewrite HP.
  destruct (m (global_rng w')). simpl. done.
Qed.

Lemma agree_draw_seeds (permutation : nat) :
  agree any_world same_rng (draw_seeds permutation) (draw_seeds permutation).
Proof.
  unfold draw_seeds.
  eapply agree_bind; [apply agree_seed | intros _].
  eapply agree_bind; [apply agree_log_same | intros _].
  apply agree_on_global.
Qed.

Lemma agree_run_for {A : Type} (P : world → world → Prop)
    (range : list nat) (body body' : nat → Run A) :
  (∀ i, agree P P (body i) (body' i)) →
  agree P P (run_for range body) (run_for range body').
Proof.
  intros Hb. induction range as [|i range IH]; simpl.
  - apply agree_ret.
  - eapply agree_bind; [apply Hb | intros a].
    eapply agree_bind; [apply IH | intros l]. apply agree_ret.
Qed.

(** Each trial seeds the generator it runs on before it shuffles. *)
Lemma permutation_pval_reseeds (cats : list string) (n : list InteractionRow)
    (seed : Z) (st st' : rng_state) :
  (permutation_pval cats n seed st).1 = (permutation_pval cats n seed st').1.
Proof. reflexivity. Qed.

Lemma permutation_pval_norm_reseeds (cats : list string) (n : list InteractionRow)
    (seed : Z) (st st' : rng_state) :
  (permutation_pval_norm cats n seed st).1 = (permutation_pval_norm cats n seed st').1.
Proof. reflexivity. Qed.

Lemma agree_parallel_trials (trial : list InteractionRow → Z → Rand (list fval))
    (workers workers' : nat → rng_state) (n : list InteractionRow) (seeds : list Z)
    (permutation : nat) :
  (∀ seed st st', (trial n seed st).1 = (trial n seed st').1) →
  agree same_rng same_rng (parallel_trials trial workers n seeds permutation)
                          (parallel_trials trial workers' n seeds permutation).
Proof.
  intros Ht. unfold parallel_trials. apply agree_run_for. intros i.
  eapply agree_bind; [apply agree_try_opt | intros seed].
  eapply agree_bind; [apply agree_log_same | intros _].
  rewrite (Ht seed (workers i) (workers' i)). apply agree_ret.
Qed.

(** Trial [i] is the trial function on [seeds[i]]. *)
Lemma parallel_trials_seeds (trial : list InteractionRow → Z → Rand (list fval))
    (workers : nat → rng_state) (n : list InteractionRow) (seeds : list Z)
    (permutation : nat) (w : world) :
  (parallel_trials trial workers n seeds permutation w).2 =
  if decide (permutation ≤ length seeds)
  then inr ((λ i : nat, (trial n (seeds !!! i) (workers i)).1) <$> seq 0 permutation)
  else inl IndexError.
Proof.
  unfold parallel_trials.
  assert (Hgen : ∀ len start w,
    (run_for (seq start len) (λ i,
        run_bind (try_opt IndexError (seeds !! i)) (λ seed,
        run_bind (log (Trial i)) (λ _, run_ret (trial n seed (workers i)).1))) w).2 =
    if decide (start + len ≤ length seeds ∨ len = 0)
    then inr ((λ i : nat, (trial n (seeds !!! i) (workers i)).1) <$> seq start len)
    else inl IndexError).
  { clear w. induction len as [|len IH]; intros start w; simpl.
    - rewrite decide_True by lia. done.
    - unfold run_bind at 1. unfold run_bind at 1.
      destruct (seeds !! start) as [seed|] eqn:Hs; simpl.
      + pose proof (lookup_lt_Some _ _ _ Hs) as Hlt.
        unfold run_bind at 1.
        match goal with |- context [run_for _ _ ?w1] => specialize (IH (S start) w1) end.
        destruct (run_for _ _ _) as [w2 [e|l]]; simpl in *.
        * match type of IH with context [decide ?P] => destruct (decide P) as [Hd|Hd] end;
            [done|].
          rewrite decide_False by lia. done.
        * match type of IH with context [decide ?P] => destruct (decide P) as [Hd|Hd] end;
            [|done].
          rewrite decide_True by lia. injection IH as ->.
          by rewrite (list_lookup_total_correct _ _ _ Hs).
      + apply lookup_ge_None in Hs. rewrite decide_False by lia. done. }
  rewrite Hgen. simpl.
  destruct (decide (permutation ≤ length seeds)).
  - rewrite decide_True by lia. done.
  - rewrite decide_False by lia. done.
Qed.

Ltac agree_tac :=
  lazymatch goal with
  | |- agree _ _ (run_bind _ _) _ => eapply agree_bind; [agree_tac | intros ?; agree_tac]
  | |- agree _ _ (if ?c then _ else _) _ => destruct c; agree_tac
  | |- agree _ _ (match ?x with _ => _ end) _ => destruct x; agree_tac
  | |- agree _ _ (read_var _ _) _ => apply agree_try_opt
  | |- agree _ _ (parallel_trials (permutation_pval _) _ _ _ _) _ =>
      apply agree_parallel_trials, permutation_pval_reseeds
  | |- agree _ _ (parallel_trials (permutation_pval_norm _) _ _ _ _) _ =>
      apply agree_parallel_trials, permutation_pval_norm_reseeds
  | |- _ => first [ apply agree_ret | apply agree_raise | apply agree_try_opt
                  | apply agree_log_any | apply agree_log_same
                  | apply agree_draw_seeds | apply agree_on_global ]
  end.

Lemma agree_spatial_interaction_internal (cfg : config)
    (workers workers' : nat → rng_state)
    (cats : list string) (coords : list point) (phen : list string) :
  agree any_world same_rng
    (spatial_interaction_internal cfg workers cats coords phen)
    (spatial_interaction_internal cfg workers' cats coords phen).
Proof. unfold spatial_interaction_internal. agree_tac. Qed.

(** C4. Two runs on the same inputs draw the same seeds (the generator is
    seeded with 42 before [randint], whatever state it held), trial [i] is the
    trial function on [seeds[i]] and seeds its own generator, and the two
    runs end alike: the same exception, or the same table of p-values and
    z-scores, for all initial states of the generator of the calling process
    and of the workers. *)
Theorem permutation_engine_reproducible (cfg : config)
    (workers workers' : nat → rng_state)
    (cats : list string) (coords : list point) (phen : list string) (w w' : world) :
  (draw_seeds (permutation cfg) w).2 =
    inr (rng_randint (rng_seed 42) 0 1000000 (permutation cfg)).1 ∧
  (∀ trial n seeds,
     (parallel_trials trial workers n seeds (permutation cfg) w).2 =
     if decide (permutation cfg ≤ length seeds)
     then inr ((λ i : nat, (trial n (seeds !!! i) (workers i)).1) <$> seq 0 (permutation cfg))
     else inl IndexError) ∧
  (spatial_interaction_internal cfg workers cats coords phen w).2 =
  (spatial_interaction_internal cfg workers' cats coords phen w').2.
Proof.
  split; [|split].
  - unfold draw_seeds, run_bind, on_global, np_random_seed, np_random_randint. simpl.
    by destruct (rng_randint _ _ _ _).
  - intros trial n seeds. apply parallel_trials_seeds.
  - pose proof (agree_spatial_interaction_internal cfg workers workers'
                  cats coords phen w w' I) as Hag.
    destruct (spatial_interaction_internal cfg workers cats coords phen w) as [w1 [e|r]],
             (spatial_interaction_internal cfg workers' cats coords phen w') as [w1' [e'|r']];
      simpl in *; try done.
    + by rewrite Hag.
    + by destruct Hag as [-> _].
Qed.

End Reproducibility.

(** C9 as stated fails. With an unknown [pval_method] nothing is raised:
    the graph is built, every trial runs, and the mapped neighbour frame comes
    back. With an unknown [normalization] the exception comes after the
    neighbour graph has been built. *)
Lemma invalid_configuration_counterexample :
  let coords := [[0; 0]; [100; 100]; [1; 0]]%Q in
  let phen := ["A"; "A"; "B"]%string in
  let cats := ["A"; "B"]%string in
  let cfg n p := {| method := "radius"; radius := 30; knn := 2; permutation := 3;
                    cond_counts_threshold := 5; pval_method := p;
                    normalization := n; scaling := true |} in
  let w := @Build_world rotate_rng 0%Z [] in
  @spatial_interaction_internal rotate_rng toy_float toy_libs
    (cfg "total" "rank")%string (λ _, 0%Z) cats coords phen w =
  (@Build_world rotate_rng 45%Z
     [NeighbourGraph "radius"; SeedsDrawn; Trial 0; Trial 1; Trial 2; Observed],
   inr (NeighbourFrame [(0, [Some "B"]); (2, [Some "A"])]%string)) ∧
  @spatial_interaction_internal rotate_rng toy_float toy_libs
    (cfg "row" "abs")%string (λ _, 0%Z) cats coords phen w =
  (@Build_world rotate_rng 45%Z [NeighbourGraph "radius"; SeedsDrawn],
   inl (NameError "final_scores")).
Proof. vm_compute. done. Qed.

(** C2, at an input where the code departs from it: cells A, A, B, the
    second one isolated (radius method), so the edge table holds one row for
    cell 0 and one for cell 2. The observed frequency of (A, B) is the one
    edge over the two cells of phenotype A; a trial that leaves the table
    unshuffled divides the same edge by the one cell of phenotype A that owns
    a row. *)
Lemma observed_total_differs_from_unshuffled_trial :
  let phen := ["A"; "A"; "B"]%string in
  let cats := ["A"; "B"]%string in
  let n := phenotype_mapper phen (Radius.neighbours [[0; 0]; [100; 100]; [1; 0]]%Q 30) in
  n = [ {| index := 0; neighbour_phenotype := "B"; phenotype := "A" |};
        {| index := 2; neighbour_phenotype := "A"; phenotype := "B" |} ]%string ∧
  @shuffled identity_rng n 7 = n ∧
  value_counts phen "A" = 2 ∧ cells_with_rows n "A" = 1 ∧
  observed_total cats phen n = [Fin 0; Fin (1 # 2); Fin 1; Fin 0] ∧
  (@permutation_pval identity_rng cats n 7 0%Z).1 = [Fin 0; Fin 1; Fin 1; Fin 0].
Proof. vm_compute. done. Qed.

(** C6, at an input where the code departs from it: cells A, A, B, the
    third one isolated (radius method), conditional normalization. B never
    occurs as a neighbour, and the conditional path appends no column: the
    frames of the trial and of the observed frequencies have the rows A and B
    and the single column A, and the result has no row for (A, B) nor (B, B).
    The total path, on the same input, has all four pairs. *)
Lemma conditional_frame_not_square :
  let coords := [[0; 0]; [1; 0]; [100; 100]]%Q in
  let phen := ["A"; "A"; "B"]%string in
  let cats := ["A"; "B"]%string in
  let n := phenotype_mapper phen (Radius.neighbours coords 30) in
  let cfg norm := {| method := "radius"; radius := 30; knn := 2; permutation := 2;
                     cond_counts_threshold := 1; pval_method := "abs";
                     normalization := norm; scaling := false |} in
  let w := @Build_world rotate_rng 0%Z [] in
  neighbour_levels n = ["A"%string] ∧
  (@permutation_pval_norm rotate_rng cats n 1 0%Z).1 = [Fin 1; Fin 0] ∧
  observed_conditional cats 1 n = [Fin 1; Fin 0] ∧
  (@spatial_interaction_internal rotate_rng toy_float toy_libs
     (cfg "conditional"%string) (λ _, 0%Z) cats coords phen w).2 =
  inr (AbsTable [("A", "A", Fin 1, Fin (2 # 3)); ("B", "A", Fin 0, Fin (2 # 3))]%string) ∧
  (@spatial_interaction_internal rotate_rng toy_float toy_libs
     (cfg "total"%string) (λ _, 0%Z) cats coords phen w).2 =
  inr (AbsTable [("A", "A", Fin 1, Fin (2 # 3)); ("A", "B", Fin 0, Fin (2 # 3));
                 ("B", "A", Fin 0, Fin (2 # 3)); ("B", "B", Fin 0, Fin (2 # 3))]%string).
Proof. vm_compute. done. Qed.

Section TotalFrames.

Context {R : NumpyRandom}.

Lemma pair_count_zero (df : list InteractionRow) (i j : string) :
  j ∉ neighbour_levels df → pair_count df i j = 0.
Proof.
  intros Hj. unfold pair_count.
  destruct (filter _ df) as [|r l] eqn:E; [done|]. exfalso. apply Hj.
  assert (Hr : r ∈ filter (λ r, phenotype r = i ∧ neighbour_phenotype r = j) df).
  { rewrite E. by left. }
  apply list_elem_of_filter in Hr as [[_ <-] Hr].
  apply np_unique_elem, list_elem_of_fmap. eauto.
Qed.

Lemma frame_index_rows (cats : list string) (df : list InteractionRow) :
  df ≠ [] → frame_index cats df = cats.
Proof. by destruct df. Qed.

Lemma frame_index_NoDup (cats : list string) (df : list InteractionRow) :
  NoDup cats → NoDup (frame_index cats df).
Proof. destruct df; [constructor | done]. Qed.

Lemma frame_index_length (cats : list string) (df : list InteractionRow) :
  length (frame_index cats df) ≤ length cats.
Proof. destruct df; simpl; lia. Qed.

Lemma columns_to_add_elem (cats : list string) (df : list InteractionRow) (x : string) :
  x ∈ columns_to_add cats df ↔ x ∈ frame_index cats df ∧ x ∉ neighbour_levels df.
Proof.
  unfold columns_to_add, setdiff1d. rewrite np_unique_elem, list_elem_of_filter. tauto.
Qed.

Lemma neighbour_levels_elem (df : list InteractionRow) (x : string) :
  x ∈ neighbour_levels df ↔ ∃ r, r ∈ df ∧ neighbour_phenotype r = x.
Proof.
  unfold neighbour_levels. rewrite np_unique_elem, list_elem_of_fmap.
  split; intros (r & ? & ?); eauto.
Qed.

(** The columns of [k] are its row labels, each once. *)
Lemma square_columns_Permutation (cats : list string) (df : list InteractionRow) :
  NoDup cats → Forall (λ r, neighbour_phenotype r ∈ cats) df →
  square_columns cats df ≡ₚ frame_index cats df.
Proof.
  intros Hnd Hin. rewrite Forall_forall in Hin. unfold square_columns.
  apply NoDup_Permutation; [|by apply frame_index_NoDup|].
  - apply NoDup_app. split; [apply np_unique_NoDup|]. split; [|apply np_unique_NoDup].
    intros x Hx Hx'. apply columns_to_add_elem in Hx' as [_ ?]. done.
  - intros x. rewrite elem_of_app, columns_to_add_elem, neighbour_levels_elem. split.
    + intros [(r & Hr & <-)|[? _]]; [|done].
      rewrite frame_index_rows; [by apply Hin|]. intros ->. by apply elem_of_nil in Hr.
    + intros Hx. destruct (decide (x ∈ neighbour_levels df)) as [Hl|Hl].
      * left. by apply neighbour_levels_elem.
      * right. split; [done|]. by rewrite <- neighbour_levels_elem.
Qed.

(** The appended zeros are the counts of the appended columns. *)
Lemma k_square_counts (cats : list string) (df : list InteractionRow) :
  k_square cats df =
  (λ i : string, (λ j : string, pair_count df i j) <$> square_columns cats df)
    <$> frame_index cats df.
Proof.
  unfold k_square, size_unstack, square_columns. rewrite <- list_fmap_compose.
  apply list_fmap_ext. intros _ i _. simpl. rewrite fmap_app. f_equal.
  assert (Hz : Forall (λ j, j ∉ neighbour_levels df) (columns_to_add cats df)).
  { apply Forall_forall. intros j Hj. by apply columns_to_add_elem in Hj as [_ ?]. }
  induction Hz as [|j l Hj _ IH]; simpl; [done|].
  by rewrite IH, pair_count_zero.
Qed.

Lemma k_square_shape (cats : list string) (df : list InteractionRow) :
  length (k_square cats df) = length (frame_index cats df) ∧
  Forall (λ row, length row = length (square_columns cats df)) (k_square cats df).
Proof.
  rewrite k_square_counts. split; [by rewrite length_fmap|].
  apply Forall_fmap, Forall_true. intros i. simpl. by rewrite length_fmap.
Qed.

Lemma flatten_length (m : list (list fval)) (c : nat) :
  Forall (λ row, length row = c) m → length (flatten m) = length m * c.
Proof.
  unfold flatten. induction 1 as [|row m Hrow _ IH]; [done|].
  rewrite fmap_cons, concat_cons, length_app, length_fmap, IH, Hrow. simpl. done.
Qed.

Lemma div_rows_shape (k : list (list nat)) (totals : list nat) (c : nat) :
  length k ≤ length totals → Forall (λ row, length row = c) k →
  length (div_rows k totals) = length k ∧
  Forall (λ row, length row = c) (div_rows k totals).
Proof.
  intros Hlen Hk. unfold div_rows. split; [rewrite length_zip_with; lia|].
  revert totals Hlen. induction Hk as [|row k Hrow _ IH]; intros [|t totals] Hlen;
    simpl in *; try done; try lia.
  constructor; [by rewrite length_fmap|]. apply IH. lia.
Qed.

Lemma total_frequencies_length (cats : list string) (df : list InteractionRow)
    (totals : list nat) :
  NoDup cats → Forall (λ r, neighbour_phenotype r ∈ cats) df →
  length (frame_index cats df) ≤ length totals →
  length (flatten (div_rows (k_square cats df) totals)) =
  length (frame_index cats df) * length (frame_index cats df).
Proof.
  intros Hnd Hin Hlen.
  destruct (k_square_shape cats df) as [Hk Hrows].
  rewrite (Permutation_length (square_columns_Permutation cats df Hnd Hin)) in Hrows.
  destruct (div_rows_shape (k_square cats df) totals (length (frame_index cats df)))
    as [Hd Hdr]; [lia | done |].
  rewrite (flatten_length _ _ Hdr), Hd, Hk. done.
Qed.

Lemma assign_neighbour_column (df : list InteractionRow) (col : list string) :
  length col = length df → neighbour_phenotype <$> assign_neighbour df col = col.
Proof.
  intros Hlen. unfold assign_neighbour. apply fmap_zip_with_r; [done | lia].
Qed.

(** A shuffle that permutes its argument keeps the neighbour phenotypes
    within the categories. *)
Lemma shuffled_within (cats : list string) (data : list InteractionRow) (seed : Z) :
  (rng_permutation (rng_seed seed) (neighbour_phenotype <$> data)).1
    ≡ₚ neighbour_phenotype <$> data →
  Forall (λ r, neighbour_phenotype r ∈ cats) data →
  Forall (λ r, neighbour_phenotype r ∈ cats) (shuffled data seed).
Proof.
  intros Hperm Hin. unfold shuffled.
  set (col := (rng_permutation (rng_seed seed) (neighbour_phenotype <$> data)).1) in *.
  assert (Hlen : length col = length data).
  { rewrite (Permutation_length Hperm). by rewrite length_fmap. }
  apply (proj1 (Forall_fmap neighbour_phenotype (λ x, x ∈ cats) _)).
  rewrite (assign_neighbour_column _ _ Hlen), Hperm.
  by apply Forall_fmap.
Qed.

(** A shuffle that permutes the neighbour column keeps the number of
    rows of the table. *)
Lemma frame_index_shuffled (cats : list string) (n : list InteractionRow) (seed : Z) :
  (rng_permutation (rng_seed seed) (neighbour_phenotype <$> n)).1
    ≡ₚ neighbour_phenotype <$> n →
  frame_index cats (shuffled n seed) = frame_index cats n.
Proof.
  intros Hperm.
  assert (Hlen : length (shuffled n seed) = length n).
  { unfold shuffled, assign_neighbour.
    rewrite length_zip_with, (Permutation_length Hperm), length_fmap. lia. }
  destruct n as [|r n].
  - unfold shuffled, assign_neighbour. done.
  - destruct (shuffled (r :: n) seed) as [|r' n']; [simpl in Hlen; lia | done].
Qed.

(** The value of a total-normalization trial. *)
Lemma permutation_pval_value (cats : list string) (n : list InteractionRow)
    (seed : Z) (st : rng_state) :
  (permutation_pval cats n seed st).1 =
  flatten (div_rows (k_square cats (shuffled n seed))
             (cells_with_rows (shuffled n seed) <$> frame_index cats (shuffled n seed))).
Proof.
  unfold permutation_pval, rand_bind, np_random_seed, np_random_permutation,
    rand_ret, shuffled.
  by destruct (rng_permutation (rng_seed seed) (neighbour_phenotype <$> n)).
Qed.

(** X1. Under total normalization the frame of counts of an edge table
    with at least one row is square over the categories of the image, for
    the observed table and for every trial whose shuffle permutes the
    neighbour column: its columns are the categories, each once, the
    appended entries are the zero counts of the pairs that do not occur, and
    the flattened frequencies have one entry per ordered pair of categories.
    (An edge table without rows gives a frame without rows or columns, and
    no frequency.) *)
Theorem total_frame_square (cats phen : list string) (n : list InteractionRow)
    (seed : Z) (st : rng_state) :
  n ≠ [] →
  NoDup cats → Forall (λ r, neighbour_phenotype r ∈ cats) n →
  (rng_permutation (rng_seed seed) (neighbour_phenotype <$> n)).1
    ≡ₚ neighbour_phenotype <$> n →
  square_columns cats n ≡ₚ cats ∧
  square_columns cats (shuffled n seed) ≡ₚ cats ∧
  k_square cats n =
    (λ i : string, (λ j : string, pair_count n i j) <$> square_columns cats n) <$> cats ∧
  length (observed_total cats phen n) = length cats * length cats ∧
  length (permutation_pval cats n seed st).1 = length cats * length cats ∧
  observed_total cats phen [] = [].
Proof.
  intros Hne Hnd Hin Hperm.
  pose proof (shuffled_within cats n seed Hperm Hin) as HinS.
  pose proof (frame_index_rows cats n Hne) as Hidx.
  pose proof (frame_index_shuffled cats n seed Hperm) as HidxS. rewrite Hidx in HidxS.
  split; [etrans; [by apply square_columns_Permutation | by rewrite Hidx]|].
  split; [etrans; [by apply square_columns_Permutation | by rewrite HidxS]|].
  split; [rewrite k_square_counts; by rewrite Hidx|]. split; [|split].
  - unfold observed_total.
    rewrite total_frequencies_length; [by rewrite Hidx | done | done |].
    rewrite length_fmap, Hidx. lia.
  - rewrite permutation_pval_value.
    rewrite total_frequencies_length; [by rewrite HidxS | done | done |].
    by rewrite length_fmap.
  - reflexivity.
Qed.

End TotalFrames.

(** Cells A, A, B with the third one isolated: B has no incident edge and
    still is a row and a column. *)
Lemma total_frame_square_witness :
  let cats := ["A"; "B"]%string in
  let phen := ["A"; "A"; "B"]%string in
  let n := [ {| index := 0; neighbour_phenotype := "A"; phenotype := "A" |};
             {| index := 1; neighbour_phenotype := "A"; phenotype := "A" |} ]%string in
  square_columns cats n ≡ₚ cats ∧
  square_columns cats (@shuffled rotate_rng n 1) ≡ₚ cats ∧
  k_square cats n = [[2; 0]; [0; 0]] ∧
  length (observed_total cats phen n) = 4 ∧
  length (@permutation_pval rotate_rng cats n 1 0%Z).1 = 4 ∧
  observed_total cats phen [] = [].
Proof.
  intros cats phen n.
  apply (@total_frame_square rotate_rng cats phen n 1 0%Z).
  - done.
  - by apply (bool_decide_unpack _).
  - by apply (bool_decide_unpack _).
  - reflexivity.
Defined.

Section AbsPValues.

Lemma fdiv_counts (c permutation : nat) :
  fdiv (of_nat c) (of_nat (permutation + 1)) =
  Fin (Qred (inject_Z (Z.of_nat c) / inject_Z (Z.of_nat (permutation + 1)))).
Proof.
  unfold fdiv, of_nat, fin. rewrite decide_False; [done|].
  unfold Qeq. simpl. lia.
Qed.

(** X3. Without scaling [n_freq] and [perm] reach line 357 as they were computed:
    the p-value of a pair is the number of its trials whose value is at least
    the observed value, over [permutation + 1]; it is a finite number and no
    pair is dropped by the final filter. *)
Theorem p_values_abs_fraction (perm : list (list fval)) (n_freq : list fval)
    (permutation : nat) :
  length perm = length n_freq →
  p_values_abs perm n_freq permutation =
  Some (zip_with (λ (row : list fval) (x : fval),
          Fin (Qred (inject_Z (Z.of_nat (length (filter (λ v, fge v x = true) row))) /
                     inject_Z (Z.of_nat (permutation + 1))))) perm n_freq).
Proof.
  intros Hlen. unfold p_values_abs, elementwise.
  rewrite decide_True by done. cbn [mbind option_bind]. f_equal.
  rewrite notna_id.
  - revert n_freq Hlen. induction perm as [|row perm' IH]; intros [|x n_freq] Hlen;
      try (by simpl in Hlen).
    cbn [zip_with fmap list_fmap]. rewrite fdiv_counts. f_equal.
    apply IH. simpl in Hlen. lia.
  - apply Forall_fmap, Forall_true. intros c. unfold compose. by rewrite fdiv_counts.
Qed.

End AbsPValues.

(** One pair, three trials, two of them at least the observed 1/2. *)
Lemma p_values_abs_fraction_witness :
  p_values_abs [[Fin 0; Fin (1 # 2); Fin 1]] [Fin (1 # 2)] 3 = Some [Fin (1 # 2)].
Proof.
  apply (p_values_abs_fraction [[Fin 0; Fin (1 # 2); Fin 1]] [Fin (1 # 2)] 3).
  reflexivity.
Defined.

Section UnshuffledTrial.

Context {R : NumpyRandom}.

Lemma drop_duplicates_seen_keys {A K : Type} `{EqDecision K}
    (key : A → K) (seen : list K) (l : list A) (k : K) :
  k ∈ key <$> drop_duplicates_seen key seen l ↔ k ∈ key <$> l ∧ k ∉ seen.
Proof.
  revert seen; induction l as [|y l IH]; intros seen; simpl.
  - rewrite elem_of_nil. tauto.
  - destruct (decide (key y ∈ seen)) as [Hin|Hnin].
    + rewrite IH, elem_of_cons. split; [tauto|].
      intros [[->|?] ?]; tauto.
    + rewrite fmap_cons, elem_of_cons, IH, !elem_of_cons. split.
      * intros [->|[? ?]]; tauto.
      * intros [[->|?] ?]; [tauto|].
        destruct (decide (k = key y)); tauto.
Qed.

Lemma drop_duplicates_seen_keys_NoDup {A K : Type} `{EqDecision K}
    (key : A → K) (seen : list K) (l : list A) :
  NoDup (key <$> drop_duplicates_seen key seen l).
Proof.
  revert seen; induction l as [|y l IH]; intros seen; simpl.
  - constructor.
  - destruct (decide (key y ∈ seen)); [apply IH|].
    rewrite fmap_cons. constructor; [|apply IH].
    rewrite drop_duplicates_seen_keys, elem_of_cons. tauto.
Qed.

Lemma filter_ext_in {A : Type} (P1 P2 : A → Prop)
    `{∀ x, Decision (P1 x)} `{∀ x, Decision (P2 x)} (l : list A) :
  (∀ x, x ∈ l → P1 x ↔ P2 x) → filter P1 l = filter P2 l.
Proof.
  induction l as [|x l IH]; intros Hext; [done|].
  rewrite !filter_cons.
  rewrite IH by (intros y Hy; apply Hext; by right).
  destruct (decide (P1 x)) as [H1|H1], (decide (P2 x)) as [H2|H2]; try done;
    exfalso; apply (Hext x) in H1 || apply (Hext x) in H2; try done; by left.
Qed.

Lemma value_counts_positions (phen : list string) (i : string) :
  value_counts phen i =
  length (filter (λ c, phen !! c = Some i) (seq 0 (length phen))).
Proof.
  unfold value_counts. induction phen as [|x phen IH] using rev_ind; [done|].
  rewrite filter_app, !length_app, IH. simpl.
  rewrite Nat.add_1_r, seq_S, filter_app, length_app. simpl. f_equal.
  - f_equal. apply filter_ext_in. intros c Hc.
    apply elem_of_seq in Hc. rewrite lookup_app_l by lia. done.
  - rewrite !filter_cons, !filter_nil.
    rewrite lookup_app_r by lia. rewrite Nat.sub_diag. simpl.
    destruct (decide (x = i)) as [->|Hne].
    + by rewrite decide_True.
    + rewrite decide_False; [done|]. intros [= ?]. done.
Qed.

(** When every cell owns a row of the edge table, the cells that own a row
    are all the cells. *)
Lemma cells_with_rows_all (phen : list string) (n : list InteractionRow) (i : string) :
  (∀ r, r ∈ n → phen !! index r = Some (phenotype r)) →
  (∀ c, c < length phen → ∃ r, r ∈ n ∧ index r = c) →
  cells_with_rows n i = value_counts phen i.
Proof.
  intros Hwf Hcov. rewrite value_counts_positions. unfold cells_with_rows, drop_duplicates.
  set (key := λ r : InteractionRow, (index r, phenotype r)).
  set (D := drop_duplicates_seen key [] n).
  assert (HD : ∀ c p, (c, p) ∈ key <$> D ↔ ∃ r, r ∈ n ∧ index r = c ∧ phenotype r = p).
  { intros c p. unfold D. rewrite drop_duplicates_seen_keys, list_elem_of_fmap, elem_of_nil.
    split.
    - intros [(r & [= -> ->] & Hr) _]. eauto.
    - intros (r & Hr & <- & <-). split; [eauto | tauto]. }
  rewrite <- (length_fmap index (filter (λ r, phenotype r = i) D)).
  apply Permutation_length, NoDup_Permutation.
  - apply NoDup_fmap_2_strong.
    + intros r1 r2 H1 H2 Heq.
      apply list_elem_of_filter in H1 as [P1 H1]. apply list_elem_of_filter in H2 as [P2 H2].
      assert (Hk : key r1 = key r2) by (unfold key; congruence).
      pose proof (drop_duplicates_seen_keys_NoDup key [] n) as Hnd. fold D in Hnd.
      apply list_elem_of_lookup in H1 as [a1 Ha1]. apply list_elem_of_lookup in H2 as [a2 Ha2].
      assert (a1 = a2).
      { eapply NoDup_lookup; [exact Hnd | |];
          rewrite list_lookup_fmap; [rewrite Ha1 | rewrite Ha2]; simpl; [done | by rewrite Hk]. }
      subst. congruence.
    + apply NoDup_filter.
      apply (NoDup_fmap_1 key), drop_duplicates_seen_keys_NoDup.
  - apply NoDup_filter, NoDup_seq.
  - intros c. rewrite list_elem_of_fmap, list_elem_of_filter, elem_of_seq. split.
    + intros (r & -> & Hr). apply list_elem_of_filter in Hr as [Hp Hr].
      assert (Hk : (index r, i) ∈ key <$> D).
      { apply list_elem_of_fmap. exists r. split; [unfold key; by rewrite Hp | done]. }
      apply HD in Hk as (r' & Hr' & Hi & Hp').
      pose proof (Hwf r' Hr') as Hl. rewrite Hi, Hp' in Hl.
      split; [done|]. apply lookup_lt_Some in Hl. lia.
    + intros [Hl [_ Hc]]. simpl in Hc.
      destruct (Hcov c Hc) as (r & Hr & Hi).
      pose proof (Hwf r Hr) as Hl'. rewrite Hi, Hl in Hl'. injection Hl' as Hp.
      assert (Hk : (c, i) ∈ key <$> D) by (apply HD; eauto).
      apply list_elem_of_fmap in Hk as (r' & [= -> ->] & Hr').
      exists r'. split; [done|]. by apply list_elem_of_filter.
Qed.

Lemma assign_neighbour_same (n : list InteractionRow) :
  assign_neighbour n (neighbour_phenotype <$> n) = n.
Proof.
  unfold assign_neighbour. induction n as [|[a np p] n IH]; simpl; [done|].
  f_equal. apply IH.
Qed.

(** X2. Under total normalization, when every cell of the image owns at least
    one row of the edge table, the observed frequencies are those a trial
    computes when its shuffle leaves the neighbour column as it is; the
    entry of the pair (i, j) is then the number of edges from i to j over
    the number of cells of phenotype i. *)
Theorem observed_total_is_unshuffled_trial (cats phen : list string)
    (n : list InteractionRow) (seed : Z) (st : rng_state) :
  (∀ r, r ∈ n → phen !! index r = Some (phenotype r)) →
  (∀ c, c < length phen → ∃ r, r ∈ n ∧ index r = c) →
  (rng_permutation (rng_seed seed) (neighbour_phenotype <$> n)).1 = neighbour_phenotype <$> n →
  (permutation_pval cats n seed st).1 = observed_total cats phen n ∧
  observed_total cats phen n =
  flatten ((λ i : string,
              (λ j : string, fdiv (of_nat (pair_count n i j)) (of_nat (value_counts phen i)))
                <$> square_columns cats n) <$> cats).
Proof.
  intros Hwf Hcov Hid.
  destruct (decide (n = [])) as [->|Hne].
  { (* no row: no frame on either side *)
    split.
    - unfold permutation_pval, rand_bind, np_random_seed, np_random_permutation, rand_ret.
      by destruct (rng_permutation (rng_seed seed) (neighbour_phenotype <$> [])).
    - change (square_columns cats []) with (@nil string).
      change (observed_total cats phen []) with (@nil fval).
      unfold flatten. clear. induction cats as [|c cats IH]; [done|]. simpl. exact IH. }
  pose proof (frame_index_rows cats n Hne) as Hidx.
  split.
  - unfold permutation_pval, rand_bind, np_random_seed, np_random_permutation, rand_ret,
      observed_total.
    destruct (rng_permutation (rng_seed seed) (neighbour_phenotype <$> n)) as [col st'].
    simpl in *. subst col. rewrite assign_neighbour_same, Hidx. do 2 f_equal.
    apply list_fmap_ext. intros _ i _. by apply cells_with_rows_all.
  - unfold observed_total. f_equal. rewrite k_square_counts, Hidx. unfold div_rows.
    rewrite zip_with_fmap_l, zip_with_fmap_r, zip_with_diag.
    apply list_fmap_ext. intros _ i _. by rewrite <- list_fmap_compose.
Qed.

End UnshuffledTrial.

(** Cells A and B, each the other's neighbour. *)
Lemma observed_total_is_unshuffled_trial_witness :
  let cats := ["A"; "B"]%string in
  let phen := ["A"; "B"]%string in
  let n := [ {| index := 0; neighbour_phenotype := "B"; phenotype := "A" |};
             {| index := 1; neighbour_phenotype := "A"; phenotype := "B" |} ]%string in
  (@permutation_pval identity_rng cats n 7 0%Z).1 = observed_total cats phen n ∧
  observed_total cats phen n = [Fin 0; Fin 1; Fin 1; Fin 0].
Proof.
  intros cats phen n.
  apply (@observed_total_is_unshuffled_trial identity_rng cats phen n 7 0%Z).
  - intros r Hr. repeat (apply elem_of_cons in Hr as [->|Hr]; [reflexivity|]).
    by apply elem_of_nil in Hr.
  - intros c Hc. simpl in Hc.
    destruct c as [|[|c]];
      [ exists {| index := 0; neighbour_phenotype := "B"; phenotype := "A" |}
      | exists {| index := 1; neighbour_phenotype := "A"; phenotype := "B" |}
      | lia ]; (split; [|reflexivity]); unfold n; rewrite !elem_of_cons; auto.
  - reflexivity.
Defined.

Section RadiusFacts.

Context (tree_query_radius : list point → point → Q → list nat).

(** The row of cell [i] in the frame of the radius branch. *)
Lemma radius_row (pts : list point) (r : Q) (nb : list (list (option nat)))
    (i j : nat) (p : point) :
  Radius.neighbours_from tree_query_radius pts r = Some nb → pts !! i = Some p →
  ∃ row, nb !! i = Some row ∧
         (Some j ∈ row ↔ j ≠ i ∧ j ∈ tree_query_radius pts p r).
Proof.
  unfold Radius.neighbours_from. intros Hnb Hp.
  destruct (decide (pts = [])); [done|]. injection Hnb as <-.
  rewrite list_lookup_fmap, list_lookup_imap, Hp. simpl.
  eexists. split; [done|]. unfold Delaunay.pad, Radius.remove_self.
  rewrite elem_of_app, list_elem_of_fmap, elem_of_replicate. split.
  - intros [(j' & [= ->] & Hj)|[? _]]; [|done].
    by apply list_elem_of_filter in Hj.
  - intros [Hne Hj]. left. exists j. split; [done|]. by apply list_elem_of_filter.
Qed.

(** X4. With the radius method the frame has one row per cell, and every
    neighbour in the row of a cell is a cell that the tree returned for it
    and is not the cell itself: self is removed by index, wherever the tree
    lists it. *)
Theorem radius_neighbours_within (pts : list point) (r : Q)
    (nb : list (list (option nat))) (i j : nat) (p : point) (row : list (option nat)) :
  Radius.neighbours_from tree_query_radius pts r = Some nb →
  pts !! i = Some p → nb !! i = Some row → Some j ∈ row →
  length nb = length pts ∧ j ≠ i ∧ j ∈ tree_query_radius pts p r.
Proof.
  intros Hnb Hp Hrow Hj. split.
  - unfold Radius.neighbours_from in Hnb.
    destruct (decide (pts = [])); [done|]. injection Hnb as <-.
    by rewrite length_fmap, length_imap.
  - destruct (radius_row pts r nb i j p Hnb Hp) as (row' & Hrow' & Hiff).
    rewrite Hrow in Hrow'. injection Hrow' as <-. by apply Hiff.
Qed.

(** X12. With the radius method no neighbour the tree found is left out:
    the frame is built for an image with at least one cell, and every cell
    that the tree returned for a cell, other than the cell itself, is in its
    row. *)
Theorem radius_neighbours_complete (pts : list point) (r : Q) (i j : nat) (p : point) :
  pts !! i = Some p → j ≠ i → j ∈ tree_query_radius pts p r →
  ∃ nb row, Radius.neighbours_from tree_query_radius pts r = Some nb ∧
            nb !! i = Some row ∧ Some j ∈ row.
Proof.
  intros Hp Hne Hj.
  destruct (Radius.neighbours_from tree_query_radius pts r) as [nb|] eqn:Hnb.
  - destruct (radius_row pts r nb i j p Hnb Hp) as (row & Hrow & Hiff).
    exists nb, row. repeat split; try done. by apply Hiff.
  - unfold Radius.neighbours_from in Hnb.
    destruct (decide (pts = [])) as [->|]; [done | done].
Qed.

End RadiusFacts.

(** A 2 by 2 grid of spacing 1 and radius 3/2, on the exact tree: every
    cell reaches the three others. *)
Lemma radius_neighbours_within_witness :
  let pts := [[0; 0]; [1; 0]; [0; 1]; [1; 1]]%Q in
  Radius.neighbours_from Radius.query_radius pts (3 # 2) =
    Some [[Some 1; Some 2; Some 3]; [Some 0; Some 2; Some 3];
          [Some 0; Some 1; Some 3]; [Some 0; Some 1; Some 2]] ∧
  (4 = length pts ∧ 3 ≠ 0 ∧ 3 ∈ Radius.query_radius pts [0; 0]%Q (3 # 2)).
Proof.
  intros pts. split; [reflexivity|].
  apply (radius_neighbours_within Radius.query_radius pts (3 # 2)
           [[Some 1; Some 2; Some 3]; [Some 0; Some 2; Some 3];
            [Some 0; Some 1; Some 3]; [Some 0; Some 1; Some 2]]
           0 3 [0; 0]%Q [Some 1; Some 2; Some 3]).
  - reflexivity.
  - reflexivity.
  - reflexivity.
  - rewrite !elem_of_cons. auto.
Defined.

(** The same grid: the diagonal cell is reached. *)
Lemma radius_neighbours_complete_witness :
  ∃ nb row,
    Radius.neighbours_from Radius.query_radius [[0; 0]; [1; 0]; [0; 1]; [1; 1]]%Q (3 # 2)
      = Some nb ∧
    nb !! 0 = Some row ∧ Some 3 ∈ row.
Proof.
  apply (radius_neighbours_complete Radius.query_radius
           [[0; 0]; [1; 0]; [0; 1]; [1; 1]]%Q (3 # 2) 0 3 [0; 0]%Q).
  - reflexivity.
  - lia.
  - by apply (bool_decide_unpack _).
Defined.

Section DelaunaySymmetry.
Import Delaunay.

Lemma dict_add_lookup_total (d d' : neighbours_dict) (a b x : nat) :
  dict_add d a b = Some d' →
  d' !!! x = if decide (x = a) then d !!! a ∪ {[b]} else d !!! x.
Proof.
  unfold dict_add. intros Hadd.
  destruct (d !! a) as [s|] eqn:Ea; [|done]. simpl in Hadd. injection Hadd as <-.
  destruct (decide (x = a)) as [->|Hne].
  - rewrite lookup_total_insert_eq. by rewrite (lookup_total_correct _ _ _ Ea).
  - by rewrite lookup_total_insert_ne.
Qed.

Lemma add_edge_symmetric (d d' : neighbours_dict) (a b : nat) :
  symmetric d → add_edge d a b = Some d' → symmetric d'.
Proof.
  unfold add_edge. intros Hs Hadd.
  destruct (dict_add d a b) as [d1|] eqn:E1; [|done]. simpl in Hadd.
  intros x y.
  rewrite !(dict_add_lookup_total d1 d' b a _ Hadd).
  rewrite !(dict_add_lookup_total d d1 a b _ E1).
  pose proof (Hs x y). pose proof (Hs a y). pose proof (Hs b y).
  pose proof (Hs x a). pose proof (Hs x b). pose proof (Hs a b).
  repeat destruct (decide _); subst; set_solver.
Qed.

Lemma add_from_symmetric (ys : list nat) (d d' : neighbours_dict) (x : nat) :
  symmetric d → add_from d x ys = Some d' → symmetric d'.
Proof.
  revert d; induction ys as [|y ys IH]; intros d Hs Hadd; simpl in Hadd.
  - by injection Hadd as <-.
  - destruct (add_edge d x y) as [d1|] eqn:E1; [|done]. simpl in Hadd.
    eapply IH; [|done]. by eapply add_edge_symmetric.
Qed.

Lemma add_simplex_symmetric (s : list nat) (d d' : neighbours_dict) :
  symmetric d → add_simplex d s = Some d' → symmetric d'.
Proof.
  revert d; induction s as [|x s IH]; intros d Hs Hadd; simpl in Hadd.
  - by injection Hadd as <-.
  - destruct (add_from d x s) as [d1|] eqn:E1; [|done]. simpl in Hadd.
    eapply IH; [|done]. by eapply add_from_symmetric.
Qed.

Lemma add_simplices_symmetric (ss : list (list nat)) (d d' : neighbours_dict) :
  symmetric d → add_simplices d ss = Some d' → symmetric d'.
Proof.
  revert d; induction ss as [|s ss IH]; intros d Hs Hadd; simpl in Hadd.
  - by injection Hadd as <-.
  - destruct (add_simplex d s) as [d1|] eqn:E1; [|done]. simpl in Hadd.
    eapply IH; [|done]. by eapply add_simplex_symmetric.
Qed.

Lemma init_dict_symmetric (npoints : nat) : symmetric (init_dict npoints).
Proof.
  intros a b. unfold init_dict. rewrite !lookup_total_alt, !init_dict_lookup.
  repeat destruct (decide _); simpl; set_solver.
Qed.

Lemma neighbours_row (npoints width : nat) (d : neighbours_dict) (i j : nat)
    (row : list (option nat)) :
  (pad width <$> neighbours_list npoints d) !! i = Some row →
  i < npoints ∧ (Some j ∈ row ↔ j ∈ d !!! i).
Proof.
  intros Hrow. rewrite list_lookup_fmap in Hrow. unfold neighbours_list in Hrow.
  rewrite list_lookup_fmap in Hrow.
  destruct (seq 0 npoints !! i) as [k|] eqn:Hk; [|done].
  apply lookup_seq in Hk as [-> Hlt]. simpl in Hrow. injection Hrow as <-.
  split; [done|]. unfold pad. rewrite elem_of_app, list_elem_of_fmap, elem_of_replicate.
  split.
  - intros [(j' & [= ->] & Hj)|[? _]]; [|done]. by apply elem_of_elements in Hj.
  - intros Hj. left. exists j. split; [done|]. by apply elem_of_elements.
Qed.

(** X5. With the delaunay method adjacency is symmetric: a cell is in the row
    of each cell of its own row. *)
Theorem delaunay_neighbours_symmetric (npoints : nat) (simplices : list (list nat))
    (nb : list (list (option nat))) (i j : nat) (row_i row_j : list (option nat)) :
  neighbours npoints simplices = Some nb →
  nb !! i = Some row_i → nb !! j = Some row_j →
  Some j ∈ row_i → Some i ∈ row_j.
Proof.
  unfold neighbours. intros Hnb Hi Hj Hin.
  destruct (add_simplices (init_dict npoints) simplices) as [d|] eqn:E; [|done].
  simpl in Hnb.
  destruct (max_neigh_len (neighbours_list npoints d)) as [width|]; [|done].
  simpl in Hnb. injection Hnb as <-.
  pose proof (add_simplices_symmetric _ _ _ (init_dict_symmetric npoints) E) as Hs.
  destruct (neighbours_row npoints width d i j row_i Hi) as [_ Hij].
  destruct (neighbours_row npoints width d j i row_j Hj) as [_ Hji].
  apply Hji, Hs, Hij, Hin.
Qed.

End DelaunaySymmetry.

(** Two triangles sharing an edge: cell 1 is in the row of cell 0, and
    cell 0 in the row of cell 1. *)
Lemma delaunay_neighbours_symmetric_witness :
  Delaunay.neighbours 4 [[0; 1; 2]; [1; 2; 3]] =
    Some [[Some 2; Some 1; None]; [Some 2; Some 3; Some 0];
          [Some 3; Some 1; Some 0]; [Some 2; Some 1; None]] ∧
  Some 0 ∈ [Some 2; Some 3; Some 0].
Proof.
  split; [by vm_compute|].
  apply (delaunay_neighbours_symmetric 4 [[0; 1; 2]; [1; 2; 3]]
           [[Some 2; Some 1; None]; [Some 2; Some 3; Some 0];
            [Some 3; Some 1; Some 0]; [Some 2; Some 1; None]]
           0 1 [Some 2; Some 1; None] [Some 2; Some 3; Some 0]).
  - by vm_compute.
  - reflexivity.
  - reflexivity.
  - rewrite !elem_of_cons. auto.
Defined.

Section Direction.

Lemma Qred_sub (x m : Q) : (Qred (x + Qred (- m)) == x - m)%Q.
Proof. rewrite !Qred_correct. reflexivity. Qed.

Lemma direction_value (d : fval) :
  (if isnan (fdiv d (fabs d)) then Fin 1 else fdiv d (fabs d)) =
  match d with
  | Fin q => if decide (q < 0)%Q then Fin (-1) else Fin 1
  | _ => Fin 1
  end.
Proof.
  destruct d as [q| | |]; try done.
  unfold fabs, fdiv, fin.
  destruct (decide (Qred (Qabs q) == 0)%Q) as [Hz|Hnz].
  - rewrite Qred_correct in Hz.
    assert (Hq : (q == 0)%Q).
    { assert (H1 : (q <= 0)%Q) by (rewrite <- Hz; apply Qle_Qabs).
      assert (H2 : (- q <= 0)%Q) by (rewrite <- Hz, <- Qabs_opp; apply Qle_Qabs).
      apply Qle_antisym; [done|].
      apply Qopp_le_compat in H2. rewrite Qopp_opp in H2. exact H2. }
    unfold inf_of_sign.
    rewrite !decide_False by (rewrite Hq; apply Qlt_irrefl). done.
  - rewrite Qred_correct in Hnz.
    destruct (decide (q < 0)%Q) as [Hneg|Hpos].
    + assert (E : (q / Qred (Qabs q) == -1)%Q).
      { rewrite Qred_correct, (Qabs_neg q) by (by apply Qlt_le_weak).
        field. intros Hq. rewrite Hq in Hneg. by apply Qlt_irrefl in Hneg. }
      rewrite (Qred_complete _ _ E). done.
    + assert (Hge : (0 <= q)%Q) by (by apply Qnot_lt_le).
      assert (E : (q / Qred (Qabs q) == 1)%Q).
      { rewrite Qred_correct, (Qabs_pos q) by done.
        field. intros Hq. apply Hnz. rewrite Hq. reflexivity. }
      rewrite (Qred_complete _ _ E). done.
Qed.

(** X6. The direction of every pair is +1 or -1, never NaN: for a finite
    observed value and a finite null mean it is -1 when the observed value
    is below the mean and +1 otherwise, the tie included (0/0 is NaN, filled
    with 1). *)
Theorem direction_of_sign (n_freq mean d : list fval) :
  direction_of n_freq mean = Some d →
  length d = length n_freq ∧
  Forall (λ v, v = Fin 1 ∨ v = Fin (-1)) d ∧
  ∀ i x m, n_freq !! i = Some (Fin x) → mean !! i = Some (Fin m) →
           d !! i = Some (if decide (x < m)%Q then Fin (-1) else Fin 1).
Proof.
  unfold direction_of, elementwise. intros Hd.
  destruct (decide (length n_freq = length mean)) as [Hlen|]; [|done].
  simpl in Hd. injection Hd as <-. split; [|split].
  - rewrite length_fmap, length_zip_with. lia.
  - apply Forall_fmap, Forall_true. intros v. unfold compose. cbv beta.
    rewrite direction_value. destruct v as [q| | |]; auto.
    destruct (decide _); auto.
  - intros i x m Hx Hm.
    rewrite list_lookup_fmap, lookup_zip_with, Hx.
    cbn [mbind option_bind]. rewrite Hm. cbn [mbind option_bind fmap option_fmap option_map].
    f_equal. rewrite direction_value. unfold fsub, fopp, fadd, fin.
    pose proof (Qred_sub x m) as E.
    destruct (decide (x < m)%Q) as [Hlt|Hge].
    + rewrite decide_True; [done|]. rewrite E.
      apply (Qplus_lt_l _ _ m). ring_simplify. done.
    + rewrite decide_False; [done|]. rewrite E. intros Hlt. apply Hge.
      apply (Qplus_lt_l _ _ m) in Hlt. ring_simplify in Hlt. done.
Qed.

End Direction.

(** Observed below, at and above the null mean. *)
Lemma direction_of_sign_witness :
  direction_of [Fin (1 # 2); Fin 1; Fin 2] [Fin 1; Fin 1; Fin 1] =
    Some [Fin (-1); Fin 1; Fin 1] ∧
  ([Fin (-1); Fin 1; Fin 1] : list fval) !! 1 = Some (Fin 1).
Proof.
  split; [reflexivity|].
  destruct (direction_of_sign [Fin (1 # 2); Fin 1; Fin 2] [Fin 1; Fin 1; Fin 1]
              [Fin (-1); Fin 1; Fin 1] eq_refl) as (_ & _ & H).
  apply (H 1%nat 1%Q 1%Q); reflexivity.
Defined.

Section AbsBounds.

Lemma count_fraction_bounds (c permutation : nat) :
  c ≤ permutation →
  (0 <= Qred (inject_Z (Z.of_nat c) / inject_Z (Z.of_nat (permutation + 1))))%Q ∧
  (Qred (inject_Z (Z.of_nat c) / inject_Z (Z.of_nat (permutation + 1))) < 1)%Q.
Proof.
  intros Hc. rewrite Qred_correct.
  assert (Hpos : (0 < inject_Z (Z.of_nat (permutation + 1)))%Q).
  { rewrite <- (Zlt_Qlt 0). lia. }
  split.
  - apply Qle_shift_div_l; [done|]. rewrite Qmult_0_l.
    rewrite <- (Zle_Qle 0). lia.
  - apply Qlt_shift_div_r; [done|]. rewrite Qmult_1_l.
    rewrite <- Zlt_Qlt. lia.
Qed.

(** The fraction of a count of trials of one row over [permutation + 1]. *)
Lemma abs_fractions (perm : list (list fval)) (n_freq : list fval) (permutation : nat) :
  Forall (λ row, length row ≤ permutation) perm →
  Forall (λ v, ∃ q, v = Fin q ∧ (0 <= q)%Q ∧ (q < 1)%Q)
    ((λ c : nat, fdiv (of_nat c) (of_nat (permutation + 1))) <$>
       zip_with (λ (row : list fval) (x : fval),
                   length (filter (λ v, fge v x = true) row)) perm n_freq).
Proof.
  intros Hrows. apply Forall_fmap. revert n_freq.
  induction Hrows as [|row perm' Hrow _ IH]; intros [|x n_freq]; try constructor.
  - unfold compose. rewrite fdiv_counts. eexists. split; [done|].
    apply count_fraction_bounds.
    etrans; [apply length_filter | done].
  - apply IH.
Qed.

(** X7. With one row of [perm] per pair and at most [permutation] trials in
    a row, the 'abs' p-values are built (no error), one per pair, each a
    finite number at least 0 and strictly below 1. *)
Theorem p_values_abs_bounds (perm : list (list fval)) (n_freq : list fval)
    (permutation : nat) :
  length perm = length n_freq → Forall (λ row, length row ≤ permutation) perm →
  ∃ p, p_values_abs perm n_freq permutation = Some p ∧
       length p = length n_freq ∧
       Forall (λ v, ∃ q, v = Fin q ∧ (0 <= q)%Q ∧ (q < 1)%Q) p.
Proof.
  intros Hlen Hrows. unfold p_values_abs, elementwise.
  rewrite decide_True by done. cbn [mbind option_bind].
  pose proof (abs_fractions perm n_freq permutation Hrows) as Hall.
  eexists. split; [done|]. rewrite notna_id.
  - split; [|done]. rewrite length_fmap, length_zip_with. lia.
  - eapply Forall_impl; [exact Hall|]. intros v (q & -> & _). done.
Qed.

End AbsBounds.

(** One pair, three trials. *)
Lemma p_values_abs_bounds_witness :
  ∃ p, p_values_abs [[Fin 0; Fin (1 # 2); Fin 1]] [Fin 0] 3 = Some p ∧
       length p = 1 ∧
       Forall (λ v, ∃ q, v = Fin q ∧ (0 <= q)%Q ∧ (q < 1)%Q) p.
Proof.
  apply (p_values_abs_bounds [[Fin 0; Fin (1 # 2); Fin 1]] [Fin 0] 3).
  - reflexivity.
  - repeat constructor.
Defined.

Section ConditionalObserved.

Lemma remove_dups_length {A : Type} `{EqDecision A} (l : list A) :
  length (remove_dups l) ≤ length l.
Proof.
  induction l as [|x l IH]; simpl; [done|].
  destruct (decide_rel elem_of x l); simpl; lia.
Qed.

Lemma distinct_cells_le (df : list InteractionRow) (i j : string) :
  distinct_cells df i j ≤ pair_count df i j.
Proof.
  unfold distinct_cells, pair_count.
  etrans; [apply remove_dups_length|]. by rewrite length_fmap.
Qed.

Lemma distinct_cells_zero (df : list InteractionRow) (i j : string) :
  distinct_cells df i j = 0 → pair_count df i j = 0.
Proof.
  unfold distinct_cells, pair_count. intros Hz.
  destruct (filter _ df) as [|r l]; [done|]. exfalso.
  apply nil_length_inv in Hz.
  assert (Hin : index r ∈ remove_dups (index <$> r :: l)).
  { apply elem_of_remove_dups. rewrite fmap_cons. by left. }
  rewrite Hz in Hin. by apply elem_of_nil in Hin.
Qed.

Lemma cond_value_entry (threshold : Z) (df : list InteractionRow) (i j : string) :
  fillna0 (if decide (Z.of_nat (distinct_cells df i j) < threshold)%Z then NaN
           else fdiv (of_nat (pair_count df i j)) (of_nat (distinct_cells df i j))) =
  cond_value threshold df i j.
Proof.
  unfold cond_value. cbv zeta.
  destruct (decide (Z.of_nat (distinct_cells df i j) < threshold)%Z); [done|].
  destruct (decide (distinct_cells df i j = 0)) as [Hz|Hnz].
  - rewrite (distinct_cells_zero _ _ _ Hz), Hz. done.
  - unfold fdiv, of_nat, fin. rewrite decide_False; [done|].
    unfold Qeq. simpl. lia.
Qed.

Lemma cond_value_range (threshold : Z) (df : list InteractionRow) (i j : string) :
  cond_value threshold df i j = Fin 0 ∨
  ∃ q, cond_value threshold df i j = Fin q ∧ (1 <= q)%Q.
Proof.
  unfold cond_value. cbv zeta.
  destruct (decide (Z.of_nat (distinct_cells df i j) < threshold)%Z); [by left|].
  destruct (decide (distinct_cells df i j = 0)) as [Hz|Hnz]; [by left|].
  right. eexists. split; [done|]. rewrite Qred_correct.
  pose proof (distinct_cells_le df i j) as Hle.
  apply Qle_shift_div_l.
  - rewrite <- (Zlt_Qlt 0). lia.
  - rewrite Qmult_1_l, <- Zle_Qle. lia.
Qed.

(** X8. Under conditional normalization the observed frequency of the pair
    (i, j) is the number of rows of the pair over the number of distinct
    cells of phenotype i behind them; it is 0 when those cells are fewer
    than [cond_counts_threshold], or when the pair has no row. Every entry is
    therefore 0 or a finite number at least 1. *)
Theorem observed_conditional_values (cats : list string) (threshold : Z)
    (n : list InteractionRow) :
  observed_conditional cats threshold n =
    concat ((λ i : string, (λ j : string, cond_value threshold n i j)
                             <$> neighbour_levels n) <$> cats) ∧
  Forall (λ v, v = Fin 0 ∨ ∃ q, v = Fin q ∧ (1 <= q)%Q)
         (observed_conditional cats threshold n).
Proof.
  assert (E : observed_conditional cats threshold n =
    concat ((λ i : string, (λ j : string, cond_value threshold n i j)
                             <$> neighbour_levels n) <$> cats)).
  { destruct (decide (n = [])) as [->|Hne].
    { change (observed_conditional cats threshold []) with (@nil fval).
      change (neighbour_levels []) with (@nil string).
      clear. induction cats as [|c cats IH]; [done|]. simpl. exact IH. }
    unfold observed_conditional, flatten, mask_below.
    rewrite div_cells_size_unstack. unfold size_unstack.
    rewrite neighbour_levels_drop_duplicates, frame_index_drop_duplicates,
      (frame_index_rows cats n Hne).
    rewrite zip_with_fmap_l, zip_with_fmap_r, zip_with_diag, <- list_fmap_compose.
    f_equal. apply list_fmap_ext. intros _ i _. unfold compose.
    rewrite zip_with_fmap_l, zip_with_fmap_r, zip_with_diag, <- list_fmap_compose.
    apply list_fmap_ext. intros _ j _. unfold compose.
    rewrite pair_count_drop_duplicates. apply cond_value_entry. }
  split; [exact E|]. rewrite E.
  apply Forall_concat, Forall_fmap, Forall_true. intros i. unfold compose.
  apply Forall_fmap, Forall_true. intros j. apply cond_value_range.
Qed.

End ConditionalObserved.

Section PhenotypeMapperFacts.

Lemma elem_of_concat {A : Type} (ls : list (list A)) (x : A) :
  x ∈ concat ls ↔ ∃ l, l ∈ ls ∧ x ∈ l.
Proof.
  rewrite list_elem_of_In, in_concat. split; intros (l & Hl & Hx); exists l.
  - by rewrite !list_elem_of_In.
  - by rewrite <- !list_elem_of_In.
Qed.

(** X9. The edge table holds a row for cell [i] and phenotypes [(p, q)]
    exactly when [i] is a cell of phenotype [p] and some filled slot of its
    neighbour row names a cell of phenotype [q]: missing slots and slots
    that name no cell give no row, and every row carries the phenotype of
    the cell it belongs to. *)
Theorem phenotype_mapper_rows (phen : list string) (neighbours : list (list (option nat)))
    (r : InteractionRow) :
  r ∈ phenotype_mapper phen neighbours ↔
  ∃ row j, neighbours !! index r = Some row ∧ Some j ∈ row ∧
           phen !! index r = Some (phenotype r) ∧
           phen !! j = Some (neighbour_phenotype r).
Proof.
  unfold phenotype_mapper, stack_rows, map_phenotypes.
  rewrite elem_of_concat. split.
  - intros (l & Hl & Hr).
    apply elem_of_lookup_imap in Hl as (i & mrow & -> & Hi).
    apply list_elem_of_omap in Hr as (slot & Hslot & Hsome).
    rewrite list_lookup_fmap in Hi.
    destruct (neighbours !! i) as [row|] eqn:Hrow; [|done].
    simpl in Hi. injection Hi as <-.
    apply list_elem_of_fmap in Hslot as (s & -> & Hs).
    destruct s as [j|]; [|done]. simpl in Hsome.
    destruct (phen !! j) as [q|] eqn:Hq; [|done]. simpl in Hsome.
    destruct (phen !! i) as [p|] eqn:Hp; [|done]. simpl in Hsome.
    injection Hsome as <-. simpl. rewrite Hrow, Hp. exists row, j. by rewrite Hq.
  - intros (row & j & Hrow & Hj & Hp & Hq).
    exists (omap (λ slot : option string, np ← slot; own ← phen !! index r;
                    Some {| index := index r; neighbour_phenotype := np; phenotype := own |})
              ((λ slot : option nat, j ← slot; phen !! j) <$> row)).
    split.
    + apply elem_of_lookup_imap. eexists (index r), _. split; [done|].
      by rewrite list_lookup_fmap, Hrow.
    + apply list_elem_of_omap. exists (Some (neighbour_phenotype r)). split.
      * apply list_elem_of_fmap. exists (Some j). by rewrite <- Hq.
      * simpl. rewrite Hp. simpl. by destruct r.
Qed.

End PhenotypeMapperFacts.

(** Three cells, the first one adjacent to the third. *)
Lemma phenotype_mapper_rows_witness :
  {| index := 0; neighbour_phenotype := "B"; phenotype := "A" |}%string ∈
    phenotype_mapper ["A"; "A"; "B"]%string [[Some 2]; [None]; [Some 0]].
Proof.
  apply (phenotype_mapper_rows ["A"; "A"; "B"]%string [[Some 2]; [None]; [Some 0]]).
  exists [Some 2], 2. repeat split; try reflexivity. by left.
Defined.

Section ShuffleInvariants.

Context {R : NumpyRandom}.

Lemma assign_neighbour_index (df : list InteractionRow) (col : list string) :
  length df ≤ length col → index <$> assign_neighbour df col = index <$> df.
Proof.
  unfold assign_neighbour. revert col.
  induction df as [|r df IH]; intros [|p col] Hlen; simpl in *; try done; [lia|].
  f_equal. apply IH. lia.
Qed.

Lemma assign_neighbour_phenotype (df : list InteractionRow) (col : list string) :
  length df ≤ length col → phenotype <$> assign_neighbour df col = phenotype <$> df.
Proof.
  unfold assign_neighbour. revert col.
  induction df as [|r df IH]; intros [|p col] Hlen; simpl in *; try done; [lia|].
  f_equal. apply IH. lia.
Qed.

Lemma drop_duplicates_seen_fmap {A K : Type} `{EqDecision K}
    (key : A → K) (seen : list K) (l : list A) :
  key <$> drop_duplicates_seen key seen l =
  drop_duplicates_seen (λ k, k) seen (key <$> l).
Proof.
  revert seen; induction l as [|x l IH]; intros seen; simpl; [done|].
  destruct (decide (key x ∈ seen)); [apply IH|].
  rewrite fmap_cons. f_equal. apply IH.
Qed.

Lemma filter_fmap_length {A B : Type} (f : A → B) (P : B → Prop)
    `{∀ y, Decision (P y)} (l : list A) :
  length (filter P (f <$> l)) = length (filter (λ x, P (f x)) l).
Proof.
  induction l as [|x l IH]; [done|].
  rewrite fmap_cons, !filter_cons. destruct (decide (P (f x))); simpl; by rewrite IH.
Qed.

(** The cells that own a row are read off the index and phenotype columns. *)
Lemma cells_with_rows_columns (df : list InteractionRow) (i : string) :
  cells_with_rows df i =
  length (filter (λ k : nat * string, k.2 = i)
            (drop_duplicates (λ k, k) ((λ r, (index r, phenotype r)) <$> df))).
Proof.
  unfold cells_with_rows, drop_duplicates.
  rewrite <- drop_duplicates_seen_fmap.
  by rewrite (filter_fmap_length (λ r, (index r, phenotype r)) (λ k, k.2 = i)).
Qed.

Lemma key_column (df : list InteractionRow) :
  (λ r, (index r, phenotype r)) <$> df = zip (index <$> df) (phenotype <$> df).
Proof. induction df as [|r df IH]; simpl; [done|]. f_equal. apply IH. Qed.

Lemma indicator_sum (levels : list string) (x : string) :
  NoDup levels → x ∈ levels →
  sum_list ((λ j, if decide (x = j) then 1 else 0) <$> levels) = 1.
Proof.
  induction 1 as [|y levels Hy Hnd IH]; intros Hx; [by apply elem_of_nil in Hx|].
  rewrite fmap_cons. simpl. apply elem_of_cons in Hx as [->|Hx].
  - rewrite decide_True by done.
    rewrite (sum_list_fmap_same 0); [lia|].
    apply Forall_forall. intros j Hj. rewrite decide_False; [done|]. by intros ->.
  - rewrite decide_False by (by intros ->). by rewrite IH.
Qed.

Lemma phenotype_rows_column (df : list InteractionRow) (i : string) :
  length (filter (λ r, phenotype r = i) df) =
  length (filter (λ p, p = i) (phenotype <$> df)).
Proof.
  induction df as [|r df IH]; [done|].
  rewrite fmap_cons, !filter_cons.
  destruct (decide (phenotype r = i)); simpl; by rewrite IH.
Qed.

(** The counts of a row of the frame add up to the rows of its phenotype. *)
Lemma pair_count_row_sum (df : list InteractionRow) (levels : list string) (i : string) :
  NoDup levels → Forall (λ r, neighbour_phenotype r ∈ levels) df →
  sum_list ((λ j, pair_count df i j) <$> levels) =
  length (filter (λ r, phenotype r = i) df).
Proof.
  intros Hnd. induction 1 as [|r df Hr _ IH].
  - rewrite (sum_list_fmap_same 0); [simpl; lia|]. by apply Forall_true.
  - rewrite filter_cons.
    assert (E : (λ j, pair_count (r :: df) i j) <$> levels =
                zip_with Nat.add
                  ((λ j, if decide (phenotype r = i)
                         then (if decide (neighbour_phenotype r = j) then 1 else 0)
                         else 0) <$> levels)
                  ((λ j, pair_count df i j) <$> levels)).
    { rewrite zip_with_fmap_l, zip_with_fmap_r, zip_with_diag.
      apply list_fmap_ext. intros _ j _. unfold pair_count. rewrite filter_cons.
      destruct (decide (phenotype r = i)) as [Hp|Hp].
      - destruct (decide (neighbour_phenotype r = j)) as [Hq|Hq].
        + rewrite decide_True by done. done.
        + rewrite decide_False by tauto. done.
      - rewrite decide_False by tauto. done. }
    rewrite E. clear E.
    assert (Hsum : ∀ (a b : list nat), length a = length b →
              sum_list (zip_with Nat.add a b) = sum_list a + sum_list b).
    { induction a as [|x a IHa]; intros [|y b] Hl; simpl in *; try done.
      rewrite IHa by lia. lia. }
    rewrite Hsum by (by rewrite !length_fmap). rewrite IH.
    destruct (decide (phenotype r = i)) as [Hp|Hp].
    + rewrite (indicator_sum levels (neighbour_phenotype r) Hnd Hr). simpl. done.
    + rewrite (sum_list_fmap_same 0); [simpl; lia|]. by apply Forall_true.
Qed.

(** X10. A trial whose shuffle permutes the neighbour column leaves the
    index and phenotype columns of the table as they are and keeps the
    neighbour phenotypes as a multiset. So each phenotype keeps its number
    of edges (the sum of its row of the count frame) and, under total
    normalization, its denominator: only the numerators change from trial
    to trial. *)
Theorem shuffle_invariants (data : list InteractionRow) (seed : Z) :
  (rng_permutation (rng_seed seed) (neighbour_phenotype <$> data)).1
    ≡ₚ neighbour_phenotype <$> data →
  index <$> shuffled data seed = index <$> data ∧
  phenotype <$> shuffled data seed = phenotype <$> data ∧
  neighbour_phenotype <$> shuffled data seed ≡ₚ neighbour_phenotype <$> data ∧
  (∀ i, cells_with_rows (shuffled data seed) i = cells_with_rows data i) ∧
  (∀ i, sum_list ((λ j, pair_count (shuffled data seed) i j)
                    <$> neighbour_levels (shuffled data seed)) =
        length (filter (λ r, phenotype r = i) data)).
Proof.
  intros Hperm. unfold shuffled.
  set (col := (rng_permutation (rng_seed seed) (neighbour_phenotype <$> data)).1) in *.
  assert (Hlen : length col = length data).
  { rewrite (Permutation_length Hperm). by rewrite length_fmap. }
  assert (Hi : index <$> assign_neighbour data col = index <$> data)
    by (apply assign_neighbour_index; lia).
  assert (Hp : phenotype <$> assign_neighbour data col = phenotype <$> data)
    by (apply assign_neighbour_phenotype; lia).
  split; [done|]. split; [done|]. split; [|split].
  - by rewrite (assign_neighbour_column _ _ Hlen).
  - intros i. by rewrite !cells_with_rows_columns, !key_column, Hi, Hp.
  - intros i. rewrite pair_count_row_sum.
    + by rewrite !phenotype_rows_column, Hp.
    + apply np_unique_NoDup.
    + apply Forall_forall. intros r Hr. apply neighbour_levels_elem. eauto.
Qed.

End ShuffleInvariants.

(** A table of three rows, rotated by one. *)
Lemma shuffle_invariants_witness :
  let n := [ {| index := 0; neighbour_phenotype := "B"; phenotype := "A" |};
             {| index := 0; neighbour_phenotype := "A"; phenotype := "A" |};
             {| index := 1; neighbour_phenotype := "A"; phenotype := "B" |} ]%string in
  index <$> @shuffled rotate_rng n 1 = [0; 0; 1] ∧
  phenotype <$> @shuffled rotate_rng n 1 = ["A"; "A"; "B"]%string ∧
  neighbour_phenotype <$> @shuffled rotate_rng n 1 ≡ₚ ["B"; "A"; "A"]%string ∧
  (∀ i, cells_with_rows (@shuffled rotate_rng n 1) i = cells_with_rows n i) ∧
  (∀ i, sum_list ((λ j, pair_count (@shuffled rotate_rng n 1) i j)
                    <$> neighbour_levels (@shuffled rotate_rng n 1)) =
        length (filter (λ r, phenotype r = i) n)).
Proof.
  intros n. apply (@shuffle_invariants rotate_rng n 1).
  by apply (bool_decide_unpack _).
Defined.

Section DelaunayAdjacency.
Import Delaunay.

Lemma add_edge_lookup (d d' : neighbours_dict) (a b x y : nat) :
  add_edge d a b = Some d' →
  y ∈ d' !!! x ↔ y ∈ d !!! x ∨ (x = a ∧ y = b) ∨ (x = b ∧ y = a).
Proof.
  unfold add_edge. intros Hadd.
  destruct (dict_add d a b) as [d1|] eqn:E1; [|done]. simpl in Hadd.
  rewrite (dict_add_lookup_total d1 d' b a _ Hadd).
  rewrite !(dict_add_lookup_total d d1 a b _ E1).
  repeat destruct (decide _); subst; set_solver.
Qed.

Lemma add_from_lookup (ys : list nat) (d d' : neighbours_dict) (x a b : nat) :
  add_from d x ys = Some d' →
  b ∈ d' !!! a ↔ b ∈ d !!! a ∨ (a = x ∧ b ∈ ys) ∨ (b = x ∧ a ∈ ys).
Proof.
  revert d; induction ys as [|y ys IH]; intros d Hadd; simpl in Hadd.
  - injection Hadd as <-. rewrite !elem_of_nil. tauto.
  - destruct (add_edge d x y) as [d1|] eqn:E1; [|done]. simpl in Hadd.
    rewrite (IH _ Hadd), (add_edge_lookup _ _ _ _ _ _ E1), !elem_of_cons.
    tauto.
Qed.

Lemma in_simplex_cons (h : nat) (t : list nat) (a b : nat) :
  in_simplex (h :: t) a b ↔ (a = h ∧ b ∈ t) ∨ (b = h ∧ a ∈ t) ∨ in_simplex t a b.
Proof.
  unfold in_simplex. split.
  - intros (p & q & Hpq & Hp & Hq). destruct p as [|p], q as [|q]; simpl in *.
    + done.
    + left. injection Hp as ->. split; [done|]. by eapply list_elem_of_lookup_2.
    + right; left. injection Hq as ->. split; [done|]. by eapply list_elem_of_lookup_2.
    + right; right. exists p, q. split; [congruence | done].
  - intros [[-> Hb]|[[-> Ha]|(p & q & Hpq & Hp & Hq)]].
    + apply list_elem_of_lookup in Hb as [q Hq]. exists 0, (S q). done.
    + apply list_elem_of_lookup in Ha as [p Hp]. exists (S p), 0. done.
    + exists (S p), (S q). split; [congruence | done].
Qed.

Lemma add_simplex_lookup (s : list nat) (d d' : neighbours_dict) (a b : nat) :
  add_simplex d s = Some d' →
  b ∈ d' !!! a ↔ b ∈ d !!! a ∨ in_simplex s a b.
Proof.
  revert d; induction s as [|x s IH]; intros d Hadd; simpl in Hadd.
  - injection Hadd as <-. split; [tauto|].
    intros [?|(p & q & _ & Hp & _)]; [done|]. by rewrite lookup_nil in Hp.
  - destruct (add_from d x s) as [d1|] eqn:E1; [|done]. simpl in Hadd.
    rewrite (IH _ Hadd), (add_from_lookup _ _ _ _ _ _ E1), in_simplex_cons. tauto.
Qed.

Lemma add_simplices_lookup (ss : list (list nat)) (d d' : neighbours_dict) (a b : nat) :
  add_simplices d ss = Some d' →
  b ∈ d' !!! a ↔ b ∈ d !!! a ∨ share_simplex ss a b.
Proof.
  unfold share_simplex.
  revert d; induction ss as [|s ss IH]; intros d Hadd; simpl in Hadd.
  - injection Hadd as <-. split; [tauto|].
    intros [?|(s & Hs & _)]; [done|]. by apply elem_of_nil in Hs.
  - destruct (add_simplex d s) as [d1|] eqn:E1; [|done]. simpl in Hadd.
    rewrite (IH _ Hadd), (add_simplex_lookup _ _ _ _ _ E1). split.
    + intros [[?|?]|(s' & Hs' & ?)]; [tauto | | ].
      * right. exists s. split; [by left | done].
      * right. exists s'. split; [by right | done].
    + intros [?|(s' & Hs' & ?)]; [tauto|].
      apply elem_of_cons in Hs' as [->|Hs']; [tauto|]. right. eauto.
Qed.

(** X11. With the delaunay method the row of cell [i] holds cell [j]
    exactly when some simplex holds [i] and [j] at two of its positions:
    every pair of vertices of a simplex is adjacent, and nothing else is. *)
Theorem delaunay_neighbours_exact (npoints : nat) (simplices : list (list nat))
    (nb : list (list (option nat))) (i j : nat) (row : list (option nat)) :
  neighbours npoints simplices = Some nb → nb !! i = Some row →
  Some j ∈ row ↔ share_simplex simplices i j.
Proof.
  unfold neighbours. intros Hnb Hi.
  destruct (add_simplices (init_dict npoints) simplices) as [d|] eqn:E; [|done].
  simpl in Hnb.
  destruct (max_neigh_len (neighbours_list npoints d)) as [width|]; [|done].
  simpl in Hnb. injection Hnb as <-.
  destruct (neighbours_row npoints width d i j row Hi) as [_ ->].
  rewrite (add_simplices_lookup _ _ _ _ _ E).
  assert (Hempty : j ∉ init_dict npoints !!! i).
  { unfold init_dict. rewrite lookup_total_alt, init_dict_lookup.
    destruct (decide _); simpl; set_solver. }
  tauto.
Qed.

End DelaunayAdjacency.

(** Two triangles sharing the edge 1-2: the cells 0 and 3 share no simplex. *)
Lemma delaunay_neighbours_exact_witness :
  (Some 2 ∈ [Some 2; Some 1; None] ↔ share_simplex [[0; 1; 2]; [1; 2; 3]] 0 2) ∧
  (Some 3 ∈ [Some 2; Some 1; None] ↔ share_simplex [[0; 1; 2]; [1; 2; 3]] 0 3).
Proof.
  split;
    apply (delaunay_neighbours_exact 4 [[0; 1; 2]; [1; 2; 3]]
             [[Some 2; Some 1; None]; [Some 2; Some 3; Some 0];
              [Some 3; Some 1; Some 0]; [Some 2; Some 1; None]] 0 _ [Some 2; Some 1; None]);
    (by vm_compute) || reflexivity.
Defined.

Section NullMatrix.

Lemma max_lengths_same (fs : list (list fval)) (width : nat) :
  fs ≠ [] → Forall (λ t, length t = width) fs →
  foldr Nat.max 0 (length <$> fs) = width.
Proof.
  intros Hne Hall. destruct Hall as [|t fs Ht Hall]; [done|]. clear Hne.
  rewrite fmap_cons. simpl. rewrite Ht. unfold fmap.
  induction Hall as [|t' fs' Ht' _ IH]; simpl; [lia|].
  rewrite Ht'. lia.
Qed.

(** X13. [perm] holds one row per phenotype pair and one column per trial:
    with at least one trial and trial vectors of one length, it has as many
    rows as a trial vector has entries, every row has one entry per trial,
    and the entry of row [r] and column [t] is the value of trial [t] for
    pair [r]. *)
Theorem transpose_scores_entries (final_scores : list (list fval)) (width : nat) :
  final_scores ≠ [] → Forall (λ t, length t = width) final_scores →
  length (transpose_scores final_scores) = width ∧
  Forall (λ row, length row = length final_scores) (transpose_scores final_scores) ∧
  ∀ r t trial, r < width → final_scores !! t = Some trial →
    transpose_scores final_scores !! r ≫= (λ row, row !! t) = trial !! r.
Proof.
  intros Hne Hall. unfold transpose_scores.
  rewrite (max_lengths_same _ _ Hne Hall). split; [|split].
  - by rewrite length_fmap, length_seq.
  - apply Forall_fmap, Forall_true. intros r. unfold compose. by rewrite length_fmap.
  - intros r t trial Hr Ht.
    rewrite list_lookup_fmap, lookup_seq_lt by done. simpl.
    rewrite list_lookup_fmap, Ht. simpl.
    rewrite Forall_forall in Hall.
    assert (Hlen : length trial = width) by (apply Hall; by eapply list_elem_of_lookup_2).
    destruct (lookup_lt_is_Some_2 trial r) as [x Hx]; [lia|]. by rewrite Hx.
Qed.

End NullMatrix.

(** Two trials over three pairs. *)
Lemma transpose_scores_entries_witness :
  length (transpose_scores [[Fin 0; Fin 1; Fin 2]; [Fin 3; Fin 4; Fin 5]]) = 3 ∧
  transpose_scores [[Fin 0; Fin 1; Fin 2]; [Fin 3; Fin 4; Fin 5]] =
    [[Fin 0; Fin 3]; [Fin 1; Fin 4]; [Fin 2; Fin 5]].
Proof.
  split; [|reflexivity].
  apply (transpose_scores_entries [[Fin 0; Fin 1; Fin 2]; [Fin 3; Fin 4; Fin 5]] 3).
  - done.
  - repeat constructor.
Defined.

Section ScaledRows.

Lemma notna_finite (qs : list Q) : notna (Fin <$> qs) = Fin <$> qs.
Proof. apply notna_id, Forall_fmap, Forall_true. done. Qed.

Lemma foldl_fmin2 (xs : list Q) (a : Q) :
  ∃ m, foldl fmin2 (Fin a) (Fin <$> xs) = Fin m ∧ m ∈ a :: xs ∧
       Forall (λ x, m <= x)%Q (a :: xs).
Proof.
  revert a; induction xs as [|x xs IH]; intros a.
  - exists a. split; [done|]. split; [by left|]. constructor; [apply Qle_refl | done].
  - rewrite fmap_cons. simpl foldl. unfold fmin2 at 2, fle.
    destruct (bool_decide_reflect (a <= x)%Q) as [Hle|Hgt].
    + destruct (IH a) as (m & -> & Hin & Hall). exists m. split; [done|].
      apply Forall_cons in Hall as [Hma Hall]. split.
      * apply elem_of_cons in Hin as [->|Hin]; [by left | by right; right].
      * repeat constructor; try done. by apply (Qle_trans _ a).
    + destruct (IH x) as (m & -> & Hin & Hall). exists m. split; [done|].
      apply Forall_cons in Hall as [Hmx Hall]. split; [by right|].
      apply Qnot_le_lt in Hgt.
      repeat constructor; try done.
      apply (Qle_trans _ x); [exact Hmx | by apply Qlt_le_weak].
Qed.

Lemma foldl_fmax2 (xs : list Q) (a : Q) :
  ∃ m, foldl fmax2 (Fin a) (Fin <$> xs) = Fin m ∧ m ∈ a :: xs ∧
       Forall (λ x, x <= m)%Q (a :: xs).
Proof.
  revert a; induction xs as [|x xs IH]; intros a.
  - exists a. split; [done|]. split; [by left|]. constructor; [apply Qle_refl | done].
  - rewrite fmap_cons. simpl foldl. unfold fmax2 at 2, fle.
    destruct (bool_decide_reflect (a <= x)%Q) as [Hle|Hgt].
    + destruct (IH x) as (m & -> & Hin & Hall). exists m. split; [done|].
      apply Forall_cons in Hall as [Hxm Hall]. split; [by right|].
      repeat constructor; try done. by apply (Qle_trans _ x).
    + destruct (IH a) as (m & -> & Hin & Hall). exists m. split; [done|].
      apply Forall_cons in Hall as [Ham Hall]. split.
      * apply elem_of_cons in Hin as [->|Hin]; [by left | by right; right].
      * apply Qnot_le_lt in Hgt.
        repeat constructor; try done.
        apply (Qle_trans _ a); [by apply Qlt_le_weak | exact Ham].
Qed.

(** The minimum and the maximum of a row of finite values are entries of
    the row that bound it. *)
Lemma finite_row_extrema (qs : list Q) :
  qs ≠ [] →
  ∃ mn mx, nanmin (Fin <$> qs) = Fin mn ∧ nanmax (Fin <$> qs) = Fin mx ∧
           mn ∈ qs ∧ mx ∈ qs ∧ Forall (λ x, mn <= x ∧ x <= mx)%Q qs.
Proof.
  intros Hne. destruct qs as [|a xs]; [done|].
  unfold nanmin, nanmax. rewrite notna_finite, fmap_cons.
  destruct (foldl_fmin2 xs a) as (mn & -> & Hmn & Hmin).
  destruct (foldl_fmax2 xs a) as (mx & -> & Hmx & Hmax).
  exists mn, mx. repeat split; try done.
  rewrite Forall_forall in Hmin, Hmax. apply Forall_forall. intros x Hx. split; auto.
Qed.

Lemma scale_value_finite (x mn mx : Q) :
  ¬ (mx - mn == 0)%Q →
  ∃ q, scale_value (Fin x) (Fin mn) (Fin mx) = Fin q ∧
       (q == 2 * (x - mn) / (mx - mn) - 1)%Q.
Proof.
  intros Hnz. unfold scale_value, fsub, fopp, fadd, fmul, fdiv, fin.
  rewrite decide_False by (by rewrite Qred_sub).
  eexists. split; [done|].
  rewrite !Qred_correct. reflexivity.
Qed.

Lemma scaled_row_bounds (qs : list Q) (mn mx : Q) :
  nanmin (Fin <$> qs) = Fin mn → nanmax (Fin <$> qs) = Fin mx →
  Forall (λ x, mn <= x ∧ x <= mx)%Q qs →
  perm_scaled [Fin <$> qs] =
    [(λ x, scale_value (Fin x) (Fin mn) (Fin mx)) <$> qs] ∧
  ((mn < mx)%Q →
   Forall (λ x, ∃ q, scale_value (Fin x) (Fin mn) (Fin mx) = Fin q ∧
                     (-1 <= q)%Q ∧ (q <= 1)%Q ∧
                     ((x == mn)%Q → (q == -1)%Q) ∧ ((x == mx)%Q → (q == 1)%Q)) qs) ∧
  ((mn == mx)%Q →
   Forall (λ x, scale_value (Fin x) (Fin mn) (Fin mx) = NaN) qs).
Proof.
  intros Hmin Hmax Hbounds. split; [|split].
  - unfold perm_scaled. simpl. rewrite Hmin, Hmax. f_equal.
    rewrite <- list_fmap_compose. done.
  - intros Hlt. eapply Forall_impl; [exact Hbounds|]. intros x [Hlo Hhi].
    assert (Hpos : (0 < mx - mn)%Q).
    { apply (Qplus_lt_l _ _ mn). ring_simplify. done. }
    assert (Hnz : ¬ (mx - mn == 0)%Q).
    { intros E. rewrite E in Hpos. by apply Qlt_irrefl in Hpos. }
    destruct (scale_value_finite x mn mx Hnz) as (q & -> & Eq).
    exists q. split; [done|]. rewrite Eq.
    assert (H0 : (0 <= 2 * (x - mn) / (mx - mn))%Q).
    { apply Qle_shift_div_l; [done|]. rewrite Qmult_0_l.
      apply (Qplus_le_l _ _ (2 * mn)). ring_simplify.
      apply Qmult_le_l; [reflexivity | done]. }
    assert (H2 : (2 * (x - mn) / (mx - mn) <= 2)%Q).
    { apply Qle_shift_div_r; [done|].
      apply (Qplus_le_l _ _ (2 * mn)). ring_simplify.
      apply Qmult_le_l; [reflexivity | done]. }
    split; [|split; [|split]].
    + apply (Qplus_le_l _ _ 1). ring_simplify. exact H0.
    + apply (Qplus_le_l _ _ 1). ring_simplify. exact H2.
    + intros E. rewrite E. field. exact Hnz.
    + intros E. rewrite E. field. exact Hnz.
  - intros Heq. eapply Forall_impl; [exact Hbounds|]. intros x [Hlo Hhi].
    assert (Hx : (x == mn)%Q).
    { apply Qle_antisym; [|done]. by rewrite Heq. }
    unfold scale_value, fsub, fopp, fadd, fmul, fdiv, fin.
    rewrite decide_True by (rewrite Qred_sub, Heq; ring).
    unfold inf_of_sign.
    assert (E : (Qred (2 * Qred (x + Qred (- mn))) == 0)%Q).
    { rewrite Qred_correct, Qred_sub, Hx. ring. }
    rewrite !decide_False by (rewrite E; apply Qlt_irrefl). done.
Qed.

(** X15. Scaling maps a row of finite trial values that are not all equal
    into [-1, 1]: every scaled entry is a finite number between -1 and 1
    (the row minimum going to -1 and the maximum to 1). A row whose values
    are all equal has no range to divide by: each of its scaled entries is
    NaN. *)
Theorem perm_scaled_range (qs : list Q) :
  qs ≠ [] →
  ∃ mn mx, mn ∈ qs ∧ mx ∈ qs ∧ Forall (λ x, mn <= x ∧ x <= mx)%Q qs ∧
    perm_scaled [Fin <$> qs] =
      [(λ x, scale_value (Fin x) (Fin mn) (Fin mx)) <$> qs] ∧
    ((mn < mx)%Q →
     Forall (λ x, ∃ q, scale_value (Fin x) (Fin mn) (Fin mx) = Fin q ∧
                       (-1 <= q)%Q ∧ (q <= 1)%Q ∧
                       ((x == mn)%Q → (q == -1)%Q) ∧ ((x == mx)%Q → (q == 1)%Q)) qs) ∧
    ((mn == mx)%Q →
     Forall (λ x, scale_value (Fin x) (Fin mn) (Fin mx) = NaN) qs).
Proof.
  intros Hne.
  destruct (finite_row_extrema qs Hne) as (mn & mx & Hmin & Hmax & Imn & Imx & Hb).
  exists mn, mx. repeat (split; [done|]).
  apply scaled_row_bounds; done.
Qed.

End ScaledRows.

(** A row with the values 0, 1/2 and 1. *)
Lemma perm_scaled_range_witness :
  ∃ mn mx : Q, mn ∈ [0; 1 # 2; 1]%Q ∧ mx ∈ [0; 1 # 2; 1]%Q ∧
    Forall (λ x, mn <= x ∧ x <= mx)%Q [0; 1 # 2; 1]%Q ∧
    perm_scaled [Fin <$> [0; 1 # 2; 1]%Q] =
      [(λ x, scale_value (Fin x) (Fin mn) (Fin mx)) <$> [0; 1 # 2; 1]%Q] ∧
    ((mn < mx)%Q →
     Forall (λ x, ∃ q, scale_value (Fin x) (Fin mn) (Fin mx) = Fin q ∧
                       (-1 <= q)%Q ∧ (q <= 1)%Q ∧
                       ((x == mn)%Q → (q == -1)%Q) ∧ ((x == mx)%Q → (q == 1)%Q))
            [0; 1 # 2; 1]%Q) ∧
    ((mn == mx)%Q →
     Forall (λ x, scale_value (Fin x) (Fin mn) (Fin mx) = NaN) [0; 1 # 2; 1]%Q).
Proof. apply (perm_scaled_range [0; 1 # 2; 1]%Q). done. Defined.

Section ValidRun.

Context {R : NumpyRandom} {F : SciFloat} {L : SpatialLibs}.

Lemma run_bind_eq {A B : Type} (m : Run A) (f : A → Run B) (w w1 : world) (a : A) :
  m w = (w1, inr a) → run_bind m f w = f a w1.
Proof. intros Hm. unfold run_bind. by rewrite Hm. Qed.

Lemma elementwise_Some {A B C : Type} (f : A → B → C) (x : list A) (y : list B) :
  length x = length y → elementwise f x y = Some (zip_with f x y).
Proof. intros Hlen. unfold elementwise. by rewrite decide_True. Qed.

(** Drawing the seeds leaves the generator of the caller in the state that
    seed 42 and one [randint] give. *)
Lemma draw_seeds_run (permutation : nat) (w : world) :
  draw_seeds permutation w =
  ({| global_rng := (rng_randint (rng_seed 42) 0 1000000 permutation).2;
      trace := trace w ++ [SeedsDrawn] |},
   inr (rng_randint (rng_seed 42) 0 1000000 permutation).1).
Proof.
  unfold draw_seeds, run_bind, on_global, log, np_random_seed, np_random_randint. simpl.
  by destruct (rng_randint (rng_seed 42) 0 1000000 permutation).
Qed.

(** With a seed for every trial, the trials all run, in order, and leave
    the generator of the caller alone. *)
Lemma parallel_trials_run (trial : list InteractionRow → Z → Rand (list fval))
    (workers : nat → rng_state) (n : list InteractionRow) (seeds : list Z)
    (permutation : nat) (w : world) :
  permutation ≤ length seeds →
  parallel_trials trial workers n seeds permutation w =
  ({| global_rng := global_rng w; trace := trace w ++ (Trial <$> seq 0 permutation) |},
   inr ((λ i : nat, (trial n (seeds !!! i) (workers i)).1) <$> seq 0 permutation)).
Proof.
  unfold parallel_trials. intros Hlen.
  assert (Hgen : ∀ len start w, start + len ≤ length seeds →
    run_for (seq start len) (λ i,
        run_bind (try_opt IndexError (seeds !! i)) (λ seed,
        run_bind (log (Trial i)) (λ _, run_ret (trial n seed (workers i)).1))) w =
    ({| global_rng := global_rng w; trace := trace w ++ (Trial <$> seq start len) |},
     inr ((λ i : nat, (trial n (seeds !!! i) (workers i)).1) <$> seq start len))).
  { clear w Hlen. induction len as [|len IH]; intros start w Hlen.
    - simpl. unfold run_ret. rewrite app_nil_r. by destruct w.
    - destruct (lookup_lt_is_Some_2 seeds start) as [seed Hs]; [lia|].
      cbn [seq run_for].
      erewrite run_bind_eq.
      2:{ unfold run_bind, try_opt. rewrite Hs. reflexivity. }
      erewrite run_bind_eq.
      2:{ apply IH. lia. }
      unfold run_ret. simpl. rewrite <- app_assoc. simpl.
      by rewrite (list_lookup_total_correct _ _ _ Hs). }
  apply Hgen. lia.
Qed.

Lemma stack_index_length (idx cols : list string) :
  length (stack_index idx cols) = length idx * length cols.
Proof.
  unfold stack_index. induction idx as [|i idx IH]; [done|].
  rewrite fmap_cons, concat_cons, length_app, length_fmap, IH. simpl. done.
Qed.

(** The neighbour phenotypes of the edge table are phenotypes of cells. *)
Lemma phenotype_mapper_within (cats phen : list string)
    (nb : list (list (option nat))) :
  Forall (λ p, p ∈ cats) phen →
  Forall (λ r, neighbour_phenotype r ∈ cats) (phenotype_mapper phen nb).
Proof.
  intros Hphen. rewrite Forall_forall in Hphen. apply Forall_forall. intros r Hr.
  unfold phenotype_mapper, stack_rows, map_phenotypes in Hr.
  apply elem_of_concat in Hr as (l & Hl & Hr).
  apply elem_of_lookup_imap in Hl as (i & mrow & -> & Hi).
  apply list_elem_of_omap in Hr as (slot & Hslot & Hsome).
  rewrite list_lookup_fmap in Hi.
  destruct (nb !! i) as [row|]; [|done]. simpl in Hi. injection Hi as <-.
  apply list_elem_of_fmap in Hslot as (s & -> & Hs).
  destruct s as [j|]; [|done]. simpl in Hsome.
  destruct (phen !! j) as [q|] eqn:Hq; [|done]. simpl in Hsome.
  destruct (phen !! i) as [p|]; [|done]. simpl in Hsome.
  injection Hsome as <-. simpl. apply Hphen. by eapply list_elem_of_lookup_2.
Qed.

Lemma permutation_pval_length (cats : list string) (n : list InteractionRow)
    (seed : Z) (st : rng_state) :
  NoDup cats → Forall (λ r, neighbour_phenotype r ∈ cats) n →
  (rng_permutation (rng_seed seed) (neighbour_phenotype <$> n)).1
    ≡ₚ neighbour_phenotype <$> n →
  length (permutation_pval cats n seed st).1 =
  length (frame_index cats n) * length (frame_index cats n).
Proof.
  intros Hnd Hin Hperm.
  pose proof (shuffled_within cats n seed Hperm Hin) as HinS.
  rewrite permutation_pval_value, total_frequencies_length; try done.
  - by rewrite (frame_index_shuffled cats n seed Hperm).
  - by rewrite length_fmap.
Qed.

(** A shuffle that permutes the neighbour column keeps its levels. *)
Lemma neighbour_levels_shuffled (n : list InteractionRow) (seed : Z) :
  (rng_permutation (rng_seed seed) (neighbour_phenotype <$> n)).1
    ≡ₚ neighbour_phenotype <$> n →
  neighbour_levels (shuffled n seed) = neighbour_levels n.
Proof.
  intros Hperm. unfold neighbour_levels, shuffled.
  rewrite assign_neighbour_column.
  - apply np_unique_ext. intros x. by rewrite Hperm.
  - rewrite (Permutation_length Hperm). by rewrite length_fmap.
Qed.

Lemma permutation_pval_norm_length (cats : list string) (n : list InteractionRow)
    (seed : Z) (st : rng_state) :
  (rng_permutation (rng_seed seed) (neighbour_phenotype <$> n)).1
    ≡ₚ neighbour_phenotype <$> n →
  length (permutation_pval_norm cats n seed st).1 =
  length (frame_index cats n) * length (neighbour_levels n).
Proof.
  intros Hperm.
  assert (E : (permutation_pval_norm cats n seed st).1 =
              flatten (div_cells (size_unstack cats (shuffled n seed))
                         (size_unstack cats (drop_duplicates (λ r, r) (shuffled n seed))))).
  { unfold permutation_pval_norm, rand_bind, np_random_seed, np_random_permutation,
      rand_ret, shuffled.
    by destruct (rng_permutation (rng_seed seed) (neighbour_phenotype <$> n)). }
  rewrite E, div_cells_size_unstack, (neighbour_levels_shuffled n seed Hperm).
  rewrite (flatten_length _ (length (neighbour_levels n))).
  - by rewrite length_fmap, (frame_index_shuffled cats n seed Hperm).
  - apply Forall_fmap, Forall_true. intros i. unfold compose. by rewrite length_fmap.
Qed.

Lemma observed_total_length (cats phen : list string) (n : list InteractionRow) :
  NoDup cats → Forall (λ r, neighbour_phenotype r ∈ cats) n →
  length (observed_total cats phen n) =
  length (frame_index cats n) * length (frame_index cats n).
Proof.
  intros Hnd Hin. unfold observed_total.
  apply total_frequencies_length; try done.
  rewrite length_fmap. apply frame_index_length.
Qed.

Lemma observed_conditional_length (cats : list string) (threshold : Z)
    (n : list InteractionRow) :
  length (observed_conditional cats threshold n) =
  length (frame_index cats n) * length (neighbour_levels n).
Proof.
  unfold observed_conditional, mask_below.
  rewrite div_cells_size_unstack. unfold size_unstack.
  rewrite neighbour_levels_drop_duplicates, frame_index_drop_duplicates.
  rewrite zip_with_fmap_l, zip_with_fmap_r, zip_with_diag.
  rewrite (flatten_length _ (length (neighbour_levels n))).
  - by rewrite length_fmap.
  - apply Forall_fmap, Forall_true. intros i. unfold compose.
    rewrite length_zip_with, !length_fmap. lia.
Qed.

Lemma transpose_scores_shape (final_scores : list (list fval)) (width : nat) :
  final_scores ≠ [] → Forall (λ t, length t = width) final_scores →
  length (transpose_scores final_scores) = width ∧
  Forall (λ row, length row = length final_scores) (transpose_scores final_scores).
Proof.
  intros Hne Hall. unfold transpose_scores.
  rewrite (max_lengths_same _ _ Hne Hall). split.
  - by rewrite length_fmap, length_seq.
  - apply Forall_fmap, Forall_true. intros r. unfold compose. by rewrite length_fmap.
Qed.

(** The scaling loop ends when [perm] has a row for every observed value,
    and keeps the length of the vector. *)
Lemma scale_observed_length (perm : list (list fval)) (n_freq : list fval) :
  length perm = length n_freq →
  ∃ v, scale_observed perm n_freq = Some v ∧ length v = length n_freq.
Proof.
  intros Hlen. unfold scale_observed.
  pose proof (scale_inv_init perm n_freq) as H0. destruct H0 as (Hsc & H1 & _).
  rewrite Hsc, H1. simpl. rewrite drop_0.
  destruct (scale_loop_inv perm n_freq Hlen (length n_freq) 0 _
              (scale_inv_init perm n_freq) eq_refl) as (s & E & Hs).
  rewrite E. simpl. destruct Hs as (_ & Hs1 & [(Hr & Hs0 & Hz)|Hr]); rewrite Hr.
  - rewrite Hs0. eauto.
  - rewrite Hs1. eexists. split; [done|].
    rewrite length_app, length_take, length_drop,
      (scaled_by_formula_length perm n_freq Hlen). simpl. lia.
Qed.

Lemma p_values_zscore_length (z : list fval) :
  Forall (λ v, isnan v = false) z → length (p_values_zscore z) = length z.
Proof.
  intros Hz. unfold p_values_zscore. rewrite notna_id; [by rewrite length_fmap|].
  apply Forall_fmap. eapply Forall_impl; [exact Hz|]. intros v Hv.
  by apply pvalue_of_z_notnan.
Qed.

Lemma outcome_bind {A B : Type} (m : Run A) (f : A → Run B) (w w1 : world) (a : A)
    (Q : world → exn + B → Prop) :
  m w = (w1, inr a) → outcome (f a) w1 Q → outcome (run_bind m f) w Q.
Proof. intros Hm Hf. unfold outcome, run_bind. by rewrite Hm. Qed.

Lemma outcome_raise {A B : Type} (m : Run A) (f : A → Run B) (w w1 : world) (e : exn)
    (Q : world → exn + B → Prop) :
  m w = (w1, inl e) → Q w1 (inl e) → outcome (run_bind m f) w Q.
Proof. intros Hm HQ. unfold outcome, run_bind. by rewrite Hm. Qed.

Lemma outcome_ret {A : Type} (a : A) (w : world) (Q : world → exn + A → Prop) :
  Q w (inr a) → outcome (run_ret a) w Q.
Proof. done. Qed.

(** Without a row of [perm] the scaling loop fails at its first step. *)
Lemma scale_observed_no_rows (n_freq : list fval) :
  n_freq ≠ [] → scale_observed [] n_freq = None.
Proof.
  intros Hne. unfold scale_observed.
  pose proof (scale_inv_init [] n_freq) as H0. destruct H0 as (Hsc & H1 & _).
  rewrite Hsc, H1. simpl. rewrite drop_0.
  destruct n_freq as [|x l]; [done|]. reflexivity.
Qed.

Lemma abs_rows_columns (labels : list (string * string)) (count pv : list fval) :
  length count = length labels → length pv = length labels →
  let rows := zip_with (λ '(i, j) '(c, p), (i, j, c, p)) labels
                (zip_with (λ c p : fval, (c, p)) count pv) in
  result_labels (AbsTable rows) = labels ∧ result_pvalues (AbsTable rows) = pv.
Proof.
  cbv zeta. unfold result_labels, result_pvalues. revert count pv.
  induction labels as [|[i j] labels IH]; intros [|c count] [|p pv] Hc Hp;
    simpl in Hc, Hp; try done.
  destruct (IH count pv) as [E1 E2]; [lia | lia |].
  cbn [zip_with]. rewrite !fmap_cons. by rewrite E1, E2.
Qed.

Lemma zscore_rows_columns (labels : list (string * string)) (z pz values : list fval) :
  length z = length labels → length pz = length labels →
  length values = length labels →
  let rows := zip_with (λ '(i, j) '(z, p, c), (i, j, z, p, c)) labels
                (zip_with (λ '(z, p) c, (z, p, c))
                   (zip_with (λ z p : fval, (z, p)) z pz) values) in
  result_labels (ZscoreTable rows) = labels ∧ result_pvalues (ZscoreTable rows) = pz.
Proof.
  cbv zeta. unfold result_labels, result_pvalues. revert z pz values.
  induction labels as [|[i j] labels IH]; intros [|a z] [|p pz] [|c values] Hz Hp Hv;
    simpl in Hz, Hp, Hv; try done.
  destruct (IH z pz values) as [E1 E2]; [lia | lia | lia |].
  cbn [zip_with]. rewrite !fmap_cons. by rewrite E1, E2.
Qed.

(** The two steps of the knn branch behind a frame that was built. *)
Lemma knn_neighbours_steps (tq : list point → point → nat → list nat)
    (pts : list point) (k : nat) (nb : list (list (option nat))) :
  Knn.neighbours tq pts k = Some nb →
  ∃ ind, Knn.query tq pts k = Some ind ∧ Knn.drop_column0 k ind = Some nb.
Proof.
  unfold Knn.neighbours. intros Hnb.
  destruct (Knn.query tq pts k) as [ind|]; [|done]. by exists ind.
Qed.

Lemma frame_index_square (cats : list string) (df : list InteractionRow) :
  length (frame_index cats df) * length (frame_index cats df) =
  length cats * length (frame_index cats df).
Proof. destruct df; simpl; lia. Qed.

Lemma frame_index_levels (cats : list string) (df : list InteractionRow) :
  length (frame_index cats df) * length (neighbour_levels df) =
  length cats * length (neighbour_levels df).
Proof.
  destruct df; [|done]. change (neighbour_levels []) with (@nil string). simpl. lia.
Qed.

(** The three [if method == ...] blocks of a run whose graph is built:
    one of them logs, calls the libraries and binds the frame; the goal is
    left at the statement that follows them. *)
Ltac graph_stage Hgraph Hrest :=
  let Hm := fresh "Hm" in
  let Hk := fresh "Hk" in
  let s := fresh "s" in
  let Hs := fresh "Hs" in
  let Hd := fresh "Hd" in
  let ind := fresh "ind" in
  let Hq := fresh "Hq" in
  let Hdrop := fresh "Hdrop" in
  destruct Hgraph as [[Hm Hk] | [[Hm Hk] | (Hm & s & Hs & Hd)]];
  destruct (decide (method _ = "knn"%string));
  destruct (decide (method _ = "radius"%string));
  destruct (decide (method _ = "delaunay"%string)); try congruence;
  [ destruct (knn_neighbours_steps _ _ _ _ Hk) as (ind & Hq & Hdrop);
    eapply outcome_bind;
      [ unfold run_bind, log, try_opt; rewrite Hq; simpl; rewrite Hdrop; reflexivity |];
    eapply outcome_bind; [reflexivity|];
    eapply outcome_bind; [reflexivity|]
  | eapply outcome_bind; [reflexivity|];
    eapply outcome_bind; [unfold run_bind, log, try_opt; rewrite Hk; reflexivity|];
    eapply outcome_bind; [reflexivity|]
  | eapply outcome_bind; [reflexivity|];
    eapply outcome_bind; [reflexivity|];
    eapply outcome_bind;
      [ unfold run_bind, log, try_opt; rewrite Hs; simpl; rewrite Hd; reflexivity |] ];
  apply Hrest; by rewrite Hm.

(** What a run with a neighbour graph and a known normalization comes to:
    a table when there is at least one trial and [pval_method] is known, the
    mapped neighbour frame when there is at least one trial and
    [pval_method] is not known, an exception when there is no trial and the
    table has a row. *)
Lemma run_outcome (cfg : config) (workers : nat → rng_state)
    (cats : list string) (coords : list point) (phen : list string)
    (nb : list (list (option nat))) (w : world) :
  (∀ st col, (rng_permutation st col).1 ≡ₚ col) →
  (∀ st low high size, length (rng_randint st low high size).1 = size) →
  graph_built cfg coords nb →
  normalization cfg = "total"%string ∨ normalization cfg = "conditional"%string →
  NoDup cats → Forall (λ p, p ∈ cats) phen →
  outcome (spatial_interaction_internal cfg workers cats coords phen) w
    (λ w' r,
       (1 ≤ permutation cfg →
        pval_method cfg = "abs"%string ∨ pval_method cfg = "zscore"%string →
        ∃ tbl, r = inr tbl ∧
          result_labels tbl = table_index cfg cats (phenotype_mapper phen nb) ∧
          length (result_pvalues tbl) = length (result_labels tbl) ∧
          match tbl with
          | AbsTable _ =>
              pval_method cfg = "abs"%string ∧
              Forall (λ v, ∃ q, v = Fin q ∧ (0 <= q)%Q ∧ (q < 1)%Q) (result_pvalues tbl)
          | ZscoreTable _ => pval_method cfg = "zscore"%string
          | NeighbourFrame _ => False
          end ∧
          trace w' = trace w ++ full_trace cfg) ∧
       (1 ≤ permutation cfg →
        pval_method cfg ≠ "abs"%string → pval_method cfg ≠ "zscore"%string →
        r = inr (NeighbourFrame (dropna_all (map_phenotypes phen nb))) ∧
        trace w' = trace w ++ full_trace cfg) ∧
       (permutation cfg = 0 → table_index cfg cats (phenotype_mapper phen nb) ≠ [] →
        r = inl (if scaling cfg then IndexError else ValueError) ∧
        trace w' = trace w ++ full_trace cfg)).
Proof.
  intros Hshuffle Hrand Hgraph Hnorm Hnd Hphen. set (n := phenotype_mapper phen nb).
  unfold table_index, full_trace.
  pose proof (phenotype_mapper_within cats phen nb Hphen) as Hin. fold n in Hin.
  unfold spatial_interaction_internal.
  lazymatch goal with
  | |- outcome (run_bind _ (λ i1, run_bind _ (λ i2, run_bind _ ?K))) _ ?Q =>
      assert (Hrest : ∀ w1, trace w1 = trace w ++ [NeighbourGraph (method cfg)] →
                            outcome (K (Some nb)) w1 Q)
  end.
  2:{ graph_stage Hgraph Hrest. }
  intros w1 Hw1. cbv beta.
  eapply outcome_bind; [reflexivity|]. cbv beta zeta.
  change (stack_rows phen (map_phenotypes phen nb)) with n.
  eapply outcome_bind; [apply draw_seeds_run|]. cbv beta.
  set (seeds := (rng_randint (rng_seed 42) 0 1000000 (permutation cfg)).1).
  assert (Hseeds : length seeds = permutation cfg) by apply Hrand.
  set (cols := if decide (normalization cfg = "total"%string)
               then square_columns cats n else neighbour_levels n).
  set (labels := stack_index cats cols).
  set (Lv := length cats * length cols).
  assert (Hlabels : length labels = Lv) by apply stack_index_length.
  assert (HcolsT : normalization cfg = "total"%string →
                   cols = square_columns cats n ∧
                   length (frame_index cats n) * length (frame_index cats n) = Lv).
  { intros E. unfold Lv, cols. rewrite decide_True by done. split; [done|].
    rewrite (Permutation_length (square_columns_Permutation cats n Hnd Hin)).
    apply frame_index_square. }
  assert (HcolsC : normalization cfg = "conditional"%string →
                   cols = neighbour_levels n ∧
                   length (frame_index cats n) * length (neighbour_levels n) = Lv).
  { intros E. unfold Lv, cols. rewrite decide_False by (rewrite E; done).
    split; [done|]. apply frame_index_levels. }
  lazymatch goal with
  | |- outcome (run_bind _ (λ f1, run_bind _ ?K)) ?w2 ?Q =>
      assert (Hrest2 : ∀ fs w3,
                length fs = permutation cfg → Forall (λ t, length t = Lv) fs →
                global_rng w3 = global_rng w2 →
                trace w3 = trace w2 ++ (Trial <$> seq 0 (permutation cfg)) →
                outcome (K (Some fs)) w3 Q)
  end.
  2:{ destruct Hnorm as [Hn|Hn];
      destruct (decide (normalization cfg = "total"%string)) as [D1|D1];
      destruct (decide (normalization cfg = "conditional"%string)) as [D2|D2];
      try congruence.
      - eapply outcome_bind.
        { erewrite run_bind_eq by (apply parallel_trials_run; lia). reflexivity. }
        eapply outcome_bind; [reflexivity|].
        apply Hrest2; try done.
        + by rewrite length_fmap, length_seq.
        + apply Forall_fmap, Forall_true. intros i. unfold compose.
          rewrite <- (proj2 (HcolsT Hn)). by apply permutation_pval_length.
      - eapply outcome_bind; [reflexivity|].
        eapply outcome_bind.
        { erewrite run_bind_eq by (apply parallel_trials_run; lia). reflexivity. }
        apply Hrest2; try done.
        + by rewrite length_fmap, length_seq.
        + apply Forall_fmap, Forall_true. intros i. unfold compose.
          rewrite <- (proj2 (HcolsC Hn)). by apply permutation_pval_norm_length. }
  intros fs w3 Hfsl Hfs Hg3 Ht3. cbv beta.
  eapply outcome_bind; [reflexivity|]. cbv beta zeta.
  set (perm := transpose_scores fs).
  lazymatch goal with
  | |- outcome (run_bind _ (λ f1, run_bind _ ?K)) _ ?Q =>
      assert (Hrest3 : ∀ values w4,
                length values = Lv →
                global_rng w4 = global_rng w3 →
                trace w4 = trace w3 ++ [Observed] →
                outcome (K (Some (values, labels))) w4 Q)
  end.
  2:{ destruct Hnorm as [Hn|Hn];
      destruct (decide (normalization cfg = "total"%string)) as [D1|D1];
      destruct (decide (normalization cfg = "conditional"%string)) as [D2|D2];
      try congruence.
      - eapply outcome_bind; [reflexivity|].
        eapply outcome_bind; [reflexivity|].
        destruct (HcolsT Hn) as [Ec El].
        unfold labels in Hrest3. rewrite Ec in Hrest3. apply Hrest3; try done.
        rewrite <- El. by apply observed_total_length.
      - eapply outcome_bind; [reflexivity|].
        eapply outcome_bind; [reflexivity|].
        destruct (HcolsC Hn) as [Ec El].
        unfold labels in Hrest3. rewrite Ec in Hrest3. apply Hrest3; try done.
        rewrite <- El. apply observed_conditional_length. }
  intros values w4 Hvl Hg4 Ht4. cbv beta.
  assert (Hworld :
    trace w4 = trace w ++ [NeighbourGraph (method cfg); SeedsDrawn] ++
               (Trial <$> seq 0 (permutation cfg)) ++ [Observed]).
  { rewrite Ht4, Ht3. cbn [trace]. rewrite Hw1. by rewrite <- !app_assoc. }
  destruct (decide (permutation cfg = 0)) as [Hp0|Hp0].
  { (* no trial: [perm] has no row *)
    assert (perm = []) as ->.
    { unfold perm. destruct fs; [done|]. simpl in Hfsl. lia. }
    destruct (decide (labels = [])) as [Hl0|Hl0].
    { unfold outcome. split; [lia|]. split; [lia | done]. }
    assert (Hvne : values ≠ []).
    { intros ->. apply Hl0, nil_length_inv. simpl in Hvl. lia. }
    destruct (scaling cfg).
    - eapply outcome_raise.
      { cbv beta iota delta [run_bind read_var try_opt run_ret].
        rewrite (scale_observed_no_rows values Hvne). reflexivity. }
      split; [lia|]. split; [lia | done].
    - eapply outcome_bind; [reflexivity|]. cbv beta iota.
      assert (Hd : direction_of values (row_mean <$> []) = None).
      { destruct values; [done|]. reflexivity. }
      assert (Ha : p_values_abs [] values (permutation cfg) = None).
      { destruct values; [done|]. reflexivity. }
      assert (Hz : z_scores_of values (row_mean <$> []) (row_std <$> []) = None).
      { destruct values; [done|]. reflexivity. }
      destruct (decide (pval_method cfg = "abs"%string)) as [D1|D1];
        destruct (decide (pval_method cfg = "zscore"%string)) as [D2|D2];
        try congruence.
      + eapply outcome_raise.
        { cbv beta iota delta [run_bind read_var try_opt run_ret]. rewrite Ha.
          reflexivity. }
        split; [lia|]. split; [lia | done].
      + eapply outcome_bind; [reflexivity|].
        eapply outcome_raise.
        { cbv beta iota delta [run_bind read_var try_opt run_ret]. rewrite Hz.
          reflexivity. }
        split; [lia|]. split; [lia | done].
      + eapply outcome_bind; [reflexivity|].
        eapply outcome_bind; [reflexivity|].
        eapply outcome_bind; [reflexivity|]. cbv beta iota.
        eapply outcome_raise.
        { unfold try_opt. rewrite Hd. reflexivity. }
        split; [lia|]. split; [lia | done]. }
  assert (Hperm : length perm = Lv ∧ Forall (λ row, length row = permutation cfg) perm).
  { rewrite <- Hfsl. apply transpose_scores_shape; [|done].
    intros ->. simpl in Hfsl. lia. }
  destruct Hperm as [Hperml Hpermr].
  lazymatch goal with
  | |- outcome (run_bind _ ?K) _ ?Q =>
      assert (Hrest4 : ∀ mean std values',
                length mean = Lv → length std = Lv → length values' = Lv →
                outcome (K (mean, std, Some (values', labels))) w4 Q)
  end.
  2:{ destruct (scaling cfg).
      - destruct (scale_observed_length perm values) as (v & Ev & Hv); [lia|].
        eapply outcome_bind.
        { cbv beta iota delta [run_bind read_var try_opt run_ret]. rewrite Ev.
          reflexivity. }
        apply Hrest4; unfold perm_scaled; rewrite ?length_fmap; lia.
      - eapply outcome_bind; [reflexivity|].
        apply Hrest4; rewrite ?length_fmap; lia. }
  intros mean std values' Hml Hsl Hvl'. cbv beta iota.
  assert (∃ d, direction_of values' mean = Some d ∧ length d = Lv) as (d & Ed & Hdl).
  { unfold direction_of. rewrite elementwise_Some by lia.
    eexists; split; [reflexivity|]. rewrite length_fmap, length_zip_with. lia. }
  destruct (decide (pval_method cfg = "abs"%string)) as [D1|D1];
    destruct (decide (pval_method cfg = "zscore"%string)) as [D2|D2]; try congruence.
  3:{ (* neither: the mapped frame is what the name [neighbours] still holds *)
      eapply outcome_bind; [reflexivity|].
      eapply outcome_bind; [reflexivity|].
      eapply outcome_bind; [reflexivity|]. cbv beta iota.
      eapply outcome_bind.
      { unfold try_opt. rewrite Ed. reflexivity. }
      apply outcome_ret.
      split; [intros _ [?|?]; done|]. split; [done | lia]. }
  - set (pv := (λ c : nat, fdiv (of_nat c) (of_nat (permutation cfg + 1))) <$>
                 zip_with (λ (row : list fval) (x : fval),
                             length (filter (λ v, fge v x = true) row)) perm values').
    assert (Hpvb : Forall (λ v, ∃ q, v = Fin q ∧ (0 <= q)%Q ∧ (q < 1)%Q) pv).
    { apply abs_fractions. eapply Forall_impl; [exact Hpermr|]. intros row ->. done. }
    assert (Epv : p_values_abs perm values' (permutation cfg) = Some pv).
    { unfold p_values_abs. rewrite elementwise_Some by lia. cbn [mbind option_bind].
      rewrite notna_id; [done|].
      eapply Forall_impl; [exact Hpvb|]. intros v (q & -> & _). done. }
    assert (Hpvl : length pv = Lv).
    { unfold pv. rewrite length_fmap, length_zip_with. lia. }
    clearbody pv.
    eapply outcome_bind.
    { cbv beta iota delta [run_bind read_var try_opt run_ret]. rewrite Epv. reflexivity. }
    eapply outcome_bind; [reflexivity|].
    eapply outcome_bind; [reflexivity|]. cbv beta iota.
    eapply outcome_bind.
    { unfold try_opt. rewrite Ed. reflexivity. }
    eapply outcome_bind; [reflexivity|].
    eapply outcome_bind.
    { rewrite elementwise_Some by lia. reflexivity. }
    eapply outcome_bind.
    { rewrite elementwise_Some by (rewrite length_zip_with; lia).
      cbn [mbind option_bind].
      rewrite elementwise_Some by (rewrite !length_zip_with; lia). reflexivity. }
    apply outcome_ret.
    destruct (abs_rows_columns labels (zip_with fmul values' d) pv) as [E1 E2];
      [rewrite length_zip_with; lia | lia |].
    split; [|split; [done | lia]]. intros _ _. eexists. split; [done|].
    rewrite E1, E2. repeat split; try done. lia.
  - set (z := fillna0 <$> zip_with fdiv (zip_with fsub values' mean) std).
    assert (Ez : z_scores_of values' mean std = Some z).
    { unfold z_scores_of. rewrite elementwise_Some by lia. cbn [mbind option_bind].
      rewrite elementwise_Some by (rewrite length_zip_with; lia). done. }
    assert (Hzl : length z = Lv).
    { unfold z. rewrite length_fmap, !length_zip_with. lia. }
    assert (Hpzl : length (p_values_zscore z) = Lv).
    { rewrite p_values_zscore_length; [done|].
      apply Forall_fmap, Forall_true. intros v. apply fillna0_notnan. }
    clearbody z.
    eapply outcome_bind; [reflexivity|].
    eapply outcome_bind.
    { cbv beta iota delta [run_bind read_var try_opt run_ret]. rewrite Ez. reflexivity. }
    eapply outcome_bind; [reflexivity|]. cbv beta iota.
    eapply outcome_bind.
    { unfold try_opt. rewrite Ed. reflexivity. }
    eapply outcome_bind; [reflexivity|]. cbv beta iota.
    eapply outcome_bind.
    { rewrite elementwise_Some by lia. cbn [mbind option_bind].
      rewrite elementwise_Some by (rewrite length_zip_with; lia).
      cbn [mbind option_bind].
      rewrite elementwise_Some by (rewrite !length_zip_with; lia). reflexivity. }
    apply outcome_ret.
    destruct (zscore_rows_columns labels z (p_values_zscore z) values') as [E1 E2];
      [lia | lia | lia |].
    split; [|split; [done | lia]]. intros _ _. eexists. split; [done|].
    rewrite E1, E2. repeat split; try done. lia.
Qed.

(** With a neighbour graph and a [normalization] that is neither 'total'
    nor 'conditional', the run ends at the first use of [final_scores]: the
    graph built and the seeds drawn, nothing else. *)
Lemma invalid_normalization_raises (cfg : config) (workers : nat → rng_state)
    (cats : list string) (coords : list point) (phen : list string)
    (nb : list (list (option nat))) (w : world) :
  graph_built cfg coords nb →
  normalization cfg ≠ "total"%string → normalization cfg ≠ "conditional"%string →
  spatial_interaction_internal cfg workers cats coords phen w =
  ({| global_rng := (rng_randint (rng_seed 42) 0 1000000 (permutation cfg)).2;
      trace := trace w ++ [NeighbourGraph (method cfg); SeedsDrawn] |},
   inl (NameError "final_scores")).
Proof.
  intros Hgraph Hn1 Hn2.
  enough (Hout : outcome (spatial_interaction_internal cfg workers cats coords phen) w
            (λ w' r, (w', r) =
               ({| global_rng := (rng_randint (rng_seed 42) 0 1000000 (permutation cfg)).2;
                   trace := trace w ++ [NeighbourGraph (method cfg); SeedsDrawn] |},
                inl (NameError "final_scores")))).
  { unfold outcome in Hout.
    by destruct (spatial_interaction_internal cfg workers cats coords phen w). }
  unfold spatial_interaction_internal.
  lazymatch goal with
  | |- outcome (run_bind _ (λ i1, run_bind _ (λ i2, run_bind _ ?K))) _ ?Q =>
      assert (Hrest : ∀ w1, trace w1 = trace w ++ [NeighbourGraph (method cfg)] →
                            outcome (K (Some nb)) w1 Q)
  end.
  2:{ graph_stage Hgraph Hrest. }
  intros w1 Hw1. cbv beta.
  eapply outcome_bind; [reflexivity|]. cbv beta zeta.
  eapply outcome_bind; [apply draw_seeds_run|]. cbv beta.
  destruct (decide (normalization cfg = "total"%string)) as [?|_]; [done|].
  destruct (decide (normalization cfg = "conditional"%string)) as [?|_]; [done|].
  eapply outcome_bind; [reflexivity|].
  eapply outcome_bind; [reflexivity|].
  eapply outcome_raise; [reflexivity|].
  cbn [trace]. rewrite Hw1, <- app_assoc. done.
Qed.

(** X16. A valid run returns its table. With a neighbour graph built by one
    of the three methods, normalization 'total' or 'conditional',
    [pval_method] 'abs' or 'zscore', at least one permutation, a generator
    whose shuffle permutes its argument and whose [randint] returns [size]
    numbers, and categories without repetition that hold the phenotype of
    every cell, the function raises nothing: it returns a table with one row
    per pair of a row label and a column of the count frame, in row-major
    order, and one p-value per row; under 'abs' every p-value is a finite
    number in [0, 1). This is for an image in which at least one cell has a
    neighbour. The run builds the graph, draws the seeds, runs the trials
    in order and then computes the observed frequencies. *)
Theorem valid_run_returns_table (cfg : config) (workers : nat → rng_state)
    (cats : list string) (coords : list point) (phen : list string)
    (nb : list (list (option nat))) (w : world) :
  (∀ st col, (rng_permutation st col).1 ≡ₚ col) →
  (∀ st low high size, length (rng_randint st low high size).1 = size) →
  graph_built cfg coords nb →
  normalization cfg = "total"%string ∨ normalization cfg = "conditional"%string →
  pval_method cfg = "abs"%string ∨ pval_method cfg = "zscore"%string →
  1 ≤ permutation cfg →
  NoDup cats → Forall (λ p, p ∈ cats) phen →
  phenotype_mapper phen nb ≠ [] →
  returns_with (spatial_interaction_internal cfg workers cats coords phen) w
    (λ w' tbl,
       result_labels tbl = table_index cfg cats (phenotype_mapper phen nb) ∧
       length (result_pvalues tbl) = length (result_labels tbl) ∧
       match tbl with
       | AbsTable _ =>
           pval_method cfg = "abs"%string ∧
           Forall (λ v, ∃ q, v = Fin q ∧ (0 <= q)%Q ∧ (q < 1)%Q) (result_pvalues tbl)
       | ZscoreTable _ => pval_method cfg = "zscore"%string
       | NeighbourFrame _ => False
       end ∧
       trace w' = trace w ++ full_trace cfg).
Proof.
  intros Hshuffle Hrand Hgraph Hnorm Hpval Hp Hnd Hphen _.
  pose proof (run_outcome cfg workers cats coords phen nb w
                Hshuffle Hrand Hgraph Hnorm Hnd Hphen) as Hout.
  unfold outcome in Hout. unfold returns_with.
  destruct (spatial_interaction_internal cfg workers cats coords phen w) as [w' r].
  destruct Hout as [Hok _]. destruct (Hok Hp Hpval) as (tbl & Hr & Hfacts).
  cbn [fst snd] in Hr, Hfacts. subst r.
  exists w', tbl. split; [reflexivity | exact Hfacts].
Qed.

(** X17. Without a trial the function fails late. With [permutation = 0],
    a neighbour graph, a known normalization and a table of at least one
    row, nothing is refused up front: the graph is built, the seeds are
    drawn and the observed frequencies are computed, and then the run
    raises, IndexError in the scaling loop when [scaling] is set and
    ValueError otherwise, whatever [pval_method] is. *)
Theorem zero_permutations_raise (cfg : config) (workers : nat → rng_state)
    (cats : list string) (coords : list point) (phen : list string)
    (nb : list (list (option nat))) (w : world) :
  (∀ st col, (rng_permutation st col).1 ≡ₚ col) →
  (∀ st low high size, length (rng_randint st low high size).1 = size) →
  graph_built cfg coords nb →
  normalization cfg = "total"%string ∨ normalization cfg = "conditional"%string →
  NoDup cats → Forall (λ p, p ∈ cats) phen →
  permutation cfg = 0 → table_index cfg cats (phenotype_mapper phen nb) ≠ [] →
  raises_with (spatial_interaction_internal cfg workers cats coords phen) w
    (if scaling cfg then IndexError else ValueError)
    (λ w', trace w' = trace w ++ [NeighbourGraph (method cfg); SeedsDrawn; Observed]).
Proof.
  intros Hshuffle Hrand Hgraph Hnorm Hnd Hphen Hp Hne.
  pose proof (run_outcome cfg workers cats coords phen nb w
                Hshuffle Hrand Hgraph Hnorm Hnd Hphen) as Hout.
  unfold outcome in Hout. unfold raises_with.
  destruct (spatial_interaction_internal cfg workers cats coords phen w) as [w' r].
  destruct Hout as (_ & _ & Hfail). destruct (Hfail Hp Hne) as (Hr & Ht).
  cbn [fst snd] in Hr, Ht. subst r. exists w'. split; [done|].
  unfold full_trace in Ht. rewrite Hp in Ht. done.
Qed.

(** C9 (amended). The function validates nothing up front. An invalid
    [method] makes it raise (the unbound name [ind]) before any neighbour
    graph is built or any seed drawn, the world left as it was. An invalid
    [normalization] always makes it raise before any permutation trial or
    observed frequency is computed, the neighbour graph built and the seeds
    drawn at most; when the neighbour graph is built, the exception is the
    unbound name [final_scores], raised after the graph and the seeds and
    nothing else. An invalid [pval_method] raises nothing by itself:
    whenever the function returns, it returns the mapped neighbour frame and
    not a table; and with a neighbour graph in which some cell has a
    neighbour, a known normalization and at least one permutation it does
    return, all the work done: the graph, the seeds, every trial and the
    observed frequencies. *)
Theorem invalid_configuration (cfg : config) (workers : nat → rng_state)
    (cats : list string) (coords : list point) (phen : list string) :
  (method cfg ≠ "knn"%string → method cfg ≠ "radius"%string →
   method cfg ≠ "delaunay"%string →
   ∀ w, spatial_interaction_internal cfg workers cats coords phen w =
        (w, inl (NameError "ind"))) ∧
  (normalization cfg ≠ "total"%string → normalization cfg ≠ "conditional"%string →
   fails_after (before_trials cfg)
     (spatial_interaction_internal cfg workers cats coords phen) ∧
   ∀ nb w, graph_built cfg coords nb →
     spatial_interaction_internal cfg workers cats coords phen w =
     ({| global_rng := (rng_randint (rng_seed 42) 0 1000000 (permutation cfg)).2;
         trace := trace w ++ [NeighbourGraph (method cfg); SeedsDrawn] |},
      inl (NameError "final_scores"))) ∧
  (pval_method cfg ≠ "abs"%string → pval_method cfg ≠ "zscore"%string →
   returns_only (spatial_interaction_internal cfg workers cats coords phen)
     (λ r, ∃ rows, r = NeighbourFrame rows) ∧
   ∀ nb w,
     (∀ st col, (rng_permutation st col).1 ≡ₚ col) →
     (∀ st low high size, length (rng_randint st low high size).1 = size) →
     graph_built cfg coords nb →
     normalization cfg = "total"%string ∨ normalization cfg = "conditional"%string →
     1 ≤ permutation cfg → NoDup cats → Forall (λ p, p ∈ cats) phen →
     phenotype_mapper phen nb ≠ [] →
     returns_with (spatial_interaction_internal cfg workers cats coords phen) w
       (λ w' r, r = NeighbourFrame (dropna_all (map_phenotypes phen nb)) ∧
                trace w' = trace w ++ full_trace cfg)).
Proof.
  split; [|split].
  - intros ??? w. by apply invalid_method_raises.
  - intros Hn1 Hn2. split; [by apply invalid_normalization_fails|].
    intros nb w Hgraph. by apply (invalid_normalization_raises cfg workers cats coords phen nb).
  - intros Hp1 Hp2. split; [by apply invalid_pval_method_returns_frame|].
    intros nb w Hshuffle Hrand Hgraph Hnorm Hp Hnd Hphen _.
    pose proof (run_outcome cfg workers cats coords phen nb w
                  Hshuffle Hrand Hgraph Hnorm Hnd Hphen) as Hout.
    unfold outcome in Hout. unfold returns_with.
    destruct (spatial_interaction_internal cfg workers cats coords phen w) as [w' r].
    destruct Hout as (_ & Hframe & _). destruct (Hframe Hp Hp1 Hp2) as [Hr Ht].
    cbn [fst snd] in Hr, Ht. subst r. by eexists _, _.
Qed.

End ValidRun.

(** The rotating generator is lawful: its shuffle permutes and its
    [randint] returns [size] numbers. *)
Lemma rotate_rng_permutes (st : @rng_state rotate_rng) (col : list string) :
  (@rng_permutation rotate_rng st col).1 ≡ₚ col.
Proof.
  simpl. unfold rotate. rewrite Permutation_app_comm. by rewrite take_drop.
Qed.

Lemma rotate_rng_randint (st : @rng_state rotate_rng) (low high : Z) (size : nat) :
  length (@rng_randint rotate_rng st low high size).1 = size.
Proof. simpl. by rewrite length_fmap, length_seq. Qed.

(** The frame of the radius method on the exact tree. *)
Lemma toy_radius_frame (pts : list point) (r : Q) :
  pts ≠ [] →
  Radius.neighbours_from (@tree_query_radius toy_libs) pts r =
  Some (Radius.neighbours pts r).
Proof. intros Hne. unfold Radius.neighbours_from. by rewrite decide_False. Qed.

(** Cells A, A, B with the second one isolated, radius method, three
    trials. *)
Lemma valid_run_returns_table_witness :
  let coords := [[0; 0]; [100; 100]; [1; 0]]%Q in
  let phen := ["A"; "A"; "B"]%string in
  let cats := ["A"; "B"]%string in
  let cfg := {| method := "radius"; radius := 30; knn := 2; permutation := 3;
                cond_counts_threshold := 5; pval_method := "abs";
                normalization := "total"; scaling := false |} in
  let w := @Build_world rotate_rng 7%Z [] in
  returns_with
    (@spatial_interaction_internal rotate_rng toy_float toy_libs cfg (λ _, 0%Z)
       cats coords phen) w
    (λ w' tbl,
       result_labels tbl =
         table_index cfg cats (phenotype_mapper phen (Radius.neighbours coords 30)) ∧
       length (result_pvalues tbl) = length (result_labels tbl) ∧
       match tbl with
       | AbsTable _ =>
           pval_method cfg = "abs"%string ∧
           Forall (λ v, ∃ q, v = Fin q ∧ (0 <= q)%Q ∧ (q < 1)%Q) (result_pvalues tbl)
       | ZscoreTable _ => pval_method cfg = "zscore"%string
       | NeighbourFrame _ => False
       end ∧
       trace w' = trace w ++ full_trace cfg).
Proof.
  intros coords phen cats cfg w.
  apply (@valid_run_returns_table rotate_rng toy_float toy_libs cfg (λ _, 0%Z)
           cats coords phen (Radius.neighbours coords 30) w).
  - apply rotate_rng_permutes.
  - apply rotate_rng_randint.
  - right; left. split; [done|]. by apply toy_radius_frame.
  - by left.
  - by left.
  - simpl. lia.
  - by apply (bool_decide_unpack _).
  - repeat constructor.
  - done.
Defined.

(** The same image without a trial, with and without scaling. *)
Lemma zero_permutations_raise_witness :
  let coords := [[0; 0]; [100; 100]; [1; 0]]%Q in
  let phen := ["A"; "A"; "B"]%string in
  let cats := ["A"; "B"]%string in
  let cfg s := {| method := "radius"; radius := 30; knn := 2; permutation := 0;
                  cond_counts_threshold := 5; pval_method := "abs";
                  normalization := "total"; scaling := s |} in
  let w := @Build_world rotate_rng 7%Z [] in
  raises_with
    (@spatial_interaction_internal rotate_rng toy_float toy_libs (cfg true) (λ _, 0%Z)
       cats coords phen) w IndexError
    (λ w', trace w' = trace w ++ [NeighbourGraph "radius"; SeedsDrawn; Observed]) ∧
  raises_with
    (@spatial_interaction_internal rotate_rng toy_float toy_libs (cfg false) (λ _, 0%Z)
       cats coords phen) w ValueError
    (λ w', trace w' = trace w ++ [NeighbourGraph "radius"; SeedsDrawn; Observed]).
Proof.
  intros coords phen cats cfg w. split.
  - apply (@zero_permutations_raise rotate_rng toy_float toy_libs (cfg true) (λ _, 0%Z)
             cats coords phen (Radius.neighbours coords 30) w);
      try done.
    + apply rotate_rng_permutes.
    + apply rotate_rng_randint.
    + right; left. split; [done|]. by apply toy_radius_frame.
    + by left.
    + by apply (bool_decide_unpack _).
    + repeat constructor.
  - apply (@zero_permutations_raise rotate_rng toy_float toy_libs (cfg false) (λ _, 0%Z)
             cats coords phen (Radius.neighbours coords 30) w);
      try done.
    + apply rotate_rng_permutes.
    + apply rotate_rng_randint.
    + right; left. split; [done|]. by apply toy_radius_frame.
    + by left.
    + by apply (bool_decide_unpack _).
    + repeat constructor.
Defined.

(** Cells A, A, B with the second one isolated, radius method, three
    trials: an unknown method, an unknown normalization and an unknown
    [pval_method]. *)
Lemma invalid_configuration_witness :
  let coords := [[0; 0]; [100; 100]; [1; 0]]%Q in
  let phen := ["A"; "A"; "B"]%string in
  let cats := ["A"; "B"]%string in
  let cfg m n p := {| method := m; radius := 30; knn := 2; permutation := 3;
                      cond_counts_threshold := 5; pval_method := p;
                      normalization := n; scaling := true |} in
  (∀ w, @spatial_interaction_internal rotate_rng toy_float toy_libs
          (cfg "voronoi" "total" "abs")%string (λ _, 0%Z) cats coords phen w =
        (w, inl (NameError "ind"))) ∧
  fails_after (before_trials (cfg "radius" "row" "abs")%string)
    (@spatial_interaction_internal rotate_rng toy_float toy_libs
       (cfg "radius" "row" "abs")%string (λ _, 0%Z) cats coords phen) ∧
  (∀ w, @spatial_interaction_internal rotate_rng toy_float toy_libs
          (cfg "radius" "row" "abs")%string (λ _, 0%Z) cats coords phen w =
        (@Build_world rotate_rng 45%Z
           (trace w ++ [NeighbourGraph "radius"; SeedsDrawn]),
         inl (NameError "final_scores"))) ∧
  returns_only
    (@spatial_interaction_internal rotate_rng toy_float toy_libs
       (cfg "radius" "total" "rank")%string (λ _, 0%Z) cats coords phen)
    (λ r, ∃ rows, r = NeighbourFrame rows) ∧
  (∀ w, returns_with
          (@spatial_interaction_internal rotate_rng toy_float toy_libs
             (cfg "radius" "total" "rank")%string (λ _, 0%Z) cats coords phen) w
          (λ w' r, r = NeighbourFrame [(0, [Some "B"]); (2, [Some "A"])]%string ∧
                   trace w' = trace w ++ [NeighbourGraph "radius"; SeedsDrawn;
                                          Trial 0; Trial 1; Trial 2; Observed])).
Proof.
  intros coords phen cats cfg.
  assert (Hgraph : ∀ m n p, m = "radius"%string →
            @graph_built toy_libs (cfg m n p) coords (Radius.neighbours coords 30)).
  { intros m n p ->. right; left. split; [done|]. by apply toy_radius_frame. }
  pose proof (@invalid_configuration rotate_rng toy_float toy_libs
                (cfg "voronoi" "total" "abs")%string (λ _, 0%Z) cats coords phen)
    as (Hmethod & _ & _).
  pose proof (@invalid_configuration rotate_rng toy_float toy_libs
                (cfg "radius" "row" "abs")%string (λ _, 0%Z) cats coords phen)
    as (_ & Hnorm & _).
  pose proof (@invalid_configuration rotate_rng toy_float toy_libs
                (cfg "radius" "total" "rank")%string (λ _, 0%Z) cats coords phen)
    as (_ & _ & Hpval).
  destruct Hnorm as [Hfails Hname]; [done | done |].
  destruct Hpval as [Honly Hframe]; [done | done |].
  split; [|split; [|split; [|split]]].
  - by apply Hmethod.
  - exact Hfails.
  - intros w. apply (Hname (Radius.neighbours coords 30) w). by apply Hgraph.
  - exact Honly.
  - intros w. apply (Hframe (Radius.neighbours coords 30) w).
    + apply rotate_rng_permutes.
    + apply rotate_rng_randint.
    + by apply Hgraph.
    + by left.
    + simpl. lia.
    + by apply (bool_decide_unpack _).
    + repeat constructor.
    + done.
Defined.

Section ImageSplit.

Context {A : Type} (imageid : A → string).

Lemma filter_image_split (obs : list A) (k : string) (ks : list string) :
  k ∉ ks →
  filter (λ c, imageid c ∈ k :: ks) obs ≡ₚ
  filter (λ c, imageid c = k) obs ++ filter (λ c, imageid c ∈ ks) obs.
Proof.
  intros Hk. induction obs as [|c obs IH]; [done|].
  destruct (decide (imageid c = k)) as [E|E].
  - rewrite (filter_cons_True (λ c, imageid c ∈ k :: ks)) by (rewrite E; by left).
    rewrite (filter_cons_True (λ c, imageid c = k)) by done.
    rewrite (filter_cons_False (λ c, imageid c ∈ ks)) by (by rewrite E).
    simpl. by rewrite IH.
  - rewrite (filter_cons_False (λ c, imageid c = k)) by done.
    destruct (decide (imageid c ∈ ks)) as [Hin|Hin].
    + rewrite (filter_cons_True (λ c, imageid c ∈ k :: ks)) by (by right).
      rewrite (filter_cons_True (λ c, imageid c ∈ ks)) by done.
      rewrite IH. by rewrite Permutation_middle.
    + rewrite (filter_cons_False (λ c, imageid c ∈ k :: ks)).
      2:{ intros [?|?]%elem_of_cons; done. }
      by rewrite (filter_cons_False (λ c, imageid c ∈ ks)) by done.
Qed.

Lemma images_cover (obs : list A) (ks : list string) :
  NoDup ks →
  concat ((λ i : string, filter (λ c, imageid c = i) obs) <$> ks) ≡ₚ
  filter (λ c, imageid c ∈ ks) obs.
Proof.
  induction 1 as [|k ks Hk _ IH].
  - simpl. induction obs as [|c obs IHo]; [done|].
    rewrite filter_cons_False; [done|]. apply not_elem_of_nil.
  - rewrite fmap_cons, concat_cons, IH. symmetry. by apply filter_image_split.
Qed.

(** X18. The images partition the cells. Without [subset], the list of
    per-image data holds one entry per image, in the order of the first
    cell of each image; the entry of an image holds exactly the cells of
    that image, in their order, and is not empty; taken together the
    entries hold every cell once. With [subset] the list holds the cells of
    that image alone. *)
Theorem adata_list_partition (obs : list A) :
  let images := drop_duplicates (λ x : string, x) (imageid <$> obs) in
  NoDup images ∧ (∀ i, i ∈ images ↔ ∃ c, c ∈ obs ∧ imageid c = i) ∧
  length (adata_list imageid None obs) = length images ∧
  (∀ k i, images !! k = Some i →
     ∃ sub, adata_list imageid None obs !! k = Some sub ∧ sub ≠ [] ∧
            ∀ c, c ∈ sub ↔ c ∈ obs ∧ imageid c = i) ∧
  concat (adata_list imageid None obs) ≡ₚ obs ∧
  ∀ s, adata_list imageid (Some s) obs = [filter (λ c, imageid c = s) obs].
Proof.
  intros images.
  assert (Hnd : NoDup images) by apply drop_duplicates_NoDup.
  assert (Hel : ∀ i, i ∈ images ↔ ∃ c, c ∈ obs ∧ imageid c = i).
  { intros i. unfold images. rewrite drop_duplicates_elem, list_elem_of_fmap.
    split; intros (c & ? & ?); eauto. }
  split; [done|]. split; [done|]. split; [|split; [|split]].
  - unfold adata_list. by rewrite length_fmap.
  - intros k i Hk. unfold adata_list. fold images.
    rewrite list_lookup_fmap, Hk. eexists. split; [done|]. split.
    + destruct (proj1 (Hel i)) as (c & Hc & Hi); [by eapply list_elem_of_lookup_2|].
      intros Hnil.
      assert (Hin : c ∈ filter (λ c, imageid c = i) obs) by (by apply list_elem_of_filter).
      rewrite Hnil in Hin. by apply elem_of_nil in Hin.
    + intros c. rewrite list_elem_of_filter. tauto.
  - unfold adata_list. fold images. rewrite (images_cover obs images Hnd).
    rewrite (filter_ext_in (λ c, imageid c ∈ images) (λ _, True)).
    + clear. induction obs as [|c obs IH]; [done|].
      rewrite filter_cons_True by done. by rewrite IH.
    + intros c Hc. split; [done|]. intros _. apply Hel. eauto.
  - done.
Qed.

End ImageSplit.
